(** * Event Management System (EMS): seat reservation engine

    Shallow embedding of the two implementations of the reservation engine:

    - [Proj1] : [Proj1/Ex2] operations (one mutex per seat, "fine-grained"),
    - [Proj2] : [Proj2/server/operations.c] (one mutex per event, "coarse").

    The embedding is sequential: every lock operation succeeds and is a
    no-op, the artificial access delay ([nanosleep]) is not modelled, and
    every [check_write]/[write] to a descriptor succeeds.  What the
    allocator does to one [ems_create] is an explicit input ([Fault]),
    and so is the room the stack has for the variable-length arrays of
    [Proj2] ([stack_room]); the blocks of a few bytes in which [Proj1]
    formats a number, and the arguments of its threads, are taken to be
    allocated.

    C integers are mathematical integers in [Z] with the wrap-around of the
    C type written out: [unsigned int] is 32 bits wide, [size_t] is 64 bits
    wide.  Arguments are taken to be values of their C type (an event id
    in [0, UINT_MAX], dimensions and seat coordinates in [0, SIZE_MAX]). *)

From Stdlib Require Import ZArith Lia Bool List Sorted.
From stdpp Require Import base option list.
Import ListNotations.

Local Open Scope Z_scope.

(** ** Machine integers *)

Definition UINT_MAX : Z := 2 ^ 32 - 1.
Definition SIZE_MAX : Z := 2 ^ 64 - 1.
Definition INT_MAX : Z := 2 ^ 31 - 1.

(** Arithmetic on [unsigned int]. *)
Definition wrap_uint (z : Z) : Z := z mod 2 ^ 32.

(** Arithmetic on [size_t]. *)
Definition wrap_size (z : Z) : Z := z mod 2 ^ 64.

(** [sizeof(struct Data)].  The declaration ([eventlist.h]) is not among
    the sources; [operations.c] of [Proj1] uses two fields of it, the
    [unsigned int place] and the [pthread_mutex_t mutex], which take 48
    bytes under the ABI that gives [size_t] its 64 bits.  The value
    matters only for the sizes at which the product asked of [malloc]
    wraps around. *)
Definition sizeof_Data : Z := 48.

(** Number of characters that ["%u"] prints for an [unsigned int]. *)
Definition decimal_length (v : Z) : Z :=
  if v <? 10 then 1
  else if v <? 100 then 2
  else if v <? 1000 then 3
  else if v <? 10000 then 4
  else if v <? 100000 then 5
  else if v <? 1000000 then 6
  else if v <? 10000000 then 7
  else if v <? 100000000 then 8
  else if v <? 1000000000 then 9
  else 10.

(** Whether [sprintf] stays within a block of [size] bytes when it prints
    [chars] characters and the closing NUL. *)
Definition sprintf_fits (size chars : Z) : bool := chars + 1 <=? size.

(** ** Outcome of an operation

    All operations return [0] on success and [1] on failure; the failure
    paths differ by the diagnostic printed on [stderr] just before the
    [return 1].  [Status] records which path was taken:

    - [NotInitialized]      : "EMS state must be initialized"
    - [AlreadyInitialized]  : "EMS state has already been initialized"
    - [DuplicateEvent]      : "Event already exists"
    - [EventNotFound]       : "Event not found"
    - [InvalidSeat]         : "Seat out of bounds" / "Invalid seat"
    - [SeatAlreadyReserved] : "Seat already reserved"
    - [AllocationFailure]   : "Error allocating memory ..." /
                              "Error appending event to list" /
                              a [NULL] result of [create_list]
    - [LockFailure]         : "Error initializing mutex" (and the silent
                              failure of [pthread_mutex_init] in [Proj2])
    - [Undefined]           : the call leaves defined behaviour: it
                              dereferences freed memory, or it writes past
                              the end of a heap block. *)
Inductive Status : Set :=
| Ok
| NotInitialized
| AlreadyInitialized
| DuplicateEvent
| EventNotFound
| InvalidSeat
| SeatAlreadyReserved
| AllocationFailure
| LockFailure
| Undefined.

(** The [int] actually returned. *)
Definition ret_code (s : Status) : Z :=
  match s with
  | Ok => 0
  | _ => 1
  end.

(** ** Events and seat grids *)

(** [struct Event].  [data] is the seat array ([event->data] in [Proj2],
    the [place] fields of [event->Data] in [Proj1]); the mutexes are not
    part of the sequential state. *)
Record Event : Set := mkEvent {
  id : Z;
  rows : Z;
  cols : Z;
  reservations : Z;
  data : list Z
}.

(** A seat of a request: [(xs[i], ys[i])]. *)
Definition Seat : Set := (Z * Z)%type.

(** [seat_index]: [(row - 1) * event->cols + col - 1] in [size_t]. *)
Definition seat_index (event : Event) (row col : Z) : Z :=
  wrap_size ((row - 1) * cols event + col - 1).

(** Read of cell [index] of a seat array: [event->data[index]] in [Proj2],
    [*get_seat_with_delay(event, index)] in [Proj1].  An index past the end
    of the array (undefined in C) reads as [0]. *)
Definition grid_read (d : list Z) (index : Z) : Z :=
  default 0 (d !! Z.to_nat index).

(** Write of cell [index] of a seat array, through the same accessors.  An
    index past the end of the array (undefined in C) leaves the array as
    it is. *)
Definition grid_write (d : list Z) (index : Z) (v : Z) : list Z :=
  <[Z.to_nat index := v]> d.

(** The bounds test of both [ems_reserve]:
    [row <= 0 || row > event->rows || col <= 0 || col > event->cols]. *)
Definition out_of_bounds (event : Event) (s : Seat) : bool :=
  (fst s <=? 0) || (fst s >? rows event) || (snd s <=? 0) || (snd s >? cols event).

Definition set_reservations (event : Event) (r : Z) : Event :=
  mkEvent (id event) (rows event) (cols event) r (data event).

Definition set_data (event : Event) (d : list Z) : Event :=
  mkEvent (id event) (rows event) (cols event) (reservations event) d.

(** An event as [ems_create] leaves it when the dimensions are
    representable: the seat array has [rows * cols] cells and the counter
    is an [unsigned int]. *)
Definition wf_event (event : Event) : Prop :=
  0 <= rows event /\ 0 <= cols event /\
  rows event * cols event <= SIZE_MAX /\
  Z.of_nat (length (data event)) = rows event * cols event /\
  0 <= reservations event <= UINT_MAX.

(** Every seat of the request is within the bounds of the event. *)
Definition all_in_bounds (event : Event) (seats : list Seat) : Prop :=
  Forall (fun s => out_of_bounds event s = false) seats.

(** Every seat of the request is free in the grid of the event. *)
Definition all_free (event : Event) (seats : list Seat) : Prop :=
  Forall (fun s => grid_read (data event) (seat_index event (fst s) (snd s)) = 0) seats.

(** What a caller may observe of one [ems_reserve] on an event: either the
    call succeeded and every requested cell holds the id just drawn from
    the counter, or it failed and the grid is the one before the call. *)
Definition all_or_nothing (event : Event) (seats : list Seat)
  (s : Status) (event' : Event) : Prop :=
  (s = Ok /\
   reservations event' = wrap_uint (reservations event + 1) /\
   forall seat, In seat seats ->
     grid_read (data event') (seat_index event' (fst seat) (snd seat))
     = reservations event')
  \/
  (s <> Ok /\ data event' = data event).

(** ** Event list *)

(** Modelled from the spec: [eventlist.c] ([create_list], [get_event],
    [append_to_list], [free_list]) is not among the sources.  The registry
    is an ordered sequence of events, insertion order being creation order;
    [get_event] (reached through [get_event_with_delay], from [head] to
    [tail] in [Proj2]) is the lookup by id, absence being a normal
    result. *)
Definition get_event (l : list Event) (event_id : Z) : option Event :=
  find (fun e => id e =? event_id) l.

(** Modelled from the spec: [append_to_list] adds the event at the tail. *)
Definition append_to_list (l : list Event) (event : Event) : list Event :=
  l ++ [event].

(** [ems_reserve] updates the event through the pointer [get_event]
    returned: the node found by the lookup is the one that changes. *)
Fixpoint store_event (l : list Event) (event_id : Z) (event : Event) : list Event :=
  match l with
  | [] => []
  | e :: l' =>
      if id e =? event_id then event :: l'
      else e :: store_event l' event_id event
  end.

(** What the environment does to the allocations of one [ems_create]. *)
Inductive Fault : Set :=
| NoFault
| EventAllocFails
| DataAllocFails
| MutexInitFails
| AppendFails.

(** ** Rendering of a grid

    The spec's row-major dump: cell [(row, col)] is the element of index
    [(row - 1) * cols + (col - 1)] of the seat array. *)
Definition cell_at (d : list Z) (ncols row col : Z) : Z :=
  grid_read d ((row - 1) * ncols + (col - 1)).

(** [1; 2; ...; n] *)
Definition upto (n : Z) : list Z :=
  map (fun k => Z.of_nat k + 1) (seq 0 (Z.to_nat n)).

Definition row_major_dump (nrows ncols : Z) (d : list Z) : list (list Z) :=
  map (fun row => map (fun col => cell_at d ncols row col) (upto ncols)) (upto nrows).

(** Text written by the [Proj1] operations on the output descriptor, one
    token per formatted item: a number printed with ["%u"], the separator
    [" "], the end of line, and the label ["Event: "].  Of the decimal
    rendering of a number only the length is modelled
    ([decimal_length]), against the size of the block it is formatted
    in. *)
Inductive Token : Set :=
| TNum (v : Z)
| TSpace
| TNewline
| TEventLabel.

(** One printed line of a grid: the cells separated by [TSpace], closed by
    [TNewline]. *)
Fixpoint line_of (vals : list Z) : list Token :=
  match vals with
  | [] => [TNewline]
  | [v] => [TNum v; TNewline]
  | v :: rest => TNum v :: TSpace :: line_of rest
  end.

(** Values written by the [Proj2] operations on the response pipe, one
    item per [check_write]: the [int] status, a [size_t], an array of
    [unsigned int]. *)
Inductive Field : Set :=
| FInt (v : Z)
| FSize (v : Z)
| FArray (l : list Z).

(** ** Commands, for sequences of operations *)
Inductive Op : Set :=
| OpCreate (event_id num_rows num_cols : Z)
| OpReserve (event_id : Z) (seats : list Seat)
| OpShow (event_id : Z)
| OpList.

Section Sequences.

(** An engine: its state, how it runs one command, and how the counter of
    an event is read off its state. *)
Context {St : Type}.
Variable step : St -> Op -> Status * St.
Variable counter_of : St -> Z -> option Z.

(** The counter of event [eid], read as 0 while the event does not exist. *)
Definition counter_value (eid : Z) (st : St) : Z :=
  default 0 (counter_of st eid).

(** The reservation ids handed out for event [eid] along a sequence of
    commands: after each successful [ems_reserve] on [eid], the value
    [++event->reservations] produced, which is the counter after the
    call. *)
Fixpoint ids_handed_out (eid : Z) (st : St) (ops : list Op) : list Z :=
  match ops with
  | [] => []
  | op :: ops' =>
      let '(s, st') := step st op in
      match op, s, counter_of st' eid with
      | OpReserve event_id _, Ok, Some r =>
          if event_id =? eid then r :: ids_handed_out eid st' ops'
          else ids_handed_out eid st' ops'
      | _, _, _ => ids_handed_out eid st' ops'
      end
  end.

End Sequences.

(** Ids that increase strictly, hence never repeat, all above the counter
    [c] they started from, hence never zero. *)
Definition fresh_increasing (c : Z) (ids : list Z) : Prop :=
  StronglySorted Z.lt ids /\ NoDup ids /\ Forall (fun r => c < r /\ r <> 0) ids.

(** Text printed by [show_EMS] of [Proj2] on [stdout], one item per
    [fprintf]: the header ["Event %u\n"], a cell ["%u "], the end of a row,
    and the line ["No events\n"]. *)
Inductive Printed : Set :=
| PEvent (event_id : Z)
| PCell (v : Z)
| PEndRow
| PNoEvents.

(** One event as [show_EMS] prints it, read off the row-major dump. *)
Definition printed_event (event : Event) : list Printed :=
  PEvent (id event)
  :: flat_map (fun row => map PCell row ++ [PEndRow])
       (row_major_dump (rows event) (cols event) (data event)).

Section Creations.

Context {St : Type}.
Variable step : St -> Op -> Status * St.

(** The ids of the [CREATE] commands of a sequence that returned 0, in
    order. *)
Fixpoint created_ids (st : St) (ops : list Op) : list Z :=
  match ops with
  | [] => []
  | op :: ops' =>
      let '(s, st') := step st op in
      match op, s with
      | OpCreate event_id _ _, Ok => event_id :: created_ids st' ops'
      | _, _ => created_ids st' ops'
      end
  end.

End Creations.

(** [c + 1; c + 2; ...; c + n] *)
Definition ids_from (c : Z) (n : nat) : list Z :=
  map (fun k => c + 1 + Z.of_nat k) (seq 0 n).

(** Whether a command with its status is a successful reservation on
    event [eid], the only thing that hands out an id of that event. *)
Definition issues (eid : Z) (op : Op) (s : Status) : bool :=
  match op, s with
  | OpReserve event_id _, Ok => event_id =? eid
  | _, _ => false
  end.

(** Commands that change the state and stay within defined behaviour in
    both implementations: a [RESERVE], and a [CREATE] whose seat array, in
    bytes, fits a [size_t] in [Proj1] as well.  The commands that print
    are left out. *)
Definition sized_op (op : Op) : Prop :=
  match op with
  | OpCreate _ num_rows num_cols =>
      0 <= num_rows /\ 0 <= num_cols /\
      sizeof_Data * num_rows * num_cols <= SIZE_MAX
  | OpReserve _ _ => True
  | OpShow _ => False
  | OpList => False
  end.

(** Commands within the reach of both implementations alike: those of
    [sized_op], a [RESERVE] listing no seat twice. *)
Definition plain_op (op : Op) : Prop :=
  sized_op op /\
  match op with
  | OpReserve _ seats => NoDup seats
  | _ => True
  end.

(** The cells of an event never exceed its counter: every mark is an id
    that has been handed out. *)
Definition marks_bounded (event : Event) : Prop :=
  Forall (fun v => 0 <= v <= reservations event) (data event).

(** The commands [ems_process_thread] of [Proj1] switches on ([enum
    Command] of [parser.h]), each with the values its parser has left in
    the arguments of the thread, whether the parse succeeded or not. *)
Inductive Command : Set :=
| CMD_CREATE (event_id num_rows num_columns : Z)
| CMD_RESERVE (event_id : Z) (seats : list Seat)
| CMD_SHOW (event_id : Z)
| CMD_LIST_EVENTS
| CMD_WAIT (delay id_thread : Z)
| CMD_INVALID
| CMD_HELP
| CMD_BARRIER
| CMD_EMPTY
| EOC.

(** What a worker of [Proj1] writes on [fd_output]: the tokens of
    [ems_show] and [ems_list_events], and the line ["Waiting...\n"]. *)
Inductive Chunk : Set :=
| Tok (t : Token)
| Waiting.

(** How a worker of [Proj1] leaves its loop: through [pthread_exit], with
    a [return_value], or with the whole process, when a command leaves
    defined behaviour. *)
Inductive Leave : Set :=
| Exits (return_value : Z)
| Killed.

(** [CREATE id rows cols] for each triple, in order. *)
Definition create_ops (specs : list (Z * Z * Z)) : list Op :=
  map (fun spec => OpCreate (fst (fst spec)) (snd (fst spec)) (snd spec)) specs.

(** ** Proj1: one mutex per seat *)
Module Proj1.

(** The static [event_list]: [NULL] or the list. *)
Definition State : Set := option (list Event).

Definition ems_init (create_list_ok : bool) (st : State) : Status * State :=
  match st with
  | Some _ => (AlreadyInitialized, st)
  | None => if create_list_ok then (Ok, Some []) else (AllocationFailure, None)
  end.

(** [free_list(event_list); event_list = NULL;] *)
Definition ems_terminate (st : State) : Status * State :=
  match st with
  | None => (NotInitialized, st)
  | Some _ => (Ok, None)
  end.

(** [ems_create].  The seat array is a block of
    [sizeof(struct Data) * num_rows * num_cols] bytes, a product taken in
    [size_t], and the loop that initialises it visits
    [num_rows * num_cols] cells, a product taken in [size_t] on its own:
    when the first wraps around and the second does not, the loop writes
    past the end of the block ([Undefined]). *)
Definition ems_create (env : Fault) (st : State) (event_id num_rows num_cols : Z)
  : Status * State :=
  match st with
  | None => (NotInitialized, st)
  | Some l =>
      match get_event l event_id with
      | Some _ => (DuplicateEvent, st)
      | None =>
          (* the cells the initialisation loop visits *)
          let n := wrap_size (num_rows * num_cols) in
          (* the bytes asked of malloc *)
          let size := wrap_size (sizeof_Data * num_rows * num_cols) in
          match env with
          | EventAllocFails => (AllocationFailure, st)
          | DataAllocFails => (AllocationFailure, st)
          | MutexInitFails =>
              (* the loop runs only when there is a cell, and stops at the
                 first one *)
              if 0 <? n then
                if size <? sizeof_Data then (Undefined, st) else (LockFailure, st)
              else (Ok, Some (append_to_list l
                     (mkEvent event_id num_rows num_cols 0 (replicate (Z.to_nat n) 0))))
          | AppendFails =>
              if size <? n * sizeof_Data then (Undefined, st)
              else (AllocationFailure, st)
          | NoFault =>
              if size <? n * sizeof_Data then (Undefined, st)
              else
                (Ok, Some (append_to_list l
                       (mkEvent event_id num_rows num_cols 0 (replicate (Z.to_nat n) 0))))
          end
      end
  end.

(** The claiming loop of [ems_reserve], entered at index [i] with the seats
    [xs[i..], ys[i..]] still to visit.  Result: the value of [i] when the
    loop is left, the diagnostic of the [break] ([Ok] when the loop ran to
    its end), and the seat array. *)
Fixpoint claim_seats (event : Event) (reservation_id : Z) (seats : list Seat)
  (i : nat) (d : list Z) : nat * Status * list Z :=
  match seats with
  | [] => (i, Ok, d)
  | s :: rest =>
      if out_of_bounds event s then (i, InvalidSeat, d)
      else if negb (grid_read d (seat_index event (fst s) (snd s)) =? 0)
      then (i, SeatAlreadyReserved, d)
      else claim_seats event reservation_id rest (S i)
             (grid_write d (seat_index event (fst s) (snd s)) reservation_id)
  end.

(** The rollback loop: [for (j = 0; j < i; j++) seat(xs[j], ys[j]) = 0]. *)
Definition release_seats (event : Event) (claimed : list Seat) (d : list Z) : list Z :=
  fold_left (fun d' s => grid_write d' (seat_index event (fst s) (snd s)) 0) claimed d.

(** [ems_reserve] from the point where the event has been found. *)
Definition reserve_event (event : Event) (seats : list Seat) : Status * Event :=
  let reservation_id := wrap_uint (reservations event + 1) in
  let event1 := set_reservations event reservation_id in
  let '(i, diag, d) := claim_seats event1 reservation_id seats 0 (data event1) in
  if (i <? length seats)%nat then
    let event2 := set_reservations event1 (wrap_uint (reservations event1 - 1)) in
    (diag, set_data event2 (release_seats event2 (firstn i seats) d))
  else (Ok, set_data event1 d).

Definition ems_reserve (st : State) (event_id : Z) (seats : list Seat)
  : Status * State :=
  match st with
  | None => (NotInitialized, st)
  | Some l =>
      match get_event l event_id with
      | None => (EventNotFound, st)
      | Some event =>
          let '(s, event') := reserve_event event seats in
          (s, Some (store_event l event_id event'))
      end
  end.

(** The [CMD_RESERVE] case of [ems_process_thread]: a request of zero seats
    is reported as invalid, and (the [continue] being commented out) is
    then passed to [ems_reserve] like any other.  The first component
    tells whether "Invalid RESERVE command" was printed. *)
Definition process_reserve (st : State) (event_id : Z) (seats : list Seat)
  : bool * (Status * State) :=
  ((length seats =? 0)%nat, ems_reserve st event_id seats).

(** Inner loop of [ems_show]: [n] columns of row [i] from column [j] on.
    Each cell is formatted with ["%u"] in a block of 2 bytes before it is
    written: a cell of two digits or more takes [sprintf] past the end of
    the block ([Undefined], with what had been written until then). *)
Fixpoint show_cols (event : Event) (i : Z) (n : nat) (j : Z) (out : list Token)
  : Status * list Token :=
  match n with
  | O => (Ok, out)
  | S n' =>
      let seat := grid_read (data event) (seat_index event i j) in
      if sprintf_fits 2 (decimal_length seat) then
        let out1 := out ++ [TNum seat] in
        let out2 := if j <? cols event then out1 ++ [TSpace] else out1 in
        show_cols event i n' (j + 1) out2
      else (Undefined, out)
  end.

(** Outer loop of [ems_show]: [n] rows from row [i] on. *)
Fixpoint show_rows (event : Event) (n : nat) (i : Z) (out : list Token)
  : Status * list Token :=
  match n with
  | O => (Ok, out)
  | S n' =>
      match show_cols event i (Z.to_nat (cols event)) 1 out with
      | (Ok, out') => show_rows event n' (i + 1) (out' ++ [TNewline])
      | stopped => stopped
      end
  end.

(** [ems_show]: the status and the text written on [fd_output].  The loops
    [for (i = 1; i <= rows; i++)] run [rows] and [cols] times, which is
    what the C loops do when [rows] and [cols] are below [SIZE_MAX]. *)
Definition ems_show (st : State) (event_id : Z) : Status * list Token :=
  match st with
  | None => (NotInitialized, [])
  | Some l =>
      match get_event l event_id with
      | None => (EventNotFound, [])
      | Some event => show_rows event (Z.to_nat (rows event)) 1 []
      end
  end.

(** The loop of [ems_list_events] over the nodes from [current] on.  The
    label is written first; the id is then formatted with ["%u\n"] in a
    block of 10 bytes: an id of nine digits or more takes [sprintf] past
    the end of the block ([Undefined], with what had been written until
    then). *)
Fixpoint list_events (current : list Event) (out : list Token)
  : Status * list Token :=
  match current with
  | [] => (Ok, out)
  | e :: next =>
      let out1 := out ++ [TEventLabel] in
      if sprintf_fits 10 (decimal_length (id e) + 1) then
        list_events next (out1 ++ [TNum (id e); TNewline])
      else (Undefined, out1)
  end.

(** [ems_list_events]: the status and the text written on [fd_output].
    On an empty list "No events" goes to [stderr] and the call returns 0. *)
Definition ems_list_events (st : State) : Status * list Token :=
  match st with
  | None => (NotInitialized, [])
  | Some [] => (Ok, [])
  | Some l => list_events l []
  end.

(** Dimensions for which [ems_create] builds a grid that [ems_show] can
    walk: at least one seat, and a [size_t] loop counter that can pass
    [rows] and [cols]. *)
Definition valid_dims (num_rows num_cols : Z) : Prop :=
  0 <= num_rows /\ 0 <= num_cols /\
  1 <= num_rows * num_cols /\ num_rows * num_cols < SIZE_MAX.

(** One command against the engine; only the status is kept. *)
Definition step (st : State) (op : Op) : Status * State :=
  match op with
  | OpCreate event_id num_rows num_cols => ems_create NoFault st event_id num_rows num_cols
  | OpReserve event_id seats => ems_reserve st event_id seats
  | OpShow event_id => (fst (ems_show st event_id), st)
  | OpList => (fst (ems_list_events st), st)
  end.

(** Counter of event [event_id], [None] when there is no such event. *)
Definition counter_of (st : State) (event_id : Z) : option Z :=
  match st with
  | None => None
  | Some l => reservations <$> get_event l event_id
  end.

(** The reservation ids handed out for event [eid] along a sequence of
    commands. *)
Definition issued_ids (eid : Z) (st : State) (ops : list Op) : list Z :=
  ids_handed_out step counter_of eid st ops.

(** A sequence of commands, statuses dropped. *)
Definition run (st : State) (ops : list Op) : State :=
  fold_left (fun st' op => snd (step st' op)) ops st.

(** [ems_process_thread] for a pool of one worker, on the commands still
    to be read: the loop reads and executes one command after the other
    and leaves with [return_value] 1 at a [BARRIER] and 0 at the end of
    the commands (an exhausted input reads as [EOC]).  Result: how the
    loop was left, the state, what has been written, the commands not yet
    read.

    [get_index_thread] is not among the sources and is a parameter: the
    index it gives, from the ids of the thread list and the id looked
    for.  The list has one entry, of id [current_thread_id] and of [wait]
    0: an index other than 0 is outside of it, and the read or the store
    of [pthread_list[index].wait] leaves defined behaviour.  At index 0 a
    [WAIT] with a thread id is refused ("Invalid thread id"), so that no
    delay is ever pending.

    With one worker the flag [BARRIER_FLAG] is 1 whenever the loop tests
    it.  A parse that fails is reported and, the [continue] being
    commented out, the command is executed all the same.  Allocations
    succeed. *)
Fixpoint ems_process_thread (get_index_thread : list Z -> Z -> Z)
  (current_thread_id : Z) (st : State) (out : list Chunk) (input : list Command)
  : Leave * State * list Chunk * list Command :=
  if negb (get_index_thread [current_thread_id] current_thread_id =? 0)
  then (Killed, st, out, input)
  else
    match input with
    | [] => (Exits 0, st, out, [])
    | cmd :: rest =>
        match cmd with
        | CMD_CREATE event_id num_rows num_columns =>
            let '(s, st') := ems_create NoFault st event_id num_rows num_columns in
            match s with
            | Undefined => (Killed, st', out, rest)
            | _ => ems_process_thread get_index_thread current_thread_id st' out rest
            end
        | CMD_RESERVE event_id seats =>
            ems_process_thread get_index_thread current_thread_id
              (snd (ems_reserve st event_id seats)) out rest
        | CMD_SHOW event_id =>
            let '(s, text) := ems_show st event_id in
            match s with
            | Undefined => (Killed, st, out ++ map Tok text, rest)
            | _ =>
                ems_process_thread get_index_thread current_thread_id st
                  (out ++ map Tok text) rest
            end
        | CMD_LIST_EVENTS =>
            let '(s, text) := ems_list_events st in
            match s with
            | Undefined => (Killed, st, out ++ map Tok text, rest)
            | _ =>
                ems_process_thread get_index_thread current_thread_id st
                  (out ++ map Tok text) rest
            end
        | CMD_WAIT delay id_thread =>
            if (0 <? delay) && (id_thread =? 0)
            then
              ems_process_thread get_index_thread current_thread_id st
                (out ++ [Waiting]) rest
            else if (0 <? delay) && (0 <? id_thread)
            then
              if get_index_thread [current_thread_id] id_thread =? 0
              then ems_process_thread get_index_thread current_thread_id st out rest
              else (Killed, st, out, rest)
            else ems_process_thread get_index_thread current_thread_id st out rest
        | CMD_INVALID => ems_process_thread get_index_thread current_thread_id st out rest
        | CMD_HELP => ems_process_thread get_index_thread current_thread_id st out rest
        | CMD_BARRIER => (Exits 1, st, out, rest)
        | CMD_EMPTY => ems_process_thread get_index_thread current_thread_id st out rest
        | EOC => (Exits 0, st, out, rest)
        end
    end.

(** The loop of [ems_process_with_threads] with [num_threads = 1]: round
    after round, one worker is started with the next thread id and
    joined; a return value 0 ends the loop with [ems_terminate].
    [rounds] bounds the number of rounds; [None] when it is used up.
    Result: whether the call returned (the process was not killed), the
    state, what has been written. *)
Fixpoint process_rounds (get_index_thread : list Z -> Z -> Z) (rounds : nat)
  (id_thread : Z) (st : State) (out : list Chunk) (input : list Command)
  : option (bool * State * list Chunk) :=
  match rounds with
  | O => None
  | S rounds' =>
      match ems_process_thread get_index_thread id_thread st out input with
      | (Exits return_value, st', out', rest) =>
          if return_value =? 0 then Some (true, snd (ems_terminate st'), out')
          else process_rounds get_index_thread rounds' (id_thread + 1) st' out' rest
      | (Killed, st', out', _) => Some (false, st', out')
      end
  end.

(** [ems_process_with_threads] with [num_threads = 1]: the thread ids
    start at 1. *)
Definition ems_process_with_threads (get_index_thread : list Z -> Z -> Z)
  (rounds : nat) (st : State) (out : list Chunk) (input : list Command)
  : option (bool * State * list Chunk) :=
  process_rounds get_index_thread rounds 1 st out input.

(** [delay_to_timespec]: the fields [tv_sec] and [tv_nsec] of the result.
    [delay_ms] is an [unsigned int], and so is the arithmetic of both
    fields. *)
Definition delay_to_timespec (delay_ms : Z) : Z * Z :=
  (delay_ms / 1000, wrap_uint ((delay_ms mod 1000) * 1000000)).

End Proj1.

(** ** Proj2: one mutex per event *)
Module Proj2.

(** [struct EventList], as far as [operations.c] uses it: the nodes from
    [head] to [tail] and the field [num_events]. *)
Record EventList : Set := mkList {
  nodes : list Event;
  num_events : Z
}.

(** Modelled from the spec: [create_list] (absent) "creates an empty
    registry", with a count of zero events. *)
Definition create_list : EventList := mkList [] 0.

(** The static [event_list]: [NULL], a live list, or the address of a list
    that [free_list] has released ([ems_terminate] keeps the pointer). *)
Inductive ListPtr : Set :=
| Null
| Live (l : EventList)
| Dangling.

Definition ems_init (create_list_ok : bool) (st : ListPtr) : Status * ListPtr :=
  match st with
  | Null => if create_list_ok then (Ok, Live create_list) else (AllocationFailure, Null)
  | _ => (AlreadyInitialized, st)
  end.

(** [free_list(event_list)] and no assignment to [event_list]. *)
Definition ems_terminate (st : ListPtr) : Status * ListPtr :=
  match st with
  | Null => (NotInitialized, st)
  | Live _ => (Ok, Dangling)
  | Dangling => (Undefined, st)
  end.

Definition ems_create (env : Fault) (st : ListPtr) (event_id num_rows num_cols : Z)
  : Status * ListPtr :=
  match st with
  | Null => (NotInitialized, st)
  | Dangling => (Undefined, st)
  | Live l =>
      match get_event (nodes l) event_id with
      | Some _ => (DuplicateEvent, st)
      | None =>
          match env with
          | EventAllocFails => (AllocationFailure, st)
          | MutexInitFails => (LockFailure, st)
          | DataAllocFails => (AllocationFailure, st)
          | AppendFails => (AllocationFailure, st)
          | NoFault =>
              let event :=
                mkEvent event_id num_rows num_cols 0
                  (replicate (Z.to_nat (wrap_size (num_rows * num_cols))) 0) in
              (Ok, Live (mkList (append_to_list (nodes l) event)
                                (wrap_size (num_events l + 1))))
          end
      end
  end.

(** Inner loop of the conflict scan, for grid cell [i]: the first
    requested seat whose index is [i] decides ([break]); the result tells
    whether the scan hit an occupied seat. *)
Fixpoint scan_seats (event : Event) (i : Z) (seats : list Seat) : bool :=
  match seats with
  | [] => false
  | s :: rest =>
      if negb (seat_index event (fst s) (snd s) =? i) then scan_seats event i rest
      else negb (grid_read (data event) i =? 0)
  end.

(** Outer loop of the conflict scan: [n] cells from cell [i] on. *)
Fixpoint scan_grid (event : Event) (seats : list Seat) (n : nat) (i : Z) : bool :=
  match n with
  | O => false
  | S n' =>
      if scan_seats event i seats then true
      else scan_grid event seats n' (i + 1)
  end.

(** The marking loop. *)
Definition mark_seats (event : Event) (reservation_id : Z) (seats : list Seat)
  (d : list Z) : list Z :=
  fold_left
    (fun d' s => grid_write d' (seat_index event (fst s) (snd s)) reservation_id)
    seats d.

(** [ems_reserve] from the point where the event has been found. *)
Definition reserve_event (event : Event) (seats : list Seat) : Status * Event :=
  if existsb (out_of_bounds event) seats then (InvalidSeat, event)
  else if scan_grid event seats
            (Z.to_nat (wrap_size (rows event * cols event))) 0
  then (SeatAlreadyReserved, event)
  else
    let reservation_id := wrap_uint (reservations event + 1) in
    let event1 := set_reservations event reservation_id in
    (Ok, set_data event1 (mark_seats event1 reservation_id seats (data event1))).

Definition ems_reserve (st : ListPtr) (event_id : Z) (seats : list Seat)
  : Status * ListPtr :=
  match st with
  | Null => (NotInitialized, st)
  | Dangling => (Undefined, st)
  | Live l =>
      match get_event (nodes l) event_id with
      | None => (EventNotFound, st)
      | Some event =>
          let '(s, event') := reserve_event event seats in
          (s, Live (mkList (store_event (nodes l) event_id event') (num_events l)))
      end
  end.

(** Inner loop of [ems_show]: [n] columns of row [i] from column [j] on;
    the state is [response_seats] and [count].  [count] is an [int] in the
    source; the model is exact while it stays within [INT_MAX]. *)
Fixpoint show_cols (event : Event) (i : Z) (n : nat) (j : Z) (acc : list Z * Z)
  : list Z * Z :=
  match n with
  | O => acc
  | S n' =>
      let '(response_seats, count) := acc in
      show_cols event i n' (j + 1)
        (grid_write response_seats count
           (grid_read (data event) (seat_index event i j)),
         count + 1)
  end.

(** Outer loop of [ems_show]: [n] rows from row [i] on. *)
Fixpoint show_rows (event : Event) (n : nat) (i : Z) (acc : list Z * Z)
  : list Z * Z :=
  match n with
  | O => acc
  | S n' =>
      show_rows event n' (i + 1) (show_cols event i (Z.to_nat (cols event)) 1 acc)
  end.

(** [ems_show]: what is written on [fd_response] by the time the call
    returns; [None] when it does not return.  That is the case when the
    call dereferences a released list, and when the variable-length array
    [response_seats], of [num_seats] cells of 4 bytes each, is larger than
    [stack_room], the bytes by which the stack of the calling thread can
    still grow: the status and the two dimensions are written by then,
    and nothing tests the allocation.  An array of no cell is taken the
    way gcc takes it. *)
Definition ems_show (stack_room : Z) (st : ListPtr) (event_id : Z)
  : option (list Field) :=
  match st with
  | Null => Some [FInt 1]
  | Dangling => None
  | Live l =>
      match get_event (nodes l) event_id with
      | None => Some [FInt 1]
      | Some event =>
          let num_seats := wrap_size (rows event * cols event) in
          if 4 * num_seats <=? stack_room then
            let response_seats := replicate (Z.to_nat num_seats) 0 in
            Some [FInt 0; FSize (rows event); FSize (cols event);
                  FArray (fst (show_rows event (Z.to_nat (rows event)) 1
                                 (response_seats, 0)))]
          else None
      end
  end.

(** The loop of [ems_list_events], on the nodes from [current] to [to]:
    [events_ids[count] = current->event->id], [count] advancing with
    [current]. *)
Fixpoint list_ids (current : list Event) (events_ids : list Z) (count : Z) : list Z :=
  match current with
  | [] => events_ids
  | e :: next => list_ids next (grid_write events_ids count (id e)) (count + 1)
  end.

(** [ems_list_events]: what is written on [fd_response] by the time the
    call returns; [None] when it does not return: the call dereferences a
    released list, or the variable-length array [events_ids], of
    [num_events] cells of 4 bytes each, is larger than [stack_room], the
    status and the count being written by then.  With no node
    ([head == NULL]) the only thing written is the status [1]. *)
Definition ems_list_events (stack_room : Z) (st : ListPtr) : option (list Field) :=
  match st with
  | Null => Some [FInt 1]
  | Dangling => None
  | Live l =>
      match nodes l with
      | [] => Some [FInt 1]
      | _ :: _ =>
          if 4 * num_events l <=? stack_room then
            Some [FInt 0; FSize (num_events l);
                  FArray (list_ids (nodes l) (replicate (Z.to_nat (num_events l)) 0) 0)]
          else None
      end
  end.

(** Dimensions for which [ems_create] builds a grid that [ems_show] can
    walk: at least one seat, and a number of seats the [int] counter of
    [ems_show] can reach. *)
Definition valid_dims (num_rows num_cols : Z) : Prop :=
  0 <= num_rows /\ 0 <= num_cols /\
  1 <= num_rows * num_cols /\ num_rows * num_cols <= INT_MAX.

(** One command against the engine; only the status is kept ([ems_show]
    and [ems_list_events] return nothing and leave the state alone). *)
Definition step (st : ListPtr) (op : Op) : Status * ListPtr :=
  match op with
  | OpCreate event_id num_rows num_cols => ems_create NoFault st event_id num_rows num_cols
  | OpReserve event_id seats => ems_reserve st event_id seats
  | OpShow _ => (Ok, st)
  | OpList => (Ok, st)
  end.

Definition counter_of (st : ListPtr) (event_id : Z) : option Z :=
  match st with
  | Live l => reservations <$> get_event (nodes l) event_id
  | _ => None
  end.

(** The reservation ids handed out for event [eid] along a sequence of
    commands. *)
Definition issued_ids (eid : Z) (st : ListPtr) (ops : list Op) : list Z :=
  ids_handed_out step counter_of eid st ops.

(** A sequence of commands, statuses dropped. *)
Definition run (st : ListPtr) (ops : list Op) : ListPtr :=
  fold_left (fun st' op => snd (step st' op)) ops st.

(** The [struct timespec] that [get_event_with_delay] hands to
    [nanosleep]: [{0, state_access_delay_us * 1000}], the product taken in
    [unsigned int]. *)
Definition access_delay (state_access_delay_us : Z) : Z * Z :=
  (0, wrap_uint (state_access_delay_us * 1000)).

(** Inner loop of [show_EMS]: [n] cells of row [i] from column [j] on,
    each printed with ["%u "]; the cell is [data[i * cols + j]], rows and
    columns counted from 0. *)
Fixpoint dump_cols (event : Event) (i : Z) (n : nat) (j : Z) (out : list Printed)
  : list Printed :=
  match n with
  | O => out
  | S n' =>
      dump_cols event i n' (j + 1)
        (out ++ [PCell (grid_read (data event) (wrap_size (i * cols event + j)))])
  end.

(** Outer loop of [show_EMS] for one event: [n] rows from row [i] on. *)
Fixpoint dump_rows (event : Event) (n : nat) (i : Z) (out : list Printed)
  : list Printed :=
  match n with
  | O => out
  | S n' =>
      dump_rows event n' (i + 1)
        (dump_cols event i (Z.to_nat (cols event)) 0 out ++ [PEndRow])
  end.

(** The walk of [show_EMS] over the nodes from [current] to [to]. *)
Fixpoint dump_events (current : list Event) (out : list Printed) : list Printed :=
  match current with
  | [] => out
  | event :: next =>
      dump_events next
        (dump_rows event (Z.to_nat (rows event)) 0 (out ++ [PEvent (id event)]))
  end.

(** [show_EMS]: what is printed on [stdout]; [None] when the call
    dereferences a released list.  Without a list the complaint goes to
    [stderr] and nothing is printed. *)
Definition show_EMS (st : ListPtr) : option (list Printed) :=
  match st with
  | Null => Some []
  | Dangling => None
  | Live l =>
      match nodes l with
      | [] => Some [PNoEvents]
      | _ :: _ => Some (dump_events (nodes l) [])
      end
  end.

End Proj2.

(** ** Commands in a row, for statements

    The commands of an input up to its first [EOC]. *)
Fixpoint before_EOC (input : list Command) : list Command :=
  match input with
  | [] => []
  | EOC :: _ => []
  | cmd :: rest => cmd :: before_EOC rest
  end.

(** The commands executed one after the other against the engine of
    [Proj1], a [BARRIER] counting for nothing and a [WAIT] for a thread
    doing nothing: whether all of them could be executed (none left
    defined behaviour), the state reached and what has been written. *)
Fixpoint serial (st : Proj1.State) (out : list Chunk) (cmds : list Command)
  : bool * Proj1.State * list Chunk :=
  match cmds with
  | [] => (true, st, out)
  | cmd :: rest =>
      match cmd with
      | CMD_CREATE event_id num_rows num_columns =>
          let '(s, st') := Proj1.ems_create NoFault st event_id num_rows num_columns in
          match s with
          | Undefined => (false, st', out)
          | _ => serial st' out rest
          end
      | CMD_RESERVE event_id seats =>
          serial (snd (Proj1.ems_reserve st event_id seats)) out rest
      | CMD_SHOW event_id =>
          let '(s, text) := Proj1.ems_show st event_id in
          match s with
          | Undefined => (false, st, out ++ map Tok text)
          | _ => serial st (out ++ map Tok text) rest
          end
      | CMD_LIST_EVENTS =>
          let '(s, text) := Proj1.ems_list_events st in
          match s with
          | Undefined => (false, st, out ++ map Tok text)
          | _ => serial st (out ++ map Tok text) rest
          end
      | CMD_WAIT delay id_thread =>
          serial st (if (0 <? delay) && (id_thread =? 0) then out ++ [Waiting] else out)
            rest
      | _ => serial st out rest
      end
  end.

(** ** Outcomes of a reservation, for statements

    One [Proj1.ems_reserve] on event [event_id] of the list [l]: the status,
    the list after the call, and the event as that list holds it. *)
Definition fine_reserves (l : list Event) (event_id : Z) (seats : list Seat)
  (s : Status) (l' : list Event) (event' : Event) : Prop :=
  Proj1.ems_reserve (Some l) event_id seats = (s, Some l') /\
  get_event l' event_id = Some event'.

(** The same for [Proj2.ems_reserve], on a live list of [n] counted
    events. *)
Definition coarse_reserves (l : list Event) (n : Z) (event_id : Z)
  (seats : list Seat) (s : Status) (l' : list Event) (event' : Event) : Prop :=
  Proj2.ems_reserve (Proj2.Live (Proj2.mkList l n)) event_id seats
    = (s, Proj2.Live (Proj2.mkList l' n)) /\
  get_event l' event_id = Some event'.

(** What [ems_create] fixes of an event for good: its id and its
    dimensions. *)
Definition shape (event : Event) : Z * Z * Z :=
  (id event, rows event, cols event).

(** Closes [wf_event] on a concrete event. *)
Ltac solve_wf :=
  unfold wf_event, SIZE_MAX, UINT_MAX; simpl; lia.

(** Passes from a command of the worker to the commands after it: [IH]
    is what is known of these, [H] the rest of the round. *)
Ltac next_command IH H :=
  let Hs := fresh "Hs" in
  let Hlen := fresh "Hlen" in
  apply IH in H;
  destruct H as [[-> Hs]|[(-> & Hlen & Hs)|[-> Hs]]];
  [left; split; [reflexivity|exact Hs]
  |right; left; split; [reflexivity|]; split; [simpl; lia|exact Hs]
  |right; right; split; [reflexivity|exact Hs]].

(** * Properties *)

(** ** Seat arrays *)

Lemma grid_write_length d i v : length (grid_write d i v) = length d.
Proof. unfold grid_write. apply length_insert. Qed.

Lemma grid_read_write_eq d i v :
  0 <= i < Z.of_nat (length d) -> grid_read (grid_write d i v) i = v.
Proof.
  intros Hi. unfold grid_read, grid_write.
  rewrite list_lookup_insert_eq by lia. reflexivity.
Qed.

Lemma grid_read_write_ne d i j v :
  0 <= i -> 0 <= j -> i <> j -> grid_read (grid_write d i v) j = grid_read d j.
Proof.
  intros Hi Hj Hne. unfold grid_read, grid_write.
  rewrite list_lookup_insert_ne by lia. reflexivity.
Qed.

(** Writing the value a cell already holds changes nothing; past the end of
    the array the cell reads 0 and the write is dropped. *)
Lemma grid_write_same d i : grid_read d i = 0 -> grid_write d i 0 = d.
Proof.
  unfold grid_read, grid_write. intros H.
  destruct (d !! Z.to_nat i) as [x|] eqn:E.
  - simpl in H. subst x. by apply list_insert_id.
  - apply list_insert_ge. by apply lookup_ge_None.
Qed.

Lemma grid_write_twice d i v w :
  grid_write (grid_write d i v) i w = grid_write d i w.
Proof. unfold grid_write. apply list_insert_insert_eq. Qed.

Lemma grid_write_swap d i j v :
  grid_write (grid_write d i v) j v = grid_write (grid_write d j v) i v.
Proof.
  unfold grid_write.
  destruct (decide (Z.to_nat i = Z.to_nat j)) as [->|Hne]; [reflexivity|].
  by apply list_insert_insert_ne.
Qed.

(** A value once written everywhere by a fold of writes stays. *)
Lemma fold_write_keeps (f : Seat -> Z) v seats d k :
  0 <= k -> (forall s, 0 <= f s) ->
  grid_read d k = v ->
  grid_read (fold_left (fun d' s => grid_write d' (f s) v) seats d) k = v.
Proof.
  intros Hk Hf. revert d. induction seats as [|s rest IH]; intros d Hd; simpl.
  - exact Hd.
  - apply IH. destruct (Z.eq_dec (f s) k) as [->|Hne].
    + unfold grid_read, grid_write in *.
      destruct (d !! Z.to_nat k) as [x|] eqn:E.
      * rewrite list_lookup_insert_eq; [reflexivity|].
        apply lookup_lt_is_Some. eauto.
      * rewrite list_insert_ge; [by rewrite E|]. by apply lookup_ge_None.
    + rewrite grid_read_write_ne; auto.
Qed.

Lemma fold_write_length (f : Seat -> Z) v seats d :
  length (fold_left (fun d' s => grid_write d' (f s) v) seats d) = length d.
Proof.
  revert d. induction seats as [|s rest IH]; intros d; simpl; [reflexivity|].
  rewrite IH. apply grid_write_length.
Qed.

(** After a fold of writes of [v], every written cell inside the array
    holds [v]. *)
Lemma fold_write_marks (f : Seat -> Z) v seats d s :
  (forall s', 0 <= f s') ->
  In s seats -> f s < Z.of_nat (length d) ->
  grid_read (fold_left (fun d' s => grid_write d' (f s) v) seats d) (f s) = v.
Proof.
  intros Hf. revert d. induction seats as [|s0 rest IH]; intros d Hin Hlen; simpl.
  - destruct Hin.
  - destruct Hin as [->|Hin].
    + apply fold_write_keeps; auto. apply grid_read_write_eq. split; auto.
    + apply IH; auto. by rewrite grid_write_length.
Qed.

(** Cells outside the written set are unchanged. *)
Lemma fold_write_other (f : Seat -> Z) v seats d k :
  0 <= k -> (forall s, 0 <= f s) ->
  (forall s, In s seats -> f s <> k) ->
  grid_read (fold_left (fun d' s => grid_write d' (f s) v) seats d) k = grid_read d k.
Proof.
  intros Hk Hf. revert d. induction seats as [|s rest IH]; intros d Hno; simpl.
  - reflexivity.
  - rewrite IH by (intros; apply Hno; by right).
    apply grid_read_write_ne; auto. apply Hno. by left.
Qed.

(** ** Seat indices *)

Lemma wrap_size_small z : 0 <= z <= SIZE_MAX -> wrap_size z = z.
Proof. unfold wrap_size, SIZE_MAX. intros. apply Z.mod_small. lia. Qed.

Lemma wrap_uint_small z : 0 <= z <= UINT_MAX -> wrap_uint z = z.
Proof. unfold wrap_uint, UINT_MAX. intros. apply Z.mod_small. lia. Qed.

Lemma seat_index_nonneg event row col : 0 <= seat_index event row col.
Proof. unfold seat_index, wrap_size. apply Z.mod_pos_bound. lia. Qed.

Lemma in_bounds_iff event s :
  out_of_bounds event s = false <->
  1 <= fst s <= rows event /\ 1 <= snd s <= cols event.
Proof.
  unfold out_of_bounds. rewrite !orb_false_iff.
  rewrite !Z.leb_gt, !Z.gtb_ltb, !Z.ltb_ge. lia.
Qed.

(** For a seat within bounds the index does not wrap and lies in the grid. *)
Lemma seat_index_in_grid event s :
  0 <= rows event * cols event <= SIZE_MAX ->
  out_of_bounds event s = false ->
  seat_index event (fst s) (snd s) = (fst s - 1) * cols event + (snd s - 1) /\
  0 <= seat_index event (fst s) (snd s) < rows event * cols event.
Proof.
  intros Hsz Hb. apply in_bounds_iff in Hb. destruct Hb as [Hr Hc].
  assert (0 <= (fst s - 1) * cols event + (snd s - 1) < rows event * cols event) by nia.
  unfold seat_index.
  replace ((fst s - 1) * cols event + snd s - 1)
    with ((fst s - 1) * cols event + (snd s - 1)) by lia.
  rewrite wrap_size_small by lia. lia.
Qed.

(** Distinct seats within bounds have distinct indices. *)
Lemma seat_index_inj event s1 s2 :
  0 <= rows event * cols event <= SIZE_MAX ->
  out_of_bounds event s1 = false -> out_of_bounds event s2 = false ->
  seat_index event (fst s1) (snd s1) = seat_index event (fst s2) (snd s2) ->
  s1 = s2.
Proof.
  intros Hsz H1 H2 Heq.
  destruct (seat_index_in_grid event s1 Hsz H1) as [E1 _].
  destruct (seat_index_in_grid event s2 Hsz H2) as [E2 _].
  apply in_bounds_iff in H1, H2.
  rewrite E1, E2 in Heq. destruct s1 as [r1 c1], s2 as [r2 c2]; simpl in *.
  assert (r1 = r2) by nia. subst r2. assert (c1 = c2) by lia. congruence.
Qed.

(** ** Proj1: the claiming loop and its rollback *)

Lemma seat_index_set_reservations event r row col :
  seat_index (set_reservations event r) row col = seat_index event row col.
Proof. reflexivity. Qed.

Lemma out_of_bounds_set_reservations event r s :
  out_of_bounds (set_reservations event r) s = out_of_bounds event s.
Proof. reflexivity. Qed.

Lemma release_write_comm event claimed d k :
  Proj1.release_seats event claimed (grid_write d k 0) =
  grid_write (Proj1.release_seats event claimed d) k 0.
Proof.
  unfold Proj1.release_seats. revert d.
  induction claimed as [|s rest IH]; intros d; simpl; [reflexivity|].
  rewrite <- IH. f_equal. apply grid_write_swap.
Qed.

Lemma claim_seats_range event rid seats i d i' diag d' :
  Proj1.claim_seats event rid seats i d = (i', diag, d') ->
  (i <= i' <= i + length seats)%nat.
Proof.
  revert i d. induction seats as [|s rest IH]; intros i d H; simpl in *.
  - inversion H; subst. lia.
  - destruct (out_of_bounds event s); [inversion H; subst; lia|].
    destruct (negb _); [inversion H; subst; lia|].
    apply IH in H. lia.
Qed.

(** The diagnostic is [Ok] exactly when the loop visited every seat. *)
Lemma claim_seats_diag event rid seats i d i' diag d' :
  Proj1.claim_seats event rid seats i d = (i', diag, d') ->
  (i' = (i + length seats)%nat /\ diag = Ok) \/
  ((i' < i + length seats)%nat /\ (diag = InvalidSeat \/ diag = SeatAlreadyReserved)).
Proof.
  revert i d. induction seats as [|s rest IH]; intros i d H; simpl in *.
  - inversion H; subst. left. split; [lia|reflexivity].
  - destruct (out_of_bounds event s); [inversion H; subst; right; split; [lia|auto]|].
    destruct (negb _); [inversion H; subst; right; split; [lia|auto]|].
    apply IH in H. destruct H as [[-> ->]|[Hlt Hd]]; [left|right]; split; auto; lia.
Qed.

(** The seats the loop went past were within bounds, and the array it
    leaves is the initial one with these seats marked. *)
Lemma claim_seats_marks event rid seats i d i' diag d' :
  Proj1.claim_seats event rid seats i d = (i', diag, d') ->
  Forall (fun s => out_of_bounds event s = false) (firstn (i' - i) seats) /\
  d' = Proj2.mark_seats event rid (firstn (i' - i) seats) d.
Proof.
  revert i d. induction seats as [|s rest IH]; intros i d H; simpl in *.
  - inversion H; subst. rewrite firstn_nil. split; [constructor|reflexivity].
  - destruct (out_of_bounds event s) eqn:Hb.
    { inversion H; subst. rewrite Nat.sub_diag. split; [constructor|reflexivity]. }
    destruct (negb _).
    { inversion H; subst. rewrite Nat.sub_diag. split; [constructor|reflexivity]. }
    pose proof (claim_seats_range _ _ _ _ _ _ _ _ H) as Hr.
    apply IH in H. destruct H as [Hf Hd].
    replace (i' - i)%nat with (S (i' - S i)) by lia. simpl.
    split; [constructor; assumption|exact Hd].
Qed.

(** Rolling back the seats the loop went past restores the array the loop
    started from. *)
Lemma claim_seats_rollback event rid seats i d i' diag d' :
  Proj1.claim_seats event rid seats i d = (i', diag, d') ->
  Proj1.release_seats event (firstn (i' - i) seats) d' = d.
Proof.
  revert i d. induction seats as [|s rest IH]; intros i d H; simpl in *.
  - inversion H; subst. by rewrite firstn_nil.
  - destruct (out_of_bounds event s) eqn:Hb.
    { inversion H; subst. by rewrite Nat.sub_diag. }
    destruct (negb _) eqn:Hfree.
    { inversion H; subst. by rewrite Nat.sub_diag. }
    pose proof (claim_seats_range _ _ _ _ _ _ _ _ H) as Hr.
    apply IH in H.
    replace (i' - i)%nat with (S (i' - S i)) by lia.
    change (Proj1.release_seats event (firstn (S (i' - S i)) (s :: rest)) d')
      with (Proj1.release_seats event (firstn (i' - S i) rest)
              (grid_write d' (seat_index event (fst s) (snd s)) 0)).
    rewrite release_write_comm, H, grid_write_twice.
    apply grid_write_same.
    apply negb_false_iff in Hfree. by apply Z.eqb_eq.
Qed.

(** Every seat the loop went past was free in the array it started from. *)
Lemma claim_seats_were_free event rid seats i d i' diag d' s :
  Proj1.claim_seats event rid seats i d = (i', diag, d') ->
  In s (firstn (i' - i) seats) ->
  grid_read d (seat_index event (fst s) (snd s)) = 0.
Proof.
  intros H Hin. apply claim_seats_rollback in H. rewrite <- H.
  unfold Proj1.release_seats.
  set (f := fun s : Seat => seat_index event (fst s) (snd s)).
  destruct (Z_lt_dec (f s) (Z.of_nat (length d'))) as [Hlt|Hge].
  - apply (fold_write_marks f 0); auto. intros; apply seat_index_nonneg.
  - unfold grid_read. rewrite lookup_ge_None_2; [reflexivity|].
    change (fold_left _ _ d') with
      (fold_left (fun d0 s0 => grid_write d0 (f s0) 0) (firstn (i' - i) seats) d').
    rewrite (fold_write_length f 0).
    pose proof (seat_index_nonneg event (fst s) (snd s)). unfold f in Hge. lia.
Qed.

(** When every seat is within bounds, free, and listed once, the loop
    visits them all. *)
Lemma claim_seats_complete event rid seats i d :
  0 <= rows event * cols event <= SIZE_MAX ->
  Forall (fun s => out_of_bounds event s = false) seats ->
  Forall (fun s => grid_read d (seat_index event (fst s) (snd s)) = 0) seats ->
  NoDup seats ->
  exists d', Proj1.claim_seats event rid seats i d = ((i + length seats)%nat, Ok, d').
Proof.
  intros Hsz. revert i d.
  induction seats as [|s rest IH]; intros i d Hb Hfree Hnd; simpl.
  - exists d. f_equal. f_equal. lia.
  - inversion Hb as [|? ? Hbs Hbr]; subst.
    inversion Hfree as [|? ? Hfs Hfr]; subst.
    inversion Hnd as [|? ? Hnotin Hndr]; subst.
    rewrite Hbs, Hfs. simpl.
    destruct (IH (S i) (grid_write d (seat_index event (fst s) (snd s)) rid))
      as [d' Hd']; auto.
    + rewrite Forall_forall in *. intros s' Hs'.
      rewrite grid_read_write_ne.
      * apply Hfr. exact Hs'.
      * apply seat_index_nonneg.
      * apply seat_index_nonneg.
      * intros Heq. apply seat_index_inj in Heq; auto.
        subst s'. apply Hnotin. exact Hs'.
    + exists d'. rewrite Hd'. f_equal. f_equal. lia.
Qed.

(** Decrementing the counter after the increment gives the counter back,
    also across the wrap-around. *)
Lemma counter_restore r :
  0 <= r <= UINT_MAX -> wrap_uint (wrap_uint (r + 1) - 1) = r.
Proof.
  unfold wrap_uint, UINT_MAX. intros Hr.
  destruct (Z.eq_dec r (2 ^ 32 - 1)) as [->|Hne].
  - reflexivity.
  - rewrite (Z.mod_small (r + 1)) by lia.
    replace (r + 1 - 1) with r by lia. apply Z.mod_small. lia.
Qed.

(** The two ways out of [Proj1.reserve_event]. *)
Lemma fine_reserve_cases event seats s event' :
  0 <= reservations event <= UINT_MAX ->
  Proj1.reserve_event event seats = (s, event') ->
  (s = Ok /\
   event' = mkEvent (id event) (rows event) (cols event)
              (wrap_uint (reservations event + 1))
              (Proj2.mark_seats event (wrap_uint (reservations event + 1)) seats
                 (data event)) /\
   all_in_bounds event seats /\ all_free event seats)
  \/
  ((s = InvalidSeat \/ s = SeatAlreadyReserved) /\ event' = event).
Proof.
  intros Hr. unfold Proj1.reserve_event.
  destruct (Proj1.claim_seats _ _ seats 0 _) as [[i diag] d] eqn:Hloop.
  pose proof (claim_seats_range _ _ _ _ _ _ _ _ Hloop) as Hrange.
  pose proof (claim_seats_diag _ _ _ _ _ _ _ _ Hloop) as Hdiag.
  pose proof (claim_seats_marks _ _ _ _ _ _ _ _ Hloop) as [Hinb Hmarks].
  pose proof (claim_seats_rollback _ _ _ _ _ _ _ _ Hloop) as Hback.
  rewrite Nat.sub_0_r in Hinb, Hmarks, Hback.
  destruct (i <? length seats)%nat eqn:Hi.
  - apply Nat.ltb_lt in Hi. intros H. inversion H; subst s event'. right.
    destruct Hdiag as [[Hi' _]|[_ Hd]]; [simpl in Hi'; lia|].
    split; [exact Hd|].
    change (Proj1.release_seats _ (firstn i seats) d)
      with (Proj1.release_seats (set_reservations event (wrap_uint (reservations event + 1)))
              (firstn i seats) d).
    rewrite Hback. unfold set_data, set_reservations; simpl.
    rewrite counter_restore by exact Hr. by destruct event.
  - apply Nat.ltb_ge in Hi. intros H. inversion H; subst s event'. left.
    assert (i = length seats) as -> by (simpl in Hrange; lia).
    rewrite firstn_all in Hinb, Hmarks.
    split; [reflexivity|]. split; [|split].
    + unfold set_data, set_reservations; simpl. f_equal. exact Hmarks.
    + exact Hinb.
    + unfold all_free. apply Forall_forall. intros x Hx.
      apply list_elem_of_In in Hx.
      eapply (claim_seats_were_free _ _ _ _ _ _ _ _ x) in Hloop.
      * exact Hloop.
      * rewrite Nat.sub_0_r, firstn_all. exact Hx.
Qed.

(** ** Proj2: the conflict scan *)

Lemma scan_seats_true event i seats :
  Proj2.scan_seats event i seats = true ->
  grid_read (data event) i <> 0 /\
  exists s, In s seats /\ seat_index event (fst s) (snd s) = i.
Proof.
  induction seats as [|s rest IH]; simpl; intros H; [discriminate|].
  destruct (seat_index event (fst s) (snd s) =? i) eqn:E; simpl in H.
  - apply Z.eqb_eq in E. apply negb_true_iff, Z.eqb_neq in H.
    split; [exact H|]. exists s. split; [by left|exact E].
  - destruct (IH H) as [Hocc [s' [Hin Hs']]].
    split; [exact Hocc|]. exists s'. split; [by right|exact Hs'].
Qed.

Lemma scan_seats_false event i seats s :
  Proj2.scan_seats event i seats = false ->
  In s seats -> seat_index event (fst s) (snd s) = i ->
  grid_read (data event) i = 0.
Proof.
  induction seats as [|s0 rest IH]; simpl; intros H Hin Hs; [destruct Hin|].
  destruct (seat_index event (fst s0) (snd s0) =? i) eqn:E; simpl in H.
  - apply negb_false_iff, Z.eqb_eq in H. exact H.
  - destruct Hin as [->|Hin].
    + apply Z.eqb_neq in E. contradiction.
    + by apply IH.
Qed.

Lemma scan_grid_true event seats n i :
  Proj2.scan_grid event seats n i = true ->
  exists s, In s seats /\ grid_read (data event) (seat_index event (fst s) (snd s)) <> 0.
Proof.
  revert i. induction n as [|n IH]; simpl; intros i H; [discriminate|].
  destruct (Proj2.scan_seats event i seats) eqn:E.
  - apply scan_seats_true in E. destruct E as [Hocc [s [Hin Hs]]].
    exists s. split; [exact Hin|]. by rewrite Hs.
  - eapply IH. exact H.
Qed.

Lemma scan_grid_false event seats n i s :
  Proj2.scan_grid event seats n i = false ->
  In s seats ->
  i <= seat_index event (fst s) (snd s) < i + Z.of_nat n ->
  grid_read (data event) (seat_index event (fst s) (snd s)) = 0.
Proof.
  revert i. induction n as [|n IH]; simpl; intros i H Hin Hrange; [lia|].
  destruct (Proj2.scan_seats event i seats) eqn:E; [discriminate|].
  destruct (Z.eq_dec (seat_index event (fst s) (snd s)) i) as [Heq|Hne].
  - rewrite Heq. eapply scan_seats_false; eauto.
  - apply (IH (i + 1)); auto. lia.
Qed.

(** A scan that finds nothing, on seats within bounds, means that every
    requested seat is free. *)
Lemma scan_grid_clear event seats :
  0 <= rows event * cols event <= SIZE_MAX ->
  all_in_bounds event seats ->
  Proj2.scan_grid event seats (Z.to_nat (wrap_size (rows event * cols event))) 0 = false ->
  all_free event seats.
Proof.
  intros Hsz Hinb Hscan. unfold all_free. apply Forall_forall. intros s Hs.
  unfold all_in_bounds in Hinb. rewrite Forall_forall in Hinb.
  pose proof (seat_index_in_grid event s Hsz (Hinb s Hs)) as [_ Hrange].
  apply list_elem_of_In in Hs.
  eapply scan_grid_false; eauto.
  rewrite wrap_size_small by lia. lia.
Qed.

(** The ways out of [Proj2.reserve_event]. *)
Lemma coarse_reserve_cases event seats s event' :
  Proj2.reserve_event event seats = (s, event') ->
  (s = Ok /\
   event' = mkEvent (id event) (rows event) (cols event)
              (wrap_uint (reservations event + 1))
              (Proj2.mark_seats event (wrap_uint (reservations event + 1)) seats
                 (data event)) /\
   all_in_bounds event seats /\
   (0 <= rows event * cols event <= SIZE_MAX -> all_free event seats))
  \/
  (s = InvalidSeat /\ event' = event /\ ~ all_in_bounds event seats)
  \/
  (s = SeatAlreadyReserved /\ event' = event /\ all_in_bounds event seats /\
   ~ all_free event seats).
Proof.
  unfold Proj2.reserve_event.
  destruct (existsb (out_of_bounds event) seats) eqn:Hb.
  - intros H; inversion H; subst. right; left. repeat split.
    apply existsb_exists in Hb. destruct Hb as [x [Hx Hox]].
    unfold all_in_bounds. rewrite Forall_forall. intros Hall.
    apply list_elem_of_In in Hx. rewrite (Hall x Hx) in Hox. discriminate.
  - assert (all_in_bounds event seats) as Hinb.
    { unfold all_in_bounds. apply Forall_forall. intros x Hx.
      apply list_elem_of_In in Hx.
      destruct (out_of_bounds event x) eqn:E; [|reflexivity].
      assert (existsb (out_of_bounds event) seats = true)
        by (apply existsb_exists; eauto).
      congruence. }
    destruct (Proj2.scan_grid _ _ _ _) eqn:Hscan.
    + intros H; inversion H; subst. right; right. repeat split; auto.
      apply scan_grid_true in Hscan. destruct Hscan as [x [Hx Hocc]].
      unfold all_free. rewrite Forall_forall. intros Hall.
      apply list_elem_of_In in Hx. apply Hocc. by apply Hall.
    + intros H; inversion H; subst. left. repeat split; auto.
      intros Hsz. by apply scan_grid_clear.
Qed.

(** ** The registry *)

Lemma get_event_id l event_id event :
  get_event l event_id = Some event -> id event = event_id.
Proof.
  unfold get_event. intros H. apply find_some in H.
  destruct H as [_ H]. by apply Z.eqb_eq.
Qed.

Lemma get_event_none l event_id :
  get_event l event_id = None <-> ~ In event_id (map id l).
Proof.
  unfold get_event. induction l as [|e l IH]; simpl.
  - split; auto.
  - destruct (id e =? event_id) eqn:E.
    + apply Z.eqb_eq in E. split; [discriminate|]. intros H. exfalso. auto.
    + apply Z.eqb_neq in E. rewrite IH. split; intros H; [intros [?|?]|]; auto.
Qed.

Lemma get_event_append l event_id event :
  get_event l event_id = None -> id event = event_id ->
  get_event (append_to_list l event) event_id = Some event.
Proof.
  unfold get_event, append_to_list. intros Hnone Hid.
  induction l as [|e l IH]; simpl in *.
  - subst. by rewrite Z.eqb_refl.
  - destruct (id e =? event_id); [discriminate|]. by apply IH.
Qed.

Lemma get_event_append_other l event_id event :
  id event <> event_id ->
  get_event (append_to_list l event) event_id = get_event l event_id.
Proof.
  unfold get_event, append_to_list. intros Hid.
  induction l as [|e l IH]; simpl.
  - apply Z.eqb_neq in Hid. by rewrite Hid.
  - destruct (id e =? event_id); [reflexivity|]. exact IH.
Qed.

(** The event written through the pointer is the one a later lookup finds. *)
Lemma get_store_event l event_id event event' :
  get_event l event_id = Some event -> id event' = event_id ->
  get_event (store_event l event_id event') event_id = Some event'.
Proof.
  unfold get_event. intros H Hid. induction l as [|e l IH]; simpl in *.
  - discriminate.
  - destruct (id e =? event_id) eqn:E; simpl.
    + subst. by rewrite Z.eqb_refl.
    + rewrite E. by apply IH.
Qed.

Lemma get_store_other l event_id other event' :
  id event' = event_id -> other <> event_id ->
  get_event (store_event l event_id event') other = get_event l other.
Proof.
  unfold get_event. intros Hid Hne. induction l as [|e l IH]; simpl.
  - reflexivity.
  - destruct (id e =? event_id) eqn:E; simpl.
    + apply Z.eqb_eq in E.
      assert ((id event' =? other) = false) as -> by (apply Z.eqb_neq; lia).
      assert ((id e =? other) = false) as -> by (apply Z.eqb_neq; lia).
      reflexivity.
    + destruct (id e =? other); [reflexivity|exact IH].
Qed.

Lemma store_event_same l event_id event :
  get_event l event_id = Some event -> store_event l event_id event = l.
Proof.
  unfold get_event. induction l as [|e l IH]; simpl; intros H.
  - reflexivity.
  - destruct (id e =? event_id); [congruence|]. f_equal. by apply IH.
Qed.

Lemma fine_reserve_id event seats :
  id (snd (Proj1.reserve_event event seats)) = id event.
Proof.
  unfold Proj1.reserve_event.
  destruct (Proj1.claim_seats _ _ seats 0 _) as [[i diag] d].
  by destruct (i <? length seats)%nat.
Qed.

Lemma coarse_reserve_id event seats :
  id (snd (Proj2.reserve_event event seats)) = id event.
Proof.
  unfold Proj2.reserve_event.
  destruct (existsb _ _); [reflexivity|]. by destruct (Proj2.scan_grid _ _ _ _).
Qed.

(** ** All-or-nothing reservations *)

Lemma seat_index_cols event1 event2 row col :
  cols event1 = cols event2 ->
  seat_index event1 row col = seat_index event2 row col.
Proof. unfold seat_index. by intros ->. Qed.

Lemma mark_seats_marked event rid seats seat :
  wf_event event -> all_in_bounds event seats -> In seat seats ->
  grid_read (Proj2.mark_seats event rid seats (data event))
    (seat_index event (fst seat) (snd seat)) = rid.
Proof.
  intros (Hr & Hc & Hsz & Hlen & _) Hinb Hin.
  unfold Proj2.mark_seats.
  apply (fold_write_marks (fun s => seat_index event (fst s) (snd s)) rid); auto.
  - intros; apply seat_index_nonneg.
  - unfold all_in_bounds in Hinb. rewrite Forall_forall in Hinb.
    apply list_elem_of_In in Hin.
    pose proof (seat_index_in_grid event seat ltac:(nia) (Hinb seat Hin)). lia.
Qed.

Lemma fine_all_or_nothing event seats s event' :
  wf_event event ->
  Proj1.reserve_event event seats = (s, event') ->
  all_or_nothing event seats s event'.
Proof.
  intros Hwf H. pose proof Hwf as (_ & _ & _ & _ & Hcnt).
  apply fine_reserve_cases in H; [|exact Hcnt].
  destruct H as [(-> & -> & Hinb & _)|([->| ->] & ->)].
  - left. split; [reflexivity|]. split; [reflexivity|].
    intros seat Hin. rewrite (seat_index_cols _ event) by reflexivity.
    simpl. by apply mark_seats_marked.
  - right. split; [discriminate|reflexivity].
  - right. split; [discriminate|reflexivity].
Qed.

Lemma coarse_all_or_nothing event seats s event' :
  wf_event event ->
  Proj2.reserve_event event seats = (s, event') ->
  all_or_nothing event seats s event'.
Proof.
  intros Hwf H. apply coarse_reserve_cases in H.
  destruct H as [(-> & -> & Hinb & _)|[(-> & -> & _)|(-> & -> & _)]].
  - left. split; [reflexivity|]. split; [reflexivity|].
    intros seat Hin. rewrite (seat_index_cols _ event) by reflexivity.
    simpl. by apply mark_seats_marked.
  - right. split; [discriminate|reflexivity].
  - right. split; [discriminate|reflexivity].
Qed.

(** [wf_event] is what [ems_create] establishes when the number of seats
    fits a [size_t], and what both [ems_reserve] maintain. *)
Lemma create_wf event_id num_rows num_cols :
  0 <= num_rows -> 0 <= num_cols -> num_rows * num_cols <= SIZE_MAX ->
  wf_event (mkEvent event_id num_rows num_cols 0
              (replicate (Z.to_nat (wrap_size (num_rows * num_cols))) 0)).
Proof.
  intros Hr Hc Hsz. unfold wf_event; simpl.
  rewrite wrap_size_small by nia. rewrite length_replicate.
  unfold UINT_MAX. repeat split; try lia; nia.
Qed.

Lemma wrap_uint_range z : 0 <= wrap_uint z <= UINT_MAX.
Proof.
  unfold wrap_uint, UINT_MAX.
  pose proof (Z.mod_pos_bound z (2 ^ 32) ltac:(lia)). lia.
Qed.

Lemma mark_seats_length event rid seats d :
  length (Proj2.mark_seats event rid seats d) = length d.
Proof.
  unfold Proj2.mark_seats.
  apply (fold_write_length (fun s => seat_index event (fst s) (snd s)) rid).
Qed.

Lemma reserve_keeps_wf event seats :
  wf_event event ->
  wf_event (snd (Proj1.reserve_event event seats)) /\
  wf_event (snd (Proj2.reserve_event event seats)).
Proof.
  intros Hwf. pose proof Hwf as (Hr & Hc & Hsz & Hlen & Hcnt).
  assert (Hmarked : forall rid,
             wf_event (mkEvent (id event) (rows event) (cols event)
                         (wrap_uint (reservations event + 1))
                         (Proj2.mark_seats event rid seats (data event)))).
  { intros rid. unfold wf_event; simpl. rewrite mark_seats_length.
    pose proof (wrap_uint_range (reservations event + 1)). tauto. }
  split.
  - destruct (Proj1.reserve_event event seats) as [s event'] eqn:H.
    apply fine_reserve_cases in H; [|exact Hcnt].
    destruct H as [(_ & -> & _)|(_ & ->)]; simpl; auto.
  - destruct (Proj2.reserve_event event seats) as [s event'] eqn:H.
    apply coarse_reserve_cases in H.
    destruct H as [(_ & -> & _)|[(_ & -> & _)|(_ & -> & _)]]; simpl; auto.
Qed.

(** C1. For every [ems_reserve] on an existing event, in both
    implementations, the call either succeeds, and then every requested
    seat holds the one reservation id the call drew from the counter, or
    it fails (out of bounds or conflict alike), and then the grid of the
    event is the grid before the call. *)
Theorem reserve_all_or_nothing l n event_id seats event :
  get_event l event_id = Some event ->
  wf_event event ->
  (exists s l' event',
      Proj1.ems_reserve (Some l) event_id seats = (s, Some l') /\
      get_event l' event_id = Some event' /\
      all_or_nothing event seats s event')
  /\
  (exists s l' event',
      Proj2.ems_reserve (Proj2.Live (Proj2.mkList l n)) event_id seats
      = (s, Proj2.Live (Proj2.mkList l' n)) /\
      get_event l' event_id = Some event' /\
      all_or_nothing event seats s event').
Proof.
  intros Hget Hwf. split.
  - unfold Proj1.ems_reserve. rewrite Hget.
    destruct (Proj1.reserve_event event seats) as [s event'] eqn:Hres.
    exists s, (store_event l event_id event'), event'.
    split; [reflexivity|]. split.
    + eapply get_store_event; eauto.
      pose proof (fine_reserve_id event seats) as Hid. rewrite Hres in Hid.
      simpl in Hid. rewrite Hid. eapply get_event_id; eauto.
    + by apply fine_all_or_nothing.
  - unfold Proj2.ems_reserve. simpl. rewrite Hget.
    destruct (Proj2.reserve_event event seats) as [s event'] eqn:Hres.
    exists s, (store_event l event_id event'), event'.
    split; [reflexivity|]. split.
    + eapply get_store_event; eauto.
      pose proof (coarse_reserve_id event seats) as Hid. rewrite Hres in Hid.
      simpl in Hid. rewrite Hid. eapply get_event_id; eauto.
    + by apply coarse_all_or_nothing.
Qed.

Lemma reserve_all_or_nothing_witness :
  let event := mkEvent 7 2 3 0 [0; 0; 0; 0; 0; 0] in
  let l := [event] in
  let seats := [(1, 2); (2, 3)] in
  get_event l 7 = Some event /\ wf_event event /\
  (exists s l' event',
      Proj1.ems_reserve (Some l) 7 seats = (s, Some l') /\
      get_event l' 7 = Some event' /\
      all_or_nothing event seats s event')
  /\
  (exists s l' event',
      Proj2.ems_reserve (Proj2.Live (Proj2.mkList l 1)) 7 seats
      = (s, Proj2.Live (Proj2.mkList l' 1)) /\
      get_event l' 7 = Some event' /\
      all_or_nothing event seats s event').
Proof.
  intros event l seats.
  assert (Hwf : wf_event event) by solve_wf.
  split; [reflexivity|]. split; [exact Hwf|].
  exact (reserve_all_or_nothing l 1 7 seats event eq_refl Hwf).
Defined.

(** ** Failed reservations in Proj2 *)

(** C10. In [Proj2], an [ems_reserve] that fails, whatever the reason
    (engine not initialised, event not found, seat out of bounds, seat
    already reserved), leaves the whole state as it was: the counter of
    every event, and every grid.  The counter moves only on the path that
    has passed the bounds check and the conflict scan. *)
Theorem coarse_failure_frame st event_id seats s st' :
  Proj2.ems_reserve st event_id seats = (s, st') ->
  s <> Ok ->
  st' = st /\ forall eid, Proj2.counter_of st' eid = Proj2.counter_of st eid.
Proof.
  intros H Hfail.
  assert (st' = st) as ->; [|split; reflexivity].
  unfold Proj2.ems_reserve in H. destruct st as [|l|].
  - by inversion H.
  - destruct (get_event (Proj2.nodes l) event_id) as [event|] eqn:Hget.
    + destruct (Proj2.reserve_event event seats) as [s0 event'] eqn:Hres.
      inversion H; subst s0 st'.
      apply coarse_reserve_cases in Hres.
      destruct Hres as [(-> & _)|[(_ & -> & _)|(_ & -> & _)]]; [contradiction| |];
        rewrite (store_event_same _ _ _ Hget); by destruct l.
    + by inversion H.
  - by inversion H.
Qed.

Lemma coarse_failure_frame_witness :
  let st := Proj2.Live (Proj2.mkList [mkEvent 1 2 2 1 [1; 0; 0; 0]] 1) in
  Proj2.ems_reserve st 1 [(2, 2); (1, 1)] = (SeatAlreadyReserved, st) /\
  SeatAlreadyReserved <> Ok /\
  st = st /\ forall eid, Proj2.counter_of st eid = Proj2.counter_of st eid.
Proof.
  intros st.
  assert (Hrun : Proj2.ems_reserve st 1 [(2, 2); (1, 1)] = (SeatAlreadyReserved, st))
    by reflexivity.
  assert (Hfail : SeatAlreadyReserved <> Ok) by discriminate.
  split; [exact Hrun|]. split; [exact Hfail|].
  exact (coarse_failure_frame st 1 [(2, 2); (1, 1)] SeatAlreadyReserved st Hrun Hfail).
Defined.

(** ** Requests with a seat out of bounds *)

Lemma claim_seats_app event rid pre rest i d d1 :
  Proj1.claim_seats event rid pre i d = ((i + length pre)%nat, Ok, d1) ->
  Proj1.claim_seats event rid (pre ++ rest) i d =
  Proj1.claim_seats event rid rest (i + length pre)%nat d1.
Proof.
  revert i d. induction pre as [|s pre IH]; intros i d H; simpl in *.
  - inversion H; subst. f_equal. lia.
  - destruct (out_of_bounds event s).
    { inversion H; lia. }
    destruct (negb _).
    { inversion H; lia. }
    replace (i + S (length pre))%nat with (S i + length pre)%nat in * by lia.
    by apply IH.
Qed.

Lemma not_all_in_bounds event seats :
  Exists (fun s => out_of_bounds event s = true) seats ->
  ~ all_in_bounds event seats.
Proof.
  unfold all_in_bounds. rewrite Exists_exists, Forall_forall.
  intros [x [Hx Hox]] Hall. rewrite (Hall x Hx) in Hox. discriminate.
Qed.

(** The claiming loop of [Proj1] stops at the first offending seat of the
    request: the seats before it being within bounds, free and listed
    once, a seat out of bounds is reported as such, and a seat within
    bounds that is occupied, or that repeats an earlier seat of the
    request which the loop has just marked with an id other than 0, is
    reported as reserved, whatever comes after it. *)
Lemma fine_first_offender event pre seat post :
  wf_event event ->
  all_in_bounds event pre -> all_free event pre -> NoDup pre ->
  (out_of_bounds event seat = true ->
   Proj1.reserve_event event (pre ++ seat :: post) = (InvalidSeat, event)) /\
  (out_of_bounds event seat = false ->
   grid_read (data event) (seat_index event (fst seat) (snd seat)) <> 0 \/
   (In seat pre /\ reservations event < UINT_MAX) ->
   Proj1.reserve_event event (pre ++ seat :: post) = (SeatAlreadyReserved, event)).
Proof.
  intros (Hr & Hc & Hmax & Hlen & Hcnt) Hpre Hfree Hnd.
  assert (Hsz : 0 <= rows event * cols event <= SIZE_MAX) by nia.
  set (rid := wrap_uint (reservations event + 1)).
  set (event1 := set_reservations event rid).
  destruct (claim_seats_complete event1 rid pre 0 (data event) Hsz Hpre Hfree Hnd)
    as [d1 Hd1].
  pose proof (claim_seats_marks _ _ _ _ _ _ _ _ Hd1) as [_ Hmarks].
  rewrite Nat.add_0_l, Nat.sub_0_r, firstn_all in Hmarks.
  pose proof (claim_seats_app _ _ _ (seat :: post) _ _ _ Hd1) as Happ.
  assert ((0 + length pre <? length (pre ++ seat :: post))%nat = true) as Hlt
    by (apply Nat.ltb_lt; rewrite length_app; simpl; lia).
  assert (forall diag,
             Proj1.claim_seats event1 rid (seat :: post) (0 + length pre) d1
             = ((0 + length pre)%nat, diag, d1) ->
             diag <> Ok ->
             Proj1.reserve_event event (pre ++ seat :: post) = (diag, event))
    as Hstop.
  { intros diag Hloop Hdiag.
    destruct (Proj1.reserve_event event (pre ++ seat :: post)) as [s event'] eqn:Hres.
    pose proof Hres as Hcases. apply fine_reserve_cases in Hcases; [|exact Hcnt].
    unfold Proj1.reserve_event in Hres. fold rid in Hres. fold event1 in Hres.
    change (data event1) with (data event) in Hres.
    rewrite Happ, Hloop, Hlt in Hres. injection Hres as Hs He. subst s.
    destruct Hcases as [(Heq & _)|(_ & Heq)]; [contradiction|by rewrite Heq]. }
  split.
  - intros Hseat. apply Hstop; [|discriminate].
    simpl. change (out_of_bounds event1 seat) with (out_of_bounds event seat).
    by rewrite Hseat.
  - intros Hseat Hwhy. apply Hstop; [|discriminate].
    simpl. change (out_of_bounds event1 seat) with (out_of_bounds event seat).
    rewrite Hseat.
    change (seat_index event1 (fst seat) (snd seat))
      with (seat_index event (fst seat) (snd seat)).
    set (f := fun s : Seat => seat_index event (fst s) (snd s)).
    assert (grid_read d1 (f seat) <> 0) as Hcell.
    { rewrite Hmarks. unfold Proj2.mark_seats.
      change (fold_left _ pre (data event))
        with (fold_left (fun d' s => grid_write d' (f s) rid) pre (data event)).
      destruct Hwhy as [Hocc|[Hin Hbelow]].
      - rewrite fold_write_other; [exact Hocc| | |].
        + apply seat_index_nonneg.
        + intros; apply seat_index_nonneg.
        + intros s Hs Heq. apply Hocc. unfold f in Heq. rewrite <- Heq.
          unfold all_free in Hfree. rewrite Forall_forall in Hfree.
          apply Hfree. by apply list_elem_of_In.
      - rewrite fold_write_marks.
        + unfold rid. rewrite wrap_uint_small by lia. lia.
        + intros; apply seat_index_nonneg.
        + exact Hin.
        + destruct (seat_index_in_grid event seat Hsz Hseat) as [_ Hin_grid].
          unfold f. lia. }
    apply Z.eqb_neq in Hcell. unfold f in Hcell. by rewrite Hcell.
Qed.




(** At the wrap-around of the counter the id drawn is 0, the mark of a
    free seat: a seat listed twice is claimed twice without a conflict,
    and the loop of [Proj1] goes on to the pair out of bounds. *)
Example repeated_seat_at_wrap :
  let event := mkEvent 1 2 2 4294967295 [0; 0; 0; 0] in
  Proj1.ems_reserve (Some [event]) 1 [(1, 1); (1, 1); (3, 3)]
  = (InvalidSeat, Some [event]).
Proof. reflexivity. Qed.

(** ** The two strategies compared *)




(** ** Requests of zero seats *)

(** C8 on the code: a request of zero seats on an existing event is
    accepted by both [ems_reserve] and draws a reservation id; the command
    loop of [Proj1] prints its complaint and makes the call all the same. *)
Theorem empty_request_accepted l n event_id event :
  get_event l event_id = Some event ->
  let event' := set_reservations event (wrap_uint (reservations event + 1)) in
  Proj1.ems_reserve (Some l) event_id [] = (Ok, Some (store_event l event_id event'))
  /\
  Proj2.ems_reserve (Proj2.Live (Proj2.mkList l n)) event_id []
    = (Ok, Proj2.Live (Proj2.mkList (store_event l event_id event') n))
  /\
  Proj1.process_reserve (Some l) event_id []
    = (true, (Ok, Some (store_event l event_id event'))).
Proof.
  intros Hget event'.
  assert (Hfine : Proj1.ems_reserve (Some l) event_id []
                  = (Ok, Some (store_event l event_id event'))).
  { unfold Proj1.ems_reserve. rewrite Hget. reflexivity. }
  split; [exact Hfine|]. split.
  - unfold Proj2.ems_reserve. simpl. rewrite Hget.
    unfold Proj2.reserve_event. simpl.
    assert (Proj2.scan_grid event []
              (Z.to_nat (wrap_size (rows event * cols event))) 0 = false) as ->.
    { generalize 0. induction (Z.to_nat _) as [|k IH]; intros z; simpl; auto. }
    reflexivity.
  - unfold Proj1.process_reserve. by rewrite Hfine.
Qed.

Lemma empty_request_accepted_witness :
  let event := mkEvent 1 2 2 0 [0; 0; 0; 0] in
  let event' := mkEvent 1 2 2 1 [0; 0; 0; 0] in
  get_event [event] 1 = Some event /\
  Proj1.ems_reserve (Some [event]) 1 [] = (Ok, Some [event']) /\
  Proj2.ems_reserve (Proj2.Live (Proj2.mkList [event] 1)) 1 []
    = (Ok, Proj2.Live (Proj2.mkList [event'] 1)) /\
  Proj1.process_reserve (Some [event]) 1 [] = (true, (Ok, Some [event'])).
Proof.
  intros event event'. split; [reflexivity|].
  exact (empty_request_accepted [event] 1 1 event eq_refl).
Defined.

(** ** Initialisation and termination *)

Lemma fine_init_twice ok st st' :
  Proj1.ems_init true st = (Ok, st') ->
  Proj1.ems_init ok st' = (AlreadyInitialized, st').
Proof.
  destruct st as [l|]; simpl; intros H; inversion H; subst. reflexivity.
Qed.

Lemma coarse_init_twice ok st st' :
  Proj2.ems_init true st = (Ok, st') ->
  Proj2.ems_init ok st' = (AlreadyInitialized, st').
Proof.
  destruct st as [|l|]; simpl; intros H; inversion H; subst. reflexivity.
Qed.

Lemma terminate_never_initialised :
  Proj1.ems_terminate None = (NotInitialized, None) /\
  Proj2.ems_terminate Proj2.Null = (NotInitialized, Proj2.Null).
Proof. split; reflexivity. Qed.

(** In [Proj1] a terminated engine can be initialised again, and starts
    from an empty list. *)
Lemma fine_init_after_terminate st st' :
  Proj1.ems_terminate st = (Ok, st') ->
  Proj1.ems_init true st' = (Ok, Some []).
Proof.
  destruct st as [l|]; simpl; intros H; inversion H; subst. reflexivity.
Qed.

(** C6 on the code of [Proj2]: [ems_terminate] releases the list and keeps
    the pointer, so that the [ems_init] that follows a successful
    [ems_terminate] is refused as a second initialisation. *)
Theorem coarse_init_after_terminate :
  forall st st',
    Proj2.ems_terminate st = (Ok, st') ->
    Proj2.ems_init true st' = (AlreadyInitialized, st').
Proof.
  intros st st'. destruct st as [|l|]; simpl; intros H; inversion H; subst.
  reflexivity.
Qed.

Lemma coarse_init_after_terminate_witness :
  let st := snd (Proj2.ems_init true Proj2.Null) in
  Proj2.ems_terminate st = (Ok, Proj2.Dangling) /\
  Proj2.ems_init true Proj2.Dangling = (AlreadyInitialized, Proj2.Dangling).
Proof.
  intros st. split; [reflexivity|].
  exact (coarse_init_after_terminate st Proj2.Dangling eq_refl).
Defined.

(** ** Creation *)

(** The block asked of [malloc] holds the cells the initialisation loop
    of [Proj1] visits when its size in bytes fits a [size_t]. *)
Lemma create_size_fits num_rows num_cols :
  0 <= num_rows -> 0 <= num_cols ->
  sizeof_Data * num_rows * num_cols <= SIZE_MAX ->
  (wrap_size (sizeof_Data * num_rows * num_cols)
   <? wrap_size (num_rows * num_cols) * sizeof_Data) = false.
Proof.
  unfold sizeof_Data. intros Hr Hc Hfit.
  assert (0 <= num_rows * num_cols) by nia.
  unfold wrap_size, SIZE_MAX in *.
  rewrite !Z.mod_small by lia. lia.
Qed.

Lemma fine_create_ok l event_id num_rows num_cols :
  get_event l event_id = None ->
  0 <= num_rows -> 0 <= num_cols ->
  sizeof_Data * num_rows * num_cols <= SIZE_MAX ->
  Proj1.ems_create NoFault (Some l) event_id num_rows num_cols
  = (Ok, Some (l ++ [mkEvent event_id num_rows num_cols 0
                       (replicate (Z.to_nat (wrap_size (num_rows * num_cols))) 0)])).
Proof.
  intros Hget Hr Hc Hfit. unfold Proj1.ems_create. rewrite Hget.
  by rewrite create_size_fits.
Qed.

(** When [Proj1.ems_create] returns 0 the event is in the list, with a
    seat array of zeros. *)
Lemma fine_create_inv env st event_id num_rows num_cols st' :
  Proj1.ems_create env st event_id num_rows num_cols = (Ok, st') ->
  exists l,
    st = Some l /\ get_event l event_id = None /\
    st' = Some (l ++ [mkEvent event_id num_rows num_cols 0
                        (replicate (Z.to_nat (wrap_size (num_rows * num_cols))) 0)]).
Proof.
  unfold Proj1.ems_create. destruct st as [l|]; [|discriminate].
  destruct (get_event l event_id) eqn:Hget; [discriminate|].
  intros H. exists l. split; [reflexivity|]. split; [exact Hget|].
  destruct env;
    repeat match type of H with
           | context [if ?c then _ else _] => destruct c
           end; by inversion H.
Qed.

(** When [Proj1.ems_create] does not return 0 the state it leaves is the
    one it found. *)
Lemma fine_create_failure env st event_id num_rows num_cols s st' :
  Proj1.ems_create env st event_id num_rows num_cols = (s, st') ->
  s <> Ok -> st' = st.
Proof.
  unfold Proj1.ems_create. destruct st as [l|]; [|by inversion 1].
  destruct (get_event l event_id) eqn:Hget; [by inversion 1|].
  intros H Hs.
  destruct env;
    repeat match type of H with
           | context [if ?c then _ else _] => destruct c
           end; inversion H; subst; congruence.
Qed.

(** C5. [ems_create] on an initialised engine: when the id is present the
    call fails as a duplicate, whatever the allocator would have done, and
    the event list is as before; otherwise, allocations succeeding, the
    event list is the former one followed by one new event, whose cells are
    all zero and whose counter is 0 -- in [Proj1] as long as the size of
    the seat array in bytes fits a [size_t]: with 2^31 rows of 2^30
    columns the size wraps around to 0 and the initialisation loop runs
    past the end of the block. *)
Theorem create_event_appends l n event_id num_rows num_cols :
  let fresh :=
    mkEvent event_id num_rows num_cols 0
      (replicate (Z.to_nat (wrap_size (num_rows * num_cols))) 0) in
  match get_event l event_id with
  | Some _ =>
      (forall env, Proj1.ems_create env (Some l) event_id num_rows num_cols
                   = (DuplicateEvent, Some l)) /\
      (forall env, Proj2.ems_create env (Proj2.Live (Proj2.mkList l n))
                     event_id num_rows num_cols
                   = (DuplicateEvent, Proj2.Live (Proj2.mkList l n)))
  | None =>
      (0 <= num_rows -> 0 <= num_cols ->
       sizeof_Data * num_rows * num_cols <= SIZE_MAX ->
       Proj1.ems_create NoFault (Some l) event_id num_rows num_cols
       = (Ok, Some (l ++ [fresh]))) /\
      Proj1.ems_create NoFault (Some l) event_id (2 ^ 31) (2 ^ 30)
        = (Undefined, Some l) /\
      Proj2.ems_create NoFault (Proj2.Live (Proj2.mkList l n))
        event_id num_rows num_cols
        = (Ok, Proj2.Live (Proj2.mkList (l ++ [fresh]) (wrap_size (n + 1)))) /\
      length (l ++ [fresh]) = S (length l) /\
      map id (l ++ [fresh]) = map id l ++ [event_id] /\
      Forall (fun cell => cell = 0) (data fresh) /\
      reservations fresh = 0
  end.
Proof.
  intros fresh. destruct (get_event l event_id) as [e|] eqn:Hget.
  - split; intros env; unfold Proj1.ems_create, Proj2.ems_create; simpl;
      by rewrite Hget.
  - split; [|split; [|split; [|split; [|split; [|split]]]]].
    + intros Hr Hc Hfit. by apply fine_create_ok.
    + unfold Proj1.ems_create. rewrite Hget. reflexivity.
    + unfold Proj2.ems_create; simpl. by rewrite Hget.
    + rewrite length_app. simpl. lia.
    + by rewrite map_app.
    + simpl. apply Forall_forall. intros x Hx.
      by apply elem_of_replicate in Hx as [-> _].
    + reflexivity.
Qed.

Lemma create_event_appends_witness :
  Proj1.ems_create NoFault (Some []) 1 2 3
  = (Ok, Some [mkEvent 1 2 3 0 [0; 0; 0; 0; 0; 0]]).
Proof.
  pose proof (create_event_appends [] 0 1 2 3) as H. simpl in H.
  destruct H as (H & _). apply H; unfold sizeof_Data, SIZE_MAX; lia.
Defined.

(** ** Listing *)

(** Writing the next cell of an array that is filled up to [done]. *)
Lemma grid_write_next (done : list Z) x v rest :
  grid_write (done ++ x :: rest) (Z.of_nat (length done)) v = done ++ v :: rest.
Proof.
  unfold grid_write. rewrite Nat2Z.id.
  replace (length done) with (length done + 0)%nat at 1 by lia.
  by rewrite insert_app_r.
Qed.

(** The loop of [Proj2.ems_list_events] fills the array with the ids, in
    the order of the nodes. *)
Lemma list_ids_fills current (done : list Z) :
  Proj2.list_ids current (done ++ replicate (length current) 0)
    (Z.of_nat (length done))
  = done ++ map id current.
Proof.
  revert done. induction current as [|e next IH]; intros done; simpl.
  - reflexivity.
  - rewrite grid_write_next.
    replace (done ++ id e :: replicate (length next) 0)
      with ((done ++ [id e]) ++ replicate (length next) 0)
      by (by rewrite <- app_assoc).
    replace (Z.of_nat (length done) + 1) with (Z.of_nat (length (done ++ [id e])))
      by (rewrite length_app; simpl; lia).
    rewrite IH. by rewrite <- app_assoc.
Qed.

(** Creating events with ids that are new and pairwise distinct appends
    them in order ([Proj1]). *)
Lemma fine_creates_in_order specs l :
  NoDup (map id l ++ map (fun spec => fst (fst spec)) specs) ->
  Forall sized_op (create_ops specs) ->
  exists l',
    Proj1.run (Some l) (create_ops specs) = Some l' /\
    map id l' = map id l ++ map (fun spec => fst (fst spec)) specs.
Proof.
  revert l. induction specs as [|[[eid r] c] specs IH]; intros l Hnd Hplain.
  - exists l. simpl. by rewrite app_nil_r.
  - assert (get_event l eid = None) as Hnone.
    { apply get_event_none. intros Hin. apply NoDup_app in Hnd.
      destruct Hnd as (_ & Hdisj & _). apply list_elem_of_In in Hin.
      apply (Hdisj eid Hin). left. }
    simpl in Hplain. apply Forall_cons in Hplain as [(Hr & Hc & Hfit) Hplain].
    change (Proj1.run (Some l) (create_ops ((eid, r, c) :: specs)))
      with (Proj1.run (snd (Proj1.ems_create NoFault (Some l) eid r c))
              (create_ops specs)).
    rewrite (fine_create_ok l eid r c Hnone Hr Hc Hfit).
    cbn [snd]. set (e := mkEvent eid r c 0 _).
    destruct (IH (l ++ [e])) as [l' [Hrun Hids]].
    + rewrite map_app. simpl. rewrite <- app_assoc. exact Hnd.
    + exact Hplain.
    + exists l'. split; [exact Hrun|]. rewrite Hids.
      rewrite map_app. simpl. by rewrite <- app_assoc.
Qed.

(** An id of eight digits at most is formatted within the block of
    [Proj1.ems_list_events]. *)
Lemma list_id_fits i : i < 100000000 -> sprintf_fits 10 (decimal_length i + 1) = true.
Proof.
  intros Hi. unfold sprintf_fits, decimal_length.
  repeat match goal with
         | |- context [if ?a <? ?b then _ else _] =>
             destruct (Z.ltb_spec a b)
         end; lia.
Qed.

(** The loop of [Proj1.ems_list_events] writes one line per node, in the
    order of the nodes. *)
Lemma fine_list_events_lines current out :
  Forall (fun e => id e < 100000000) current ->
  Proj1.list_events current out
  = (Ok, out ++ flat_map (fun e => [TEventLabel; TNum (id e); TNewline]) current).
Proof.
  revert out. induction current as [|e next IH]; intros out Hids; simpl.
  - by rewrite app_nil_r.
  - apply Forall_cons in Hids as [He Hnext].
    rewrite list_id_fits by exact He. rewrite IH by exact Hnext.
    by rewrite <- !app_assoc.
Qed.

(** The same in [Proj2], where [num_events] counts the creations. *)
Lemma coarse_creates_in_order specs l n :
  NoDup (map id l ++ map (fun spec => fst (fst spec)) specs) ->
  0 <= n -> n + Z.of_nat (length specs) <= SIZE_MAX ->
  exists l',
    Proj2.run (Proj2.Live (Proj2.mkList l n)) (create_ops specs)
      = Proj2.Live (Proj2.mkList l' (n + Z.of_nat (length specs))) /\
    map id l' = map id l ++ map (fun spec => fst (fst spec)) specs.
Proof.
  revert l n. induction specs as [|[[eid r] c] specs IH]; intros l n Hnd Hn Hmax.
  - exists l. simpl. rewrite app_nil_r, Z.add_0_r. auto.
  - unfold Proj2.run in *. simpl.
    assert (get_event l eid = None) as Hnone.
    { apply get_event_none. intros Hin. apply NoDup_app in Hnd.
      destruct Hnd as (_ & Hdisj & _). apply list_elem_of_In in Hin.
      apply (Hdisj eid Hin). left. }
    unfold Proj2.ems_create. simpl. rewrite Hnone. simpl.
    set (e := mkEvent eid r c 0 _).
    simpl length in Hmax. rewrite wrap_size_small by lia.
    destruct (IH (append_to_list l e) (n + 1)) as [l' [Hrun Hids]].
    + unfold append_to_list. rewrite map_app. simpl.
      rewrite <- app_assoc. exact Hnd.
    + lia.
    + lia.
    + exists l'. split.
      * rewrite Hrun. do 2 f_equal. simpl length. lia.
      * rewrite Hids. unfold append_to_list. rewrite map_app. simpl.
        by rewrite <- app_assoc.
Qed.

(** After N creations with distinct ids on a fresh engine,
    [Proj1.ems_list_events] gives the N ids in creation order. *)
Lemma fine_list_after_creates specs :
  NoDup (map (fun spec => fst (fst spec)) specs) ->
  Forall sized_op (create_ops specs) ->
  Forall (fun i => i < 100000000) (map (fun spec => fst (fst spec)) specs) ->
  Proj1.ems_list_events (Proj1.run (snd (Proj1.ems_init true None)) (create_ops specs))
  = (Ok, flat_map (fun i => [TEventLabel; TNum i; TNewline])
           (map (fun spec => fst (fst spec)) specs)).
Proof.
  intros Hnd Hplain Hsmall.
  destruct (fine_creates_in_order specs []) as [l' [Hrun Hids]];
    [exact Hnd|exact Hplain|].
  simpl. rewrite Hrun. simpl in Hids. rewrite <- Hids in *.
  unfold Proj1.ems_list_events.
  assert (Proj1.list_events l' []
          = (Ok, flat_map (fun i => [TEventLabel; TNum i; TNewline]) (map id l')))
    as Hloop.
  { rewrite fine_list_events_lines.
    - simpl. f_equal. clear. induction l' as [|e0 l0 IH]; simpl; congruence.
    - apply Forall_forall. intros e He.
      rewrite Forall_forall in Hsmall. apply Hsmall.
      apply list_elem_of_fmap. by exists e. }
  destruct l' as [|e l']; [reflexivity|exact Hloop].
Qed.

(** The same for [Proj2.ems_list_events], when the stack holds the array
    of the ids. *)
Lemma coarse_list_after_creates stack_room specs :
  NoDup (map (fun spec => fst (fst spec)) specs) ->
  specs <> [] ->
  Z.of_nat (length specs) <= SIZE_MAX ->
  4 * Z.of_nat (length specs) <= stack_room ->
  Proj2.ems_list_events stack_room
    (Proj2.run (snd (Proj2.ems_init true Proj2.Null)) (create_ops specs))
  = Some [FInt 0; FSize (Z.of_nat (length specs));
          FArray (map (fun spec => fst (fst spec)) specs)].
Proof.
  intros Hnd Hne Hmax Hroom.
  destruct (coarse_creates_in_order specs [] 0) as [l' [Hrun Hids]];
    [exact Hnd|lia|lia|].
  simpl. unfold Proj2.create_list. rewrite Hrun. simpl in Hids.
  unfold Proj2.ems_list_events. simpl.
  destruct l' as [|e0 l0] eqn:El'.
  - destruct specs; [contradiction|discriminate].
  - rewrite <- El' in *. rewrite Z.add_0_l.
    destruct (Z.leb_spec (4 * Z.of_nat (length specs)) stack_room); [|lia].
    assert (Z.to_nat (Z.of_nat (length specs)) = length l') as ->.
    { rewrite Nat2Z.id. rewrite <- (length_map id l'), Hids. by rewrite length_map. }
    pose proof (list_ids_fills l' []) as Hfill. simpl in Hfill.
    change (Z.of_nat 0) with 0 in Hfill.
    rewrite Hfill, Hids. reflexivity.
Qed.

(** C7, as the code has it.  On an initialised engine with no event,
    [Proj1.ems_list_events] returns 0 and writes no event line, and
    [Proj2.ems_list_events] answers with the status 1 and nothing else,
    neither a count nor an array.  After N >= 1 creations with distinct
    ids on a fresh engine, both give exactly the N ids in creation order:
    [Proj1] when the seat arrays fit a [size_t] and every id is below
    100000000, the most its block of 10 bytes can take, and [Proj2],
    after the status 0 and the count N, when the stack holds the array of
    the N ids. *)
Theorem list_events_reports :
  Proj1.ems_list_events (snd (Proj1.ems_init true None)) = (Ok, [])
  /\
  (forall stack_room,
      Proj2.ems_list_events stack_room (snd (Proj2.ems_init true Proj2.Null))
      = Some [FInt 1])
  /\
  (forall specs,
      NoDup (map (fun spec => fst (fst spec)) specs) ->
      specs <> [] ->
      let ids := map (fun spec => fst (fst spec)) specs in
      (Forall sized_op (create_ops specs) ->
       Forall (fun i => i < 100000000) ids ->
       Proj1.ems_list_events
         (Proj1.run (snd (Proj1.ems_init true None)) (create_ops specs))
       = (Ok, flat_map (fun i => [TEventLabel; TNum i; TNewline]) ids))
      /\
      (forall stack_room,
          Z.of_nat (length specs) <= SIZE_MAX ->
          4 * Z.of_nat (length specs) <= stack_room ->
          Proj2.ems_list_events stack_room
            (Proj2.run (snd (Proj2.ems_init true Proj2.Null)) (create_ops specs))
          = Some [FInt 0; FSize (Z.of_nat (length specs)); FArray ids])).
Proof.
  split; [reflexivity|]. split; [reflexivity|].
  intros specs Hnd Hne ids. split.
  - intros Hplain Hsmall. by apply fine_list_after_creates.
  - intros stack_room Hmax Hroom. by apply coarse_list_after_creates.
Qed.

Lemma list_events_reports_witness :
  let specs := [(4, 2, 2); (9, 1, 5); (1, 3, 3)] in
  Proj1.ems_list_events
    (Proj1.run (snd (Proj1.ems_init true None)) (create_ops specs))
  = (Ok, [TEventLabel; TNum 4; TNewline; TEventLabel; TNum 9; TNewline;
          TEventLabel; TNum 1; TNewline])
  /\
  Proj2.ems_list_events 8388608
    (Proj2.run (snd (Proj2.ems_init true Proj2.Null)) (create_ops specs))
  = Some [FInt 0; FSize 3; FArray [4; 9; 1]].
Proof.
  intros specs.
  assert (Hnd : NoDup (map (fun spec : Z * Z * Z => fst (fst spec)) specs))
    by (apply (bool_decide_unpack (NoDup [4; 9; 1])); reflexivity).
  assert (Hne : specs <> []) by discriminate.
  destruct list_events_reports as (_ & _ & Hlist).
  destruct (Hlist specs Hnd Hne) as [Hfine Hcoarse]. split.
  - apply Hfine; unfold specs; simpl;
      repeat (apply Forall_cons; split); try apply Forall_nil_2;
      unfold sized_op, sizeof_Data, SIZE_MAX; lia.
  - apply Hcoarse; unfold SIZE_MAX; simpl; lia.
Defined.

(** C7 as stated fails in [Proj2]: with no event the response is the
    error status alone, not a successful answer of zero events. *)
Lemma empty_list_status_counterexample :
  let st := snd (Proj2.ems_init true Proj2.Null) in
  st = Proj2.Live (Proj2.mkList [] 0) /\
  forall stack_room,
    Proj2.ems_list_events stack_room st = Some [FInt 1] /\
    Proj2.ems_list_events stack_room st <> Some [FInt 0; FSize 0; FArray []] /\
    forall rest, Proj2.ems_list_events stack_room st <> Some (FInt 0 :: rest).
Proof.
  intros st. split; [reflexivity|]. intros stack_room.
  split; [reflexivity|].
  split; [discriminate|]. intros rest. discriminate.
Qed.

(** ** Reservation ids along a sequence of commands *)

Section CounterInvariant.

Context {St : Type}.
Variable step : St -> Op -> Status * St.
Variable counter_of : St -> Z -> option Z.
Variable eid : Z.

(** One command moves the counter by at most one, and a successful
    reservation on [eid] moves it by exactly one. *)
Hypothesis step_counter :
  forall st op s st',
    step st op = (s, st') ->
    0 <= counter_value counter_of eid st < UINT_MAX ->
    counter_value counter_of eid st <= counter_value counter_of eid st'
      <= counter_value counter_of eid st + 1 /\
    (forall seats,
        op = OpReserve eid seats -> s = Ok ->
        counter_of st' eid = Some (counter_value counter_of eid st + 1)).

Lemma ids_handed_out_bounds ops st :
  0 <= counter_value counter_of eid st ->
  counter_value counter_of eid st + Z.of_nat (length ops) <= UINT_MAX ->
  StronglySorted Z.lt (ids_handed_out step counter_of eid st ops) /\
  Forall (fun r => counter_value counter_of eid st < r
                   <= counter_value counter_of eid st + Z.of_nat (length ops))
    (ids_handed_out step counter_of eid st ops).
Proof.
  revert st. induction ops as [|op ops IH]; intros st Hpos Hmax.
  - simpl. split; constructor.
  - simpl length in Hmax. simpl.
    destruct (step st op) as [s st'] eqn:Hstep.
    destruct (step_counter st op s st' Hstep ltac:(lia)) as [Hmove Hres].
    destruct (IH st' ltac:(lia) ltac:(lia)) as [Hsorted Hall].
    assert (Hweak :
              Forall (fun r => counter_value counter_of eid st < r
                               <= counter_value counter_of eid st
                                  + Z.of_nat (S (length ops)))
                (ids_handed_out step counter_of eid st' ops)).
    { eapply Forall_impl; [exact Hall|]. simpl. intros r Hr. lia. }
    destruct op as [? ? ?|event_id seats|?|]; try (split; assumption).
    destruct s; try (split; assumption).
    destruct (counter_of st' eid) as [r|] eqn:Hr; try (split; assumption).
    destruct (event_id =? eid) eqn:E; try (split; assumption).
    apply Z.eqb_eq in E. subst event_id.
    specialize (Hres seats eq_refl eq_refl). try rewrite Hr in Hres.
    inversion Hres; subst r.
    assert (counter_value counter_of eid st' = counter_value counter_of eid st + 1)
      as Hst' by (unfold counter_value at 1; by rewrite Hr).
    split.
    + constructor; [exact Hsorted|].
      eapply Forall_impl; [exact Hall|]. simpl. intros r Hr'. lia.
    + constructor; [lia|exact Hweak].
Qed.

Lemma ids_handed_out_fresh ops st :
  0 <= counter_value counter_of eid st ->
  counter_value counter_of eid st + Z.of_nat (length ops) <= UINT_MAX ->
  fresh_increasing (counter_value counter_of eid st)
    (ids_handed_out step counter_of eid st ops).
Proof.
  intros Hpos Hmax.
  destruct (ids_handed_out_bounds ops st Hpos Hmax) as [Hsorted Hall].
  split; [exact Hsorted|]. split.
  - clear Hall. induction Hsorted as [|r ids Hs IH Hlt]; [constructor|].
    constructor; [|exact IH].
    intros Hin. rewrite Forall_forall in Hlt. specialize (Hlt r Hin). lia.
  - eapply Forall_impl; [exact Hall|]. simpl. intros r Hr. lia.
Qed.

End CounterInvariant.

Lemma fine_step_counter eid st op s st' :
  Proj1.step st op = (s, st') ->
  0 <= counter_value Proj1.counter_of eid st < UINT_MAX ->
  counter_value Proj1.counter_of eid st <= counter_value Proj1.counter_of eid st'
    <= counter_value Proj1.counter_of eid st + 1 /\
  (forall seats, op = OpReserve eid seats -> s = Ok ->
     Proj1.counter_of st' eid = Some (counter_value Proj1.counter_of eid st + 1)).
Proof.
  unfold counter_value. intros Hstep Hc.
  destruct op as [event_id r c|event_id seats|event_id|]; simpl in Hstep.
  - (* create *)
    unfold Proj1.ems_create in Hstep. destruct st as [l|].
    2:{ inversion Hstep; subst. split; [lia|discriminate]. }
    destruct (get_event l event_id) eqn:Hget.
    { inversion Hstep; subst. split; [lia|discriminate]. }
    destruct (_ <? _) in Hstep.
    { inversion Hstep; subst. split; [lia|discriminate]. }
    inversion Hstep; subst. split; [|discriminate]. simpl.
    destruct (Z.eq_dec event_id eid) as [->|Hne].
    + rewrite get_event_append by auto. simpl in *. rewrite Hget in *. simpl. lia.
    + rewrite get_event_append_other by auto. lia.
  - (* reserve *)
    unfold Proj1.ems_reserve in Hstep. destruct st as [l|].
    2:{ inversion Hstep; subst. split; [lia|discriminate]. }
    destruct (get_event l event_id) as [event|] eqn:Hget.
    2:{ inversion Hstep; subst. split; [lia|].
        intros seats' Heq; inversion Heq; discriminate. }
    destruct (Proj1.reserve_event event seats) as [s0 event'] eqn:Hres.
    inversion Hstep; subst s0 st'. simpl in *.
    pose proof (fine_reserve_id event seats) as Hid. rewrite Hres in Hid.
    simpl in Hid. pose proof (get_event_id _ _ _ Hget) as Hid0.
    destruct (Z.eq_dec event_id eid) as [->|Hne].
    + rewrite Hget in *. simpl in Hc.
      rewrite (get_store_event _ _ _ _ Hget) by congruence. simpl.
      apply fine_reserve_cases in Hres; [|lia].
      destruct Hres as [(-> & -> & _)|(Hs & ->)].
      * simpl. rewrite wrap_uint_small by lia. split; [lia|reflexivity].
      * split; [lia|]. intros _ _ ->. destruct Hs; discriminate.
    + rewrite get_store_other by congruence. split; [lia|].
      intros seats' Heq. inversion Heq. contradiction.
  - inversion Hstep; subst. split; [lia|discriminate].
  - inversion Hstep; subst. split; [lia|discriminate].
Qed.

Lemma coarse_step_counter eid st op s st' :
  Proj2.step st op = (s, st') ->
  0 <= counter_value Proj2.counter_of eid st < UINT_MAX ->
  counter_value Proj2.counter_of eid st <= counter_value Proj2.counter_of eid st'
    <= counter_value Proj2.counter_of eid st + 1 /\
  (forall seats, op = OpReserve eid seats -> s = Ok ->
     Proj2.counter_of st' eid = Some (counter_value Proj2.counter_of eid st + 1)).
Proof.
  unfold counter_value. intros Hstep Hc.
  destruct op as [event_id r c|event_id seats|event_id|]; simpl in Hstep.
  - unfold Proj2.ems_create in Hstep. destruct st as [|l|];
      try (inversion Hstep; subst; split; [lia|discriminate]).
    destruct (get_event (Proj2.nodes l) event_id) eqn:Hget.
    { inversion Hstep; subst. split; [lia|discriminate]. }
    inversion Hstep; subst. split; [|discriminate]. simpl.
    destruct (Z.eq_dec event_id eid) as [->|Hne].
    + rewrite get_event_append by auto. simpl in *. rewrite Hget in *. simpl. lia.
    + rewrite get_event_append_other by auto. lia.
  - unfold Proj2.ems_reserve in Hstep. destruct st as [|l|];
      try (inversion Hstep; subst; split; [lia|];
           intros seats' Heq; inversion Heq; discriminate).
    destruct (get_event (Proj2.nodes l) event_id) as [event|] eqn:Hget.
    2:{ inversion Hstep; subst. split; [lia|].
        intros seats' Heq; inversion Heq; discriminate. }
    destruct (Proj2.reserve_event event seats) as [s0 event'] eqn:Hres.
    inversion Hstep; subst s0 st'. simpl in *.
    pose proof (coarse_reserve_id event seats) as Hid. rewrite Hres in Hid.
    simpl in Hid. pose proof (get_event_id _ _ _ Hget) as Hid0.
    destruct (Z.eq_dec event_id eid) as [->|Hne].
    + rewrite Hget in *. simpl in Hc.
      rewrite (get_store_event _ _ _ _ Hget) by congruence. simpl.
      apply coarse_reserve_cases in Hres.
      destruct Hres as [(-> & -> & _)|[(-> & -> & _)|(-> & -> & _)]].
      * simpl. rewrite wrap_uint_small by lia. split; [lia|reflexivity].
      * split; [lia|discriminate].
      * split; [lia|discriminate].
    + rewrite get_store_other by congruence. split; [lia|].
      intros seats' Heq. inversion Heq. contradiction.
  - inversion Hstep; subst. split; [lia|discriminate].
  - inversion Hstep; subst. split; [lia|discriminate].
Qed.

(** C3, as the code has it.  A successful [ems_reserve] hands out
    [++event->reservations], an [unsigned int].  Along any sequence of
    commands that cannot take the counter of the event past [UINT_MAX],
    the ids handed out for the event increase strictly, never repeat and
    are never zero, in [Proj1] (which increments before it validates and
    decrements on failure) as in [Proj2]. *)
Theorem issued_ids_increase eid ops :
  (forall st,
      0 <= counter_value Proj1.counter_of eid st ->
      counter_value Proj1.counter_of eid st + Z.of_nat (length ops) <= UINT_MAX ->
      fresh_increasing (counter_value Proj1.counter_of eid st)
        (Proj1.issued_ids eid st ops))
  /\
  (forall st,
      0 <= counter_value Proj2.counter_of eid st ->
      counter_value Proj2.counter_of eid st + Z.of_nat (length ops) <= UINT_MAX ->
      fresh_increasing (counter_value Proj2.counter_of eid st)
        (Proj2.issued_ids eid st ops)).
Proof.
  split; intros st Hpos Hmax.
  - apply (ids_handed_out_fresh Proj1.step Proj1.counter_of eid); auto.
    intros. by apply (fine_step_counter eid st0 op s st').
  - apply (ids_handed_out_fresh Proj2.step Proj2.counter_of eid); auto.
    intros. by apply (coarse_step_counter eid st0 op s st').
Qed.

Lemma issued_ids_increase_witness :
  let event := mkEvent 1 2 2 0 [0; 0; 0; 0] in
  let ops := [OpReserve 1 [(1, 1)]; OpReserve 1 [(1, 1)]; OpReserve 1 [(2, 2); (2, 1)]] in
  let st1 := Some [event] in
  let st2 := Proj2.Live (Proj2.mkList [event] 1) in
  0 <= counter_value Proj1.counter_of 1 st1 /\
  counter_value Proj1.counter_of 1 st1 + Z.of_nat (length ops) <= UINT_MAX /\
  0 <= counter_value Proj2.counter_of 1 st2 /\
  counter_value Proj2.counter_of 1 st2 + Z.of_nat (length ops) <= UINT_MAX /\
  Proj1.issued_ids 1 st1 ops = [1; 2] /\
  Proj2.issued_ids 1 st2 ops = [1; 2] /\
  fresh_increasing 0 (Proj1.issued_ids 1 st1 ops) /\
  fresh_increasing 0 (Proj2.issued_ids 1 st2 ops).
Proof.
  intros event ops st1 st2.
  assert (H0 : 0 <= 0) by lia.
  assert (H1 : 0 + Z.of_nat (length ops) <= UINT_MAX) by (unfold UINT_MAX; simpl; lia).
  split; [exact H0|]. split; [exact H1|]. split; [exact H0|]. split; [exact H1|].
  split; [reflexivity|]. split; [reflexivity|].
  destruct (issued_ids_increase 1 ops) as [Hfine Hcoarse].
  split; [exact (Hfine st1 H0 H1)|exact (Hcoarse st2 H0 H1)].
Defined.

(** Zero-seat requests, which both [ems_reserve] accept, take the counter
    of a fresh event to any value up to [UINT_MAX]. *)
Lemma counter_reaches k c :
  0 <= c -> c + Z.of_nat k <= UINT_MAX ->
  Proj1.run (Some [mkEvent 1 1 1 c [0]]) (repeat (OpReserve 1 []) k)
    = Some [mkEvent 1 1 1 (c + Z.of_nat k) [0]]
  /\
  Proj2.run (Proj2.Live (Proj2.mkList [mkEvent 1 1 1 c [0]] 1))
    (repeat (OpReserve 1 []) k)
    = Proj2.Live (Proj2.mkList [mkEvent 1 1 1 (c + Z.of_nat k) [0]] 1).
Proof.
  revert c. induction k as [|k IH]; intros c Hc Hmax.
  - simpl. rewrite Z.add_0_r. split; reflexivity.
  - destruct (IH (c + 1) ltac:(lia) ltac:(lia)) as [IH1 IH2].
    replace (c + Z.of_nat (S k)) with (c + 1 + Z.of_nat k) by lia.
    assert (wrap_uint (c + 1) = c + 1) as Hw by (apply wrap_uint_small; lia).
    split.
    + rewrite <- IH1. unfold Proj1.run. simpl.
      unfold set_data, set_reservations. simpl. by rewrite Hw.
    + rewrite <- IH2. unfold Proj2.run. simpl.
      unfold set_data, set_reservations. simpl. by rewrite Hw.
Qed.

(** C3 as stated fails at the wrap-around of the counter: on an event
    whose counter is [UINT_MAX], the next successful reservation is handed
    the id 0, which is also the mark of a free seat. *)
Lemma counter_wrap_counterexample :
  let event := mkEvent 1 1 1 4294967295 [0] in
  wf_event event /\
  Proj1.ems_reserve (Some [event]) 1 [(1, 1)] = (Ok, Some [mkEvent 1 1 1 0 [0]]) /\
  Proj1.issued_ids 1 (Some [event]) [OpReserve 1 [(1, 1)]] = [0] /\
  Proj2.issued_ids 1 (Proj2.Live (Proj2.mkList [event] 1)) [OpReserve 1 [(1, 1)]] = [0] /\
  ~ fresh_increasing 4294967295
      (Proj1.issued_ids 1 (Some [event]) [OpReserve 1 [(1, 1)]]).
Proof.
  intros event. split; [solve_wf|].
  split; [reflexivity|]. split; [reflexivity|]. split; [reflexivity|].
  intros (_ & _ & Hall). inversion Hall as [|r ids [Hlt Hnz] Hrest]; subst.
  by apply Hnz.
Qed.

(** ** Showing an event *)

Lemma upto_seq n : upto n = map (fun k => Z.of_nat k + 1) (seq 0 (Z.to_nat n)).
Proof. reflexivity. Qed.

Lemma grid_read_zeros n index : grid_read (replicate n 0) index = 0.
Proof.
  unfold grid_read. destruct (replicate n 0 !! Z.to_nat index) as [x|] eqn:E.
  - apply lookup_replicate in E. by destruct E as [-> _].
  - reflexivity.
Qed.

(** The dump of an all-zero array is the all-zero grid of that shape. *)
Lemma row_major_dump_zeros nrows ncols n :
  row_major_dump nrows ncols (replicate n 0)
  = replicate (Z.to_nat nrows) (replicate (Z.to_nat ncols) 0).
Proof.
  unfold row_major_dump, upto, cell_at.
  assert (forall (A B : Type) (l : list A) (z : B),
             map (fun _ => z) l = replicate (length l) z) as Hconst.
  { intros A B l z. induction l as [|x l IH]; simpl; congruence. }
  rewrite (map_ext _ (fun _ => replicate (Z.to_nat ncols) 0)).
  - by rewrite Hconst, length_map, length_seq.
  - intros row. rewrite (map_ext _ (fun _ => 0)).
    + rewrite Hconst. by rewrite length_map, length_seq.
    + intros col. apply grid_read_zeros.
Qed.

(** A cell of one digit is formatted within the block of
    [Proj1.ems_show], and only such a cell. *)
Lemma digit_fits v : sprintf_fits 2 (decimal_length v) = true <-> v < 10.
Proof.
  unfold sprintf_fits, decimal_length.
  repeat match goal with
         | |- context [if ?a <? ?b then _ else _] =>
             destruct (Z.ltb_spec a b)
         end; rewrite Z.leb_le; lia.
Qed.

Lemma grid_read_digit d index :
  Forall (fun v => v < 10) d -> grid_read d index < 10.
Proof.
  intros Hd. unfold grid_read.
  destruct (d !! Z.to_nat index) as [v|] eqn:E; simpl; [|lia].
  rewrite Forall_forall in Hd. apply Hd. by eapply list_elem_of_lookup_2.
Qed.

Lemma fine_show_cols_step event i n j out :
  Proj1.show_cols event i (S n) j out
  = if sprintf_fits 2 (decimal_length (grid_read (data event) (seat_index event i j)))
    then Proj1.show_cols event i n (j + 1)
           (if j <? cols event
            then (out ++ [TNum (grid_read (data event) (seat_index event i j))])
                 ++ [TSpace]
            else out ++ [TNum (grid_read (data event) (seat_index event i j))])
    else (Undefined, out).
Proof. reflexivity. Qed.

(** One row as [Proj1.ems_show] prints it: the inner loop followed by the
    end of line. *)
Lemma fine_show_cols_line event i n a out :
  Forall (fun v => v < 10) (data event) ->
  (0 < n)%nat -> Z.of_nat (a + n) = cols event ->
  exists out',
    Proj1.show_cols event i n (Z.of_nat a + 1) out = (Ok, out') /\
    out' ++ [TNewline]
    = out ++ line_of (map (fun k => grid_read (data event)
                                      (seat_index event i (Z.of_nat k + 1)))
                          (seq a n)).
Proof.
  intros Hdigits.
  revert a out. induction n as [|n IH]; intros a out Hn Hcols; [lia|].
  rewrite fine_show_cols_step.
  rewrite (proj2 (digit_fits _)) by (by apply grid_read_digit).
  destruct n as [|m].
  - assert ((Z.of_nat a + 1 <? cols event) = false) as ->
      by (apply Z.ltb_ge; lia).
    eexists. split; [reflexivity|]. simpl. by rewrite <- app_assoc.
  - assert ((Z.of_nat a + 1 <? cols event) = true) as -> by (apply Z.ltb_lt; lia).
    replace (Z.of_nat a + 1 + 1) with (Z.of_nat (S a) + 1) by lia.
    destruct (IH (S a)
                ((out ++ [TNum (grid_read (data event)
                                  (seat_index event i (Z.of_nat a + 1)))])
                 ++ [TSpace]))
      as (out' & Hloop & Hline); [lia|lia|].
    exists out'. split; [exact Hloop|]. rewrite Hline.
    change (seq a (S (S m))) with (a :: S a :: seq (S (S a)) m).
    change (seq (S a) (S m)) with (S a :: seq (S (S a)) m).
    simpl. by rewrite <- !app_assoc.
Qed.

Lemma fine_show_row event i out :
  Forall (fun v => v < 10) (data event) ->
  0 <= cols event ->
  exists out',
    Proj1.show_cols event i (Z.to_nat (cols event)) 1 out = (Ok, out') /\
    out' ++ [TNewline]
    = out ++ line_of (map (fun col => grid_read (data event) (seat_index event i col))
                          (upto (cols event))).
Proof.
  intros Hdigits Hc. unfold upto. rewrite map_map.
  destruct (Z.to_nat (cols event)) as [|n] eqn:E.
  - exists out. split; reflexivity.
  - apply (fine_show_cols_line event i (S n) 0 out); [exact Hdigits|lia|lia].
Qed.

Lemma fine_show_rows_lines event n a out :
  Forall (fun v => v < 10) (data event) ->
  0 <= cols event ->
  Proj1.show_rows event n (Z.of_nat a + 1) out
  = (Ok,
     out ++ flat_map
              (fun row => line_of (map (fun col => grid_read (data event)
                                                     (seat_index event row col))
                                       (upto (cols event))))
              (map (fun k => Z.of_nat k + 1) (seq a n))).
Proof.
  intros Hdigits Hc. revert a out. induction n as [|n IH]; intros a out.
  - simpl. by rewrite app_nil_r.
  - cbn [Proj1.show_rows].
    destruct (fine_show_row event (Z.of_nat a + 1) out Hdigits Hc)
      as (out' & -> & Hline).
    rewrite Hline.
    replace (Z.of_nat a + 1 + 1) with (Z.of_nat (S a) + 1) by lia.
    rewrite IH. simpl. by rewrite <- app_assoc.
Qed.

(** Within the grid, reading through [seat_index] is reading the cell of
    the row-major dump. *)
Lemma read_seat_index_cell event row col :
  0 <= rows event * cols event <= SIZE_MAX ->
  In row (upto (rows event)) -> In col (upto (cols event)) ->
  grid_read (data event) (seat_index event row col)
  = cell_at (data event) (cols event) row col.
Proof.
  intros Hsz Hrow Hcol. unfold upto in *.
  apply in_map_iff in Hrow as [kr [<- Hkr]]. apply in_seq in Hkr.
  apply in_map_iff in Hcol as [kc [<- Hkc]]. apply in_seq in Hkc.
  unfold cell_at.
  pose proof (seat_index_in_grid event (Z.of_nat kr + 1, Z.of_nat kc + 1) Hsz) as H.
  simpl in H. rewrite (proj1 (H ltac:(apply in_bounds_iff; simpl; lia))).
  reflexivity.
Qed.

(** [Proj1.ems_show] prints the row-major dump of the seat array, line by
    line, when every cell has one digit. *)
Lemma fine_show_dump event :
  Forall (fun v => v < 10) (data event) ->
  0 <= cols event -> 0 <= rows event * cols event <= SIZE_MAX ->
  Proj1.show_rows event (Z.to_nat (rows event)) 1 []
  = (Ok, flat_map line_of (row_major_dump (rows event) (cols event) (data event))).
Proof.
  intros Hdigits Hc Hsz.
  change 1 with (Z.of_nat 0 + 1) at 1.
  rewrite (fine_show_rows_lines event (Z.to_nat (rows event)) 0 []) by assumption.
  simpl. unfold row_major_dump. fold (upto (rows event)).
  rewrite flat_map_concat_map, (flat_map_concat_map line_of), map_map.
  do 2 f_equal. apply map_ext_in. intros row Hrow. f_equal.
  apply map_ext_in. intros col Hcol. by apply read_seat_index_cell.
Qed.

Lemma zeros_digits n : Forall (fun v => v < 10) (replicate n 0).
Proof.
  apply Forall_forall. intros v Hv. apply elem_of_replicate in Hv as [-> _]. lia.
Qed.

(** The inner loop of [Proj2.ems_show] fills the next [n] cells of the
    response with the cells of row [i]. *)
Lemma coarse_show_cols_fill event i n a (pre : list Z) m :
  Proj2.show_cols event i n (Z.of_nat a + 1)
    (pre ++ replicate (n + m) 0, Z.of_nat (length pre))
  = (pre ++ map (fun k => grid_read (data event)
                            (seat_index event i (Z.of_nat k + 1))) (seq a n)
         ++ replicate m 0,
     Z.of_nat (length pre + n)).
Proof.
  revert a pre. induction n as [|n IH]; intros a pre.
  - simpl. by rewrite Nat.add_0_r.
  - change (replicate (S n + m) 0) with (0 :: replicate (n + m) 0).
    cbn [Proj2.show_cols]. rewrite grid_write_next.
    set (v := grid_read (data event) (seat_index event i (Z.of_nat a + 1))).
    replace (pre ++ v :: replicate (n + m) 0)
      with ((pre ++ [v]) ++ replicate (n + m) 0) by (by rewrite <- app_assoc).
    replace (Z.of_nat (length pre) + 1) with (Z.of_nat (length (pre ++ [v])))
      by (rewrite length_app; simpl; lia).
    replace (Z.of_nat a + 1 + 1) with (Z.of_nat (S a) + 1) by lia.
    rewrite IH. rewrite <- app_assoc. simpl. f_equal.
    rewrite length_app. simpl. lia.
Qed.

(** The outer loop fills the response row after row. *)
Lemma coarse_show_rows_fill event n a (pre : list Z) m :
  Proj2.show_rows event n (Z.of_nat a + 1)
    (pre ++ replicate (n * Z.to_nat (cols event) + m) 0, Z.of_nat (length pre))
  = (pre ++ concat
              (map (fun kr =>
                      map (fun kc => grid_read (data event)
                                       (seat_index event (Z.of_nat kr + 1)
                                          (Z.of_nat kc + 1)))
                          (seq 0 (Z.to_nat (cols event))))
                   (seq a n))
         ++ replicate m 0,
     Z.of_nat (length pre + n * Z.to_nat (cols event))).
Proof.
  revert a pre. induction n as [|n IH]; intros a pre.
  - simpl. by rewrite Nat.add_0_r.
  - cbn [Proj2.show_rows].
    replace (S n * Z.to_nat (cols event) + m)%nat
      with (Z.to_nat (cols event) + (n * Z.to_nat (cols event) + m))%nat by lia.
    pose proof (coarse_show_cols_fill event (Z.of_nat a + 1)
                  (Z.to_nat (cols event)) 0 pre
                  (n * Z.to_nat (cols event) + m)) as Hrow.
    change (Z.of_nat 0 + 1) with 1 in Hrow. rewrite Hrow. clear Hrow.
    set (row := map _ (seq 0 (Z.to_nat (cols event)))).
    rewrite app_assoc.
    replace (length pre + Z.to_nat (cols event))%nat with (length (pre ++ row))
      by (unfold row; by rewrite length_app, length_map, length_seq).
    replace (Z.of_nat a + 1 + 1) with (Z.of_nat (S a) + 1) by lia.
    rewrite IH. simpl. rewrite <- !app_assoc. f_equal.
    rewrite length_app. unfold row. rewrite length_map, length_seq. lia.
Qed.

(** [Proj2.ems_show] sends the row-major dump of the seat array. *)
Lemma coarse_show_dump event :
  0 <= rows event -> 0 <= cols event ->
  rows event * cols event <= SIZE_MAX ->
  fst (Proj2.show_rows event (Z.to_nat (rows event)) 1
         (replicate (Z.to_nat (wrap_size (rows event * cols event))) 0, 0))
  = concat (row_major_dump (rows event) (cols event) (data event)).
Proof.
  intros Hr Hc Hsz.
  rewrite wrap_size_small by nia. rewrite Z2Nat.inj_mul by lia.
  pose proof (coarse_show_rows_fill event (Z.to_nat (rows event)) 0 [] 0) as H.
  simpl in H. rewrite Nat.add_0_r in H. change (Z.of_nat 0) with 0 in H.
  change (0 + 1) with 1 in H. rewrite H. simpl. rewrite app_nil_r.
  unfold row_major_dump, upto. rewrite map_map. f_equal.
  apply map_ext_in. intros kr Hkr. rewrite map_map.
  apply map_ext_in. intros kc Hkc.
  apply read_seat_index_cell; [nia| |]; unfold upto; apply in_map_iff; eauto.
Qed.

(** C9. After a successful [ems_create] with dimensions that give at least
    one seat, the new event has [rows * cols] cells, all zero, and
    [ems_show] on it yields the row-major dump of its seat array (cell
    (row, col) taken at index (row - 1) * cols + (col - 1)), which is the
    grid of [rows] rows of [cols] zeros: printed line by line in [Proj1],
    sent after the status and the two dimensions in [Proj2] when the stack
    holds the response array of 4 bytes a seat.  When it does not,
    [ems_show] of [Proj2] does not return. *)
Theorem create_then_show env event_id num_rows num_cols :
  let zeros := replicate (Z.to_nat (num_rows * num_cols)) 0 in
  let grid := replicate (Z.to_nat num_rows) (replicate (Z.to_nat num_cols) 0) in
  row_major_dump num_rows num_cols zeros = grid
  /\
  (forall st st',
      Proj1.valid_dims num_rows num_cols ->
      Proj1.ems_create env st event_id num_rows num_cols = (Ok, st') ->
      exists l event,
        st' = Some l /\ get_event l event_id = Some event /\
        rows event = num_rows /\ cols event = num_cols /\ data event = zeros /\
        Proj1.ems_show st' event_id
        = (Ok, flat_map line_of (row_major_dump num_rows num_cols (data event))))
  /\
  (forall stack_room st st',
      Proj2.valid_dims num_rows num_cols ->
      Proj2.ems_create env st event_id num_rows num_cols = (Ok, st') ->
      exists l event,
        st' = Proj2.Live l /\ get_event (Proj2.nodes l) event_id = Some event /\
        rows event = num_rows /\ cols event = num_cols /\ data event = zeros /\
        (4 * (num_rows * num_cols) <= stack_room ->
         Proj2.ems_show stack_room st' event_id
         = Some [FInt 0; FSize num_rows; FSize num_cols;
                 FArray (concat (row_major_dump num_rows num_cols (data event)))]) /\
        (stack_room < 4 * (num_rows * num_cols) ->
         Proj2.ems_show stack_room st' event_id = None)).
Proof.
  intros zeros grid.
  split; [apply row_major_dump_zeros|]. split.
  - intros st st' (Hr & Hc & Hone & Hmax) Hcreate.
    apply fine_create_inv in Hcreate as (l & -> & Hget & ->).
    rewrite wrap_size_small by lia. fold zeros.
    set (fresh := mkEvent event_id num_rows num_cols 0 zeros) in *.
    exists (l ++ [fresh]), fresh.
    split; [reflexivity|]. split; [by apply get_event_append|].
    split; [reflexivity|]. split; [reflexivity|]. split; [reflexivity|].
    unfold Proj1.ems_show. change (l ++ [fresh]) with (append_to_list l fresh).
    rewrite get_event_append by auto.
    apply (fine_show_dump fresh); simpl; [apply zeros_digits|lia|lia].
  - intros stack_room st st' (Hr & Hc & Hone & Hmax) Hcreate.
    assert (num_rows * num_cols <= SIZE_MAX) as Hsz
      by (unfold SIZE_MAX, INT_MAX in *; lia).
    unfold Proj2.ems_create in Hcreate. destruct st as [|l|]; try discriminate.
    destruct (get_event (Proj2.nodes l) event_id) eqn:Hget; [discriminate|].
    rewrite wrap_size_small in Hcreate by lia. fold zeros in Hcreate.
    set (fresh := mkEvent event_id num_rows num_cols 0 zeros) in *.
    destruct env; try discriminate. inversion Hcreate; subst st'.
    eexists _, fresh.
    split; [reflexivity|]. split; [by apply get_event_append|].
    split; [reflexivity|]. split; [reflexivity|]. split; [reflexivity|].
    unfold Proj2.ems_show. simpl Proj2.nodes. rewrite get_event_append by auto.
    pose proof (coarse_show_dump fresh Hr Hc Hsz) as Hdump. simpl in Hdump.
    simpl rows. simpl cols. simpl data.
    rewrite (wrap_size_small (num_rows * num_cols)) in * by lia.
    split; intros Hroom.
    + destruct (Z.leb_spec (4 * (num_rows * num_cols)) stack_room); [|lia].
      by rewrite Hdump.
    + by destruct (Z.leb_spec (4 * (num_rows * num_cols)) stack_room); [lia|].
Qed.

Lemma create_then_show_witness :
  Proj1.valid_dims 2 3 /\ Proj2.valid_dims 2 3 /\
  Proj1.ems_create NoFault (Some []) 5 2 3
    = (Ok, Some [mkEvent 5 2 3 0 [0; 0; 0; 0; 0; 0]]) /\
  Proj2.ems_create NoFault (Proj2.Live Proj2.create_list) 5 2 3
    = (Ok, Proj2.Live (Proj2.mkList [mkEvent 5 2 3 0 [0; 0; 0; 0; 0; 0]] 1)) /\
  Proj1.ems_show (Some [mkEvent 5 2 3 0 [0; 0; 0; 0; 0; 0]]) 5
  = (Ok, [TNum 0; TSpace; TNum 0; TSpace; TNum 0; TNewline;
          TNum 0; TSpace; TNum 0; TSpace; TNum 0; TNewline]) /\
  Proj2.ems_show 8388608
    (Proj2.Live (Proj2.mkList [mkEvent 5 2 3 0 [0; 0; 0; 0; 0; 0]] 1)) 5
  = Some [FInt 0; FSize 2; FSize 3; FArray [0; 0; 0; 0; 0; 0]] /\
  Proj2.ems_show 23
    (Proj2.Live (Proj2.mkList [mkEvent 5 2 3 0 [0; 0; 0; 0; 0; 0]] 1)) 5
  = None.
Proof.
  assert (H1 : Proj1.valid_dims 2 3)
    by (unfold Proj1.valid_dims, SIZE_MAX; simpl; lia).
  assert (H2 : Proj2.valid_dims 2 3)
    by (unfold Proj2.valid_dims, INT_MAX; simpl; lia).
  split; [exact H1|]. split; [exact H2|].
  split; [reflexivity|]. split; [reflexivity|].
  destruct (create_then_show NoFault 5 2 3) as (_ & Hfine & Hcoarse).
  split; [|split].
  - destruct (Hfine (Some []) _ H1 eq_refl) as (l & event & Hl & Hev & _ & _ & _ & Hshow).
    inversion Hl; subst l. inversion Hev; subst event. exact Hshow.
  - destruct (Hcoarse 8388608 (Proj2.Live Proj2.create_list) _ H2 eq_refl)
      as (l & event & Hl & Hev & _ & _ & _ & Hshow & _).
    inversion Hl; subst l. inversion Hev; subst event. apply Hshow. lia.
  - destruct (Hcoarse 23 (Proj2.Live Proj2.create_list) _ H2 eq_refl)
      as (l & event & Hl & Hev & _ & _ & _ & _ & Hdies).
    inversion Hl; subst l. inversion Hev; subst event. apply Hdies. lia.
Defined.

(** ** The example of the specification

    [CREATE 1 3 3], [RESERVE 1 (1,1) (1,2)], [SHOW 1]: a 3 x 3 grid with
    cells (1,1) and (1,2) equal to 1 and all others 0. *)

Example fine_session :
  let st := Proj1.run (snd (Proj1.ems_init true None))
              [OpCreate 1 3 3; OpReserve 1 [(1, 1); (1, 2)]] in
  Proj1.ems_show st 1
  = (Ok, [TNum 1; TSpace; TNum 1; TSpace; TNum 0; TNewline;
          TNum 0; TSpace; TNum 0; TSpace; TNum 0; TNewline;
          TNum 0; TSpace; TNum 0; TSpace; TNum 0; TNewline]).
Proof. reflexivity. Qed.

Example coarse_session :
  let st := Proj2.run (snd (Proj2.ems_init true Proj2.Null))
              [OpCreate 1 3 3; OpReserve 1 [(1, 1); (1, 2)]] in
  Proj2.ems_show 8388608 st 1
  = Some [FInt 0; FSize 3; FSize 3; FArray [1; 1; 0; 0; 0; 0; 0; 0; 0]].
Proof. reflexivity. Qed.

(** A conflict in the middle of a request: [Proj1] claims (2,2), stops at
    (1,1) and rolls back; [Proj2] stops in the scan.  Both leave the event
    as it was. *)
Example conflict_rolls_back :
  let event := mkEvent 1 2 2 1 [1; 0; 0; 0] in
  Proj1.reserve_event event [(2, 2); (1, 1); (1, 2)] = (SeatAlreadyReserved, event) /\
  Proj2.reserve_event event [(2, 2); (1, 1); (1, 2)] = (SeatAlreadyReserved, event).
Proof. split; reflexivity. Qed.

(** ** Past the blocks and the stack

    [CREATE 1 2147483648 1073741824] in [Proj1]: the size of the seat
    array wraps around to 0 bytes, and the loop that initialises 2^61
    cells runs past the end of the block. *)
Example create_past_the_block l :
  get_event l 1 = None ->
  Proj1.ems_create NoFault (Some l) 1 2147483648 1073741824 = (Undefined, Some l).
Proof. intros Hget. unfold Proj1.ems_create. by rewrite Hget. Qed.

(** [SHOW] in [Proj1] of an event whose tenth reservation has marked a
    seat: ["10"] and its NUL do not fit the block of 2 bytes. *)
Example show_past_the_block :
  Proj1.ems_show (Some [mkEvent 1 1 2 10 [0; 10]]) 1 = (Undefined, [TNum 0; TSpace]).
Proof. reflexivity. Qed.

(** [LIST] in [Proj1] with an event of id 100000000: the nine digits, the
    end of line and the NUL do not fit the block of 10 bytes. *)
Example list_past_the_block :
  Proj1.ems_list_events (Some [mkEvent 100000000 1 1 0 [0]])
  = (Undefined, [TEventLabel]).
Proof. reflexivity. Qed.

(** [SHOW] in [Proj2] of an event of 1500 rows of 1500 columns on a stack
    of 8 MiB: the response array takes 9000000 bytes. *)
Example show_past_the_stack d n :
  Proj2.ems_show 8388608 (Proj2.Live (Proj2.mkList [mkEvent 1 1500 1500 0 d] n)) 1
  = None.
Proof. reflexivity. Qed.

(** * Further properties of the code *)

(** ** Delays *)

(** X1. [Proj1.delay_to_timespec] yields a normalised [timespec] (its
    nanoseconds below one second, no wrap-around in the [unsigned int]
    product) that stands for exactly [delay_ms] milliseconds. *)
Theorem delay_to_timespec_exact delay_ms :
  0 <= delay_ms <= UINT_MAX ->
  0 <= fst (Proj1.delay_to_timespec delay_ms) /\
  0 <= snd (Proj1.delay_to_timespec delay_ms) < 1000000000 /\
  fst (Proj1.delay_to_timespec delay_ms) * 1000000000
    + snd (Proj1.delay_to_timespec delay_ms)
  = delay_ms * 1000000.
Proof.
  unfold UINT_MAX. intros Hd. unfold Proj1.delay_to_timespec. simpl.
  pose proof (Z.mod_pos_bound delay_ms 1000 ltac:(lia)) as Hm.
  pose proof (Z.div_mod delay_ms 1000 ltac:(lia)) as Hdm.
  rewrite wrap_uint_small by (unfold UINT_MAX; lia).
  split; [apply Z.div_pos; lia|]. split; lia.
Qed.

Lemma delay_to_timespec_exact_witness :
  0 <= 2500 <= UINT_MAX /\
  Proj1.delay_to_timespec 2500 = (2, 500000000) /\
  0 <= fst (Proj1.delay_to_timespec 2500) /\
  0 <= snd (Proj1.delay_to_timespec 2500) < 1000000000 /\
  fst (Proj1.delay_to_timespec 2500) * 1000000000
    + snd (Proj1.delay_to_timespec 2500)
  = 2500 * 1000000.
Proof.
  assert (H : 0 <= 2500 <= UINT_MAX) by (unfold UINT_MAX; lia).
  split; [exact H|]. split; [reflexivity|].
  exact (delay_to_timespec_exact 2500 H).
Defined.

(** X2. The delay of [Proj2]'s [get_event_with_delay] puts everything in
    the nanoseconds field: it stands for [state_access_delay_us]
    microseconds exactly when the product does not wrap, that is up to
    4294967 microseconds, and within that range the field is below one
    second exactly when the delay is below 1000000 microseconds. *)
Theorem access_delay_range delay_us :
  0 <= delay_us <= UINT_MAX ->
  fst (Proj2.access_delay delay_us) = 0 /\
  (snd (Proj2.access_delay delay_us) = delay_us * 1000 <-> delay_us <= 4294967) /\
  (delay_us <= 4294967 ->
   (snd (Proj2.access_delay delay_us) < 1000000000 <-> delay_us < 1000000)).
Proof.
  unfold UINT_MAX. intros Hd. unfold Proj2.access_delay, wrap_uint. simpl.
  split; [reflexivity|]. split.
  - split.
    + intros H. pose proof (Z.mod_pos_bound (delay_us * 1000) (2 ^ 32) ltac:(lia)).
      lia.
    + intros H. apply Z.mod_small. lia.
  - intros H. rewrite Z.mod_small by lia. lia.
Qed.

Lemma access_delay_range_witness :
  0 <= 1500000 <= UINT_MAX /\
  Proj2.access_delay 1500000 = (0, 1500000000) /\
  Proj2.access_delay 4294968 = (0, 704) /\
  fst (Proj2.access_delay 1500000) = 0 /\
  (snd (Proj2.access_delay 1500000) = 1500000 * 1000 <-> 1500000 <= 4294967) /\
  (1500000 <= 4294967 ->
   (snd (Proj2.access_delay 1500000) < 1000000000 <-> 1500000 < 1000000)).
Proof.
  assert (H : 0 <= 1500000 <= UINT_MAX) by (unfold UINT_MAX; lia).
  split; [exact H|]. split; [reflexivity|]. split; [reflexivity|].
  exact (access_delay_range 1500000 H).
Defined.

(** ** Seats and cells *)

(** X3. [seat_index] is a one-to-one correspondence between the seats
    within bounds and the cells of the grid: a seat within bounds has its
    index in [0, rows * cols), and every such index is the index of one
    seat within bounds and no other. *)
Theorem seat_index_bijection event :
  0 <= rows event -> 0 <= cols event ->
  rows event * cols event <= SIZE_MAX ->
  (forall s, out_of_bounds event s = false ->
             0 <= seat_index event (fst s) (snd s) < rows event * cols event)
  /\
  (forall i, 0 <= i < rows event * cols event ->
     exists s, out_of_bounds event s = false /\
               seat_index event (fst s) (snd s) = i /\
               forall s', out_of_bounds event s' = false ->
                          seat_index event (fst s') (snd s') = i -> s' = s).
Proof.
  intros Hr Hc Hsz.
  assert (Hsz' : 0 <= rows event * cols event <= SIZE_MAX) by nia.
  split.
  - intros s Hs. by apply seat_index_in_grid.
  - intros i Hi.
    assert (0 < cols event) as Hpos by nia.
    pose proof (Z.mod_pos_bound i (cols event) Hpos) as Hm.
    pose proof (Z.div_mod i (cols event) ltac:(lia)) as Hdm.
    assert (0 <= i / cols event) as Hq by (apply Z.div_pos; lia).
    assert (i / cols event < rows event) as Hq'
      by (apply Z.div_lt_upper_bound; lia).
    set (s := (i / cols event + 1, i mod cols event + 1)).
    assert (out_of_bounds event s = false) as Hs
      by (apply in_bounds_iff; simpl; lia).
    assert (seat_index event (fst s) (snd s) = i) as Hidx.
    { destruct (seat_index_in_grid event s Hsz' Hs) as [-> _]. simpl. nia. }
    exists s. split; [exact Hs|]. split; [exact Hidx|].
    intros s' Hs' Hidx'. apply (seat_index_inj event); auto. congruence.
Qed.

Lemma seat_index_bijection_witness :
  let event := mkEvent 1 2 3 0 [0; 0; 0; 0; 0; 0] in
  0 <= rows event /\ 0 <= cols event /\ rows event * cols event <= SIZE_MAX /\
  seat_index event 2 1 = 3 /\
  (forall s, out_of_bounds event s = false ->
             0 <= seat_index event (fst s) (snd s) < rows event * cols event)
  /\
  (forall i, 0 <= i < rows event * cols event ->
     exists s, out_of_bounds event s = false /\
               seat_index event (fst s) (snd s) = i /\
               forall s', out_of_bounds event s' = false ->
                          seat_index event (fst s') (snd s') = i -> s' = s).
Proof.
  intros event.
  assert (H1 : 0 <= rows event) by (simpl; lia).
  assert (H2 : 0 <= cols event) by (simpl; lia).
  assert (H3 : rows event * cols event <= SIZE_MAX) by (unfold SIZE_MAX; simpl; lia).
  split; [exact H1|]. split; [exact H2|]. split; [exact H3|].
  split; [reflexivity|].
  exact (seat_index_bijection event H1 H2 H3).
Defined.

(** ** Failed creations *)

(** X4. An [ems_create] that fails, for whatever reason (engine not
    initialised, duplicate id, an allocation or a mutex initialisation
    that fails), leaves the state as it was: no half-built event is ever
    in the list.  One that succeeds adds exactly one event. *)
Theorem create_failure_frame env event_id num_rows num_cols :
  (forall st s st',
      Proj1.ems_create env st event_id num_rows num_cols = (s, st') ->
      (s <> Ok -> st' = st) /\
      (s = Ok -> exists l event,
          st = Some l /\ st' = Some (l ++ [event]) /\ id event = event_id))
  /\
  (forall st s st',
      Proj2.ems_create env st event_id num_rows num_cols = (s, st') ->
      (s <> Ok -> st' = st) /\
      (s = Ok -> exists l event,
          st = Proj2.Live l /\
          st' = Proj2.Live (Proj2.mkList (Proj2.nodes l ++ [event])
                              (wrap_size (Proj2.num_events l + 1))) /\
          id event = event_id)).
Proof.
  split; intros st s st' H.
  - split.
    + intros Hs. by eapply fine_create_failure.
    + intros ->. apply fine_create_inv in H as (l & -> & _ & ->).
      eexists _, _. split; [reflexivity|]. split; reflexivity.
  - unfold Proj2.ems_create in H. destruct st as [|l|];
      try (inversion H; subst; split; [reflexivity|discriminate]).
    destruct (get_event (Proj2.nodes l) event_id).
    { inversion H; subst. split; [reflexivity|discriminate]. }
    destruct env; try (inversion H; subst; split; [reflexivity|discriminate]).
    inversion H; subst. split; [contradiction|]. intros _. eexists _, _.
    split; [reflexivity|]. split; reflexivity.
Qed.

Lemma create_failure_frame_witness :
  Proj1.ems_create DataAllocFails (Some []) 3 2 2 = (AllocationFailure, Some []) /\
  Proj2.ems_create MutexInitFails (Proj2.Live Proj2.create_list) 3 2 2
    = (LockFailure, Proj2.Live Proj2.create_list) /\
  Some [] = Some ([] : list Event) /\
  Proj2.Live Proj2.create_list = Proj2.Live Proj2.create_list.
Proof.
  split; [reflexivity|]. split; [reflexivity|].
  destruct (create_failure_frame DataAllocFails 3 2 2) as [Hfine _].
  destruct (create_failure_frame MutexInitFails 3 2 2) as [_ Hcoarse].
  split.
  - symmetry.
    exact (proj1 (Hfine (Some []) AllocationFailure (Some []) eq_refl)
             ltac:(discriminate)).
  - symmetry.
    exact (proj1 (Hcoarse (Proj2.Live Proj2.create_list) LockFailure
                    (Proj2.Live Proj2.create_list) eq_refl)
             ltac:(discriminate)).
Defined.

(** ** What a reservation is, event by event *)

Lemma fine_reserves_iff l event_id seats event s l' event' :
  get_event l event_id = Some event ->
  fine_reserves l event_id seats s l' event' <->
  Proj1.reserve_event event seats = (s, event') /\
  l' = store_event l event_id event'.
Proof.
  intros Hget. unfold fine_reserves, Proj1.ems_reserve. rewrite Hget.
  pose proof (fine_reserve_id event seats) as Hid.
  pose proof (get_event_id _ _ _ Hget) as Hid0.
  destruct (Proj1.reserve_event event seats) as [s0 e0]. simpl in Hid.
  assert (get_event (store_event l event_id e0) event_id = Some e0) as Hfound
    by (eapply get_store_event; eauto; congruence).
  split.
  - intros [H1 H2]. inversion H1; subst. rewrite Hfound in H2.
    inversion H2; subst. auto.
  - intros [H1 ->]. inversion H1; subst. auto.
Qed.

Lemma coarse_reserves_iff l n event_id seats event s l' event' :
  get_event l event_id = Some event ->
  coarse_reserves l n event_id seats s l' event' <->
  Proj2.reserve_event event seats = (s, event') /\
  l' = store_event l event_id event'.
Proof.
  intros Hget. unfold coarse_reserves, Proj2.ems_reserve. simpl. rewrite Hget.
  pose proof (coarse_reserve_id event seats) as Hid.
  pose proof (get_event_id _ _ _ Hget) as Hid0.
  destruct (Proj2.reserve_event event seats) as [s0 e0]. simpl in Hid.
  assert (get_event (store_event l event_id e0) event_id = Some e0) as Hfound
    by (eapply get_store_event; eauto; congruence).
  split.
  - intros [H1 H2]. inversion H1; subst. rewrite Hfound in H2.
    inversion H2; subst. auto.
  - intros [H1 ->]. inversion H1; subst. auto.
Qed.

(** A claiming loop that runs to its end with a non-zero id has met every
    seat once only: the second visit of a seat would have found the mark
    of the first. *)
Lemma claim_seats_nodup event rid seats i d d' :
  Proj1.claim_seats event rid seats i d = ((i + length seats)%nat, Ok, d') ->
  rid <> 0 ->
  0 <= rows event * cols event <= SIZE_MAX ->
  Z.of_nat (length d) = rows event * cols event ->
  NoDup seats.
Proof.
  intros H Hrid Hsz. revert i d H.
  induction seats as [|s rest IH]; intros i d H Hlen; [constructor|].
  simpl in H. destruct (out_of_bounds event s) eqn:Hb.
  { inversion H; lia. }
  destruct (negb _) eqn:Hfree.
  { inversion H; lia. }
  replace (i + S (length rest))%nat with (S i + length rest)%nat in H by lia.
  constructor.
  - intros Hin. apply list_elem_of_In in Hin.
    pose proof (claim_seats_were_free _ _ _ _ _ _ _ _ s H) as Hwas.
    rewrite Nat.add_comm, Nat.add_sub, firstn_all in Hwas.
    specialize (Hwas Hin).
    destruct (seat_index_in_grid event s Hsz Hb) as [_ Hrange].
    rewrite grid_read_write_eq in Hwas by lia. contradiction.
  - apply (IH (S i) _ H). by rewrite grid_write_length.
Qed.

(** The event a successful reservation leaves. *)
Lemma fine_reserve_ok_loop event seats event' :
  Proj1.reserve_event event seats = (Ok, event') ->
  exists d',
    Proj1.claim_seats
      (set_reservations event (wrap_uint (reservations event + 1)))
      (wrap_uint (reservations event + 1)) seats 0 (data event)
    = ((0 + length seats)%nat, Ok, d').
Proof.
  unfold Proj1.reserve_event.
  change (data (set_reservations event (wrap_uint (reservations event + 1))))
    with (data event).
  destruct (Proj1.claim_seats _ _ seats 0 _) as [[i diag] d] eqn:Hloop.
  pose proof (claim_seats_range _ _ _ _ _ _ _ _ Hloop) as Hrange.
  pose proof (claim_seats_diag _ _ _ _ _ _ _ _ Hloop) as Hdiag.
  destruct (i <? length seats)%nat eqn:Hi; intros H.
  - apply Nat.ltb_lt in Hi. inversion H; subst.
    destruct Hdiag as [[Hi' _]|[_ [Hd|Hd]]]; [simpl in Hi'; lia| |]; discriminate.
  - apply Nat.ltb_ge in Hi. exists d.
    destruct Hdiag as [[-> ->]|[Hlt _]]; [reflexivity|simpl in *; lia].
Qed.

Lemma fine_reserve_ok event seats :
  0 <= rows event * cols event <= SIZE_MAX ->
  all_in_bounds event seats -> all_free event seats -> NoDup seats ->
  Proj1.reserve_event event seats
  = (Ok, mkEvent (id event) (rows event) (cols event)
           (wrap_uint (reservations event + 1))
           (Proj2.mark_seats event (wrap_uint (reservations event + 1)) seats
              (data event))).
Proof.
  intros Hsz Hinb Hfree Hnd. unfold Proj1.reserve_event.
  set (rid := wrap_uint (reservations event + 1)).
  destruct (claim_seats_complete (set_reservations event rid) rid seats 0
              (data event) Hsz Hinb Hfree Hnd) as [d1 Hd1].
  change (data (set_reservations event rid)) with (data event).
  rewrite Hd1. simpl. rewrite Nat.ltb_irrefl.
  apply claim_seats_marks in Hd1. destruct Hd1 as [_ Hd1].
  replace (0 + length seats - 0)%nat with (length seats) in Hd1 by lia.
  rewrite firstn_all in Hd1. subst d1. reflexivity.
Qed.

Lemma coarse_reserve_ok event seats :
  all_in_bounds event seats -> all_free event seats ->
  Proj2.reserve_event event seats
  = (Ok, mkEvent (id event) (rows event) (cols event)
           (wrap_uint (reservations event + 1))
           (Proj2.mark_seats event (wrap_uint (reservations event + 1)) seats
              (data event))).
Proof.
  intros Hinb Hfree.
  destruct (Proj2.reserve_event event seats) as [s event'] eqn:H.
  pose proof H as H'. apply coarse_reserve_cases in H'.
  destruct H' as [(-> & -> & _)|[(_ & _ & Hno)|(_ & _ & _ & Hno)]];
    [reflexivity|contradiction|contradiction].
Qed.

(** Marking leaves alone every cell that is occupied or not requested. *)
Lemma marks_leave_others event rid seats k :
  all_free event seats -> 0 <= k ->
  grid_read (data event) k <> 0 \/
  (forall seat, In seat seats -> seat_index event (fst seat) (snd seat) <> k) ->
  grid_read (Proj2.mark_seats event rid seats (data event)) k
  = grid_read (data event) k.
Proof.
  intros Hfree Hk Hor. unfold Proj2.mark_seats.
  apply (fold_write_other (fun s => seat_index event (fst s) (snd s)) rid); auto.
  - intros; apply seat_index_nonneg.
  - intros seat Hin Heq. destruct Hor as [Hocc|Hno].
    + unfold all_free in Hfree. rewrite Forall_forall in Hfree.
      apply list_elem_of_In in Hin. specialize (Hfree seat Hin).
      rewrite Heq in Hfree. contradiction.
    + by apply (Hno seat).
Qed.

Lemma shape_fine_reserve event seats :
  shape (snd (Proj1.reserve_event event seats)) = shape event.
Proof.
  unfold Proj1.reserve_event.
  destruct (Proj1.claim_seats _ _ seats 0 _) as [[i diag] d].
  by destruct (i <? length seats)%nat.
Qed.

Lemma shape_coarse_reserve event seats :
  shape (snd (Proj2.reserve_event event seats)) = shape event.
Proof.
  unfold Proj2.reserve_event.
  destruct (existsb _ _); [reflexivity|]. by destruct (Proj2.scan_grid _ _ _ _).
Qed.

Lemma map_shape_store l event_id event event' :
  get_event l event_id = Some event -> shape event' = shape event ->
  map shape (store_event l event_id event') = map shape l.
Proof.
  unfold get_event. intros Hget Hshape.
  induction l as [|e l IH]; simpl in *; [reflexivity|].
  destruct (id e =? event_id).
  - inversion Hget; subst. simpl. by rewrite Hshape.
  - simpl. f_equal. by apply IH.
Qed.

(** X5. In [Proj2], on an existing event, [ems_reserve] succeeds exactly
    when every requested seat is within bounds and free; it reports a seat
    out of bounds exactly when one is, and a seat already reserved exactly
    when all are within bounds and one is taken. *)
Theorem coarse_reserve_succeeds_iff l n event_id seats event s l' event' :
  get_event l event_id = Some event ->
  wf_event event ->
  coarse_reserves l n event_id seats s l' event' ->
  (s = Ok <-> all_in_bounds event seats /\ all_free event seats) /\
  (s = InvalidSeat <-> ~ all_in_bounds event seats) /\
  (s = SeatAlreadyReserved <->
   all_in_bounds event seats /\ ~ all_free event seats).
Proof.
  intros Hget (Hr & Hc & Hsz & _) Hres.
  apply (coarse_reserves_iff _ _ _ _ _ _ _ _ Hget) in Hres.
  destruct Hres as [Hres _]. apply coarse_reserve_cases in Hres.
  assert (Hsz' : 0 <= rows event * cols event <= SIZE_MAX) by nia.
  destruct Hres as [(-> & _ & Hinb & Hfree)|[(-> & _ & Hno)|(-> & _ & Hinb & Hno)]].
  - specialize (Hfree Hsz'). split; [tauto|]. split; split; try discriminate; tauto.
  - split; [split; [discriminate|tauto]|]. split; [tauto|].
    split; [discriminate|tauto].
  - split; [split; [discriminate|tauto]|]. split; [|tauto].
    split; [discriminate|tauto].
Qed.

Lemma coarse_reserve_succeeds_iff_witness :
  let event := mkEvent 1 2 2 1 [1; 0; 0; 0] in
  let event' := mkEvent 1 2 2 2 [1; 2; 0; 2] in
  get_event [event] 1 = Some event /\ wf_event event /\
  coarse_reserves [event] 1 1 [(1, 2); (2, 2)] Ok [event'] event' /\
  (Ok = Ok <->
   all_in_bounds event [(1, 2); (2, 2)] /\ all_free event [(1, 2); (2, 2)]).
Proof.
  intros event event'.
  assert (Hwf : wf_event event) by solve_wf.
  assert (Hres : coarse_reserves [event] 1 1 [(1, 2); (2, 2)] Ok [event'] event')
    by (split; reflexivity).
  split; [reflexivity|]. split; [exact Hwf|]. split; [exact Hres|].
  exact (proj1 (coarse_reserve_succeeds_iff [event] 1 1 [(1, 2); (2, 2)] event Ok
                  [event'] event' eq_refl Hwf Hres)).
Defined.

(** X6. In [Proj1], on an existing event whose counter is below
    [UINT_MAX], [ems_reserve] succeeds exactly when every requested seat is
    within bounds and free and no seat is listed twice; every failure is
    reported as a seat out of bounds or a seat already reserved. *)
Theorem fine_reserve_succeeds_iff l event_id seats event s l' event' :
  get_event l event_id = Some event ->
  wf_event event ->
  reservations event < UINT_MAX ->
  fine_reserves l event_id seats s l' event' ->
  (s = Ok <->
   all_in_bounds event seats /\ all_free event seats /\ NoDup seats) /\
  (s <> Ok -> s = InvalidSeat \/ s = SeatAlreadyReserved).
Proof.
  intros Hget (Hr & Hc & Hsz & Hlen & Hcnt) Hmax Hres.
  apply (fine_reserves_iff _ _ _ _ _ _ _ Hget) in Hres.
  destruct Hres as [Hres _].
  assert (Hsz' : 0 <= rows event * cols event <= SIZE_MAX) by nia.
  pose proof Hres as Hcases. apply fine_reserve_cases in Hcases; [|exact Hcnt].
  split.
  - split.
    + intros ->. destruct Hcases as [(_ & _ & Hinb & Hfree)|([?|?] & _)];
        try discriminate.
      split; [exact Hinb|]. split; [exact Hfree|].
      destruct (fine_reserve_ok_loop _ _ _ Hres) as [d' Hloop].
      apply (claim_seats_nodup _ _ _ _ _ _ Hloop); auto.
      rewrite wrap_uint_small by lia. lia.
    + intros (Hinb & Hfree & Hnd).
      rewrite (fine_reserve_ok event seats Hsz' Hinb Hfree Hnd) in Hres.
      by inversion Hres.
  - intros Hfail. destruct Hcases as [(-> & _)|(Hs & _)]; [contradiction|exact Hs].
Qed.

Lemma fine_reserve_succeeds_iff_witness :
  let event := mkEvent 1 2 2 1 [1; 0; 0; 0] in
  get_event [event] 1 = Some event /\ wf_event event /\
  reservations event < UINT_MAX /\
  fine_reserves [event] 1 [(2, 2); (2, 2)] SeatAlreadyReserved [event] event /\
  (SeatAlreadyReserved = Ok <->
   all_in_bounds event [(2, 2); (2, 2)] /\ all_free event [(2, 2); (2, 2)] /\
   NoDup [(2, 2); (2, 2)]).
Proof.
  intros event.
  assert (Hwf : wf_event event) by solve_wf.
  assert (Hmax : reservations event < UINT_MAX) by (unfold UINT_MAX; simpl; lia).
  assert (Hres : fine_reserves [event] 1 [(2, 2); (2, 2)] SeatAlreadyReserved
                   [event] event) by (split; reflexivity).
  split; [reflexivity|]. split; [exact Hwf|]. split; [exact Hmax|].
  split; [exact Hres|].
  exact (proj1 (fine_reserve_succeeds_iff [event] 1 [(2, 2); (2, 2)] event
                  SeatAlreadyReserved [event] event eq_refl Hwf Hmax Hres)).
Defined.

(** X7. In both implementations an [ems_reserve] changes no cell other
    than the requested ones, and never a cell that was occupied: a
    reservation once made is neither overwritten nor released by a later
    call, whatever that call requests and however it ends. *)
Theorem reserve_changes_only_requested l n event_id seats event :
  get_event l event_id = Some event ->
  wf_event event ->
  (forall s l' event' k,
      fine_reserves l event_id seats s l' event' ->
      0 <= k ->
      grid_read (data event) k <> 0 \/
      (forall seat, In seat seats -> seat_index event (fst seat) (snd seat) <> k) ->
      grid_read (data event') k = grid_read (data event) k)
  /\
  (forall s l' event' k,
      coarse_reserves l n event_id seats s l' event' ->
      0 <= k ->
      grid_read (data event) k <> 0 \/
      (forall seat, In seat seats -> seat_index event (fst seat) (snd seat) <> k) ->
      grid_read (data event') k = grid_read (data event) k).
Proof.
  intros Hget (Hr & Hc & Hsz & Hlen & Hcnt).
  assert (Hsz' : 0 <= rows event * cols event <= SIZE_MAX) by nia.
  split; intros s l' event' k Hres Hk Hor.
  - apply (fine_reserves_iff _ _ _ _ _ _ _ Hget) in Hres. destruct Hres as [Hres _].
    apply fine_reserve_cases in Hres; [|exact Hcnt].
    destruct Hres as [(_ & -> & _ & Hfree)|(_ & ->)]; [|reflexivity].
    simpl. by apply marks_leave_others.
  - apply (coarse_reserves_iff _ _ _ _ _ _ _ _ Hget) in Hres.
    destruct Hres as [Hres _]. apply coarse_reserve_cases in Hres.
    destruct Hres as [(_ & -> & _ & Hfree)|[(_ & -> & _)|(_ & -> & _)]];
      try reflexivity.
    simpl. apply marks_leave_others; auto.
Qed.

Lemma reserve_changes_only_requested_witness :
  let event := mkEvent 1 2 2 1 [1; 0; 0; 0] in
  let event' := mkEvent 1 2 2 2 [1; 2; 0; 0] in
  get_event [event] 1 = Some event /\ wf_event event /\
  fine_reserves [event] 1 [(1, 2)] Ok [event'] event' /\
  coarse_reserves [event] 1 1 [(1, 2)] Ok [event'] event' /\
  grid_read (data event) 0 <> 0 /\
  grid_read (data event') 0 = grid_read (data event) 0.
Proof.
  intros event event'.
  assert (Hwf : wf_event event) by solve_wf.
  assert (Hres : fine_reserves [event] 1 [(1, 2)] Ok [event'] event')
    by (split; reflexivity).
  assert (Hocc : grid_read (data event) 0 <> 0) by discriminate.
  split; [reflexivity|]. split; [exact Hwf|]. split; [exact Hres|].
  split; [split; reflexivity|]. split; [exact Hocc|].
  destruct (reserve_changes_only_requested [event] 1 1 [(1, 2)] event eq_refl Hwf)
    as [Hfine _].
  exact (Hfine Ok [event'] event' 0 Hres ltac:(lia) (or_introl Hocc)).
Defined.

(** X8. No seat is sold twice.  After a successful reservation on an
    event whose counter was below [UINT_MAX], every later request on that
    event that names one of the seats just reserved fails, in both
    implementations, and leaves the event list as the first call left
    it. *)
Theorem no_double_booking l n event_id seats event :
  get_event l event_id = Some event ->
  wf_event event ->
  reservations event < UINT_MAX ->
  (forall l1 event1 seats2 s2 l2 event2,
      fine_reserves l event_id seats Ok l1 event1 ->
      (exists seat, In seat seats /\ In seat seats2) ->
      fine_reserves l1 event_id seats2 s2 l2 event2 ->
      s2 <> Ok /\ l2 = l1)
  /\
  (forall l1 event1 seats2 s2 l2 event2,
      coarse_reserves l n event_id seats Ok l1 event1 ->
      (exists seat, In seat seats /\ In seat seats2) ->
      coarse_reserves l1 n event_id seats2 s2 l2 event2 ->
      s2 <> Ok /\ l2 = l1).
Proof.
  intros Hget Hwf Hmax. pose proof Hwf as (Hr & Hc & Hsz & Hlen & Hcnt).
  assert (Hsz' : 0 <= rows event * cols event <= SIZE_MAX) by nia.
  set (rid := wrap_uint (reservations event + 1)).
  assert (Hrid : rid <> 0) by (unfold rid; rewrite wrap_uint_small by lia; lia).
  set (marked := mkEvent (id event) (rows event) (cols event) rid
                   (Proj2.mark_seats event rid seats (data event))).
  assert (Hwf1 : wf_event marked).
  { unfold wf_event, marked; simpl. rewrite mark_seats_length.
    pose proof (wrap_uint_range (reservations event + 1)). tauto. }
  assert (Htaken : forall seats2,
             all_in_bounds event seats ->
             (exists seat, In seat seats /\ In seat seats2) ->
             ~ all_free marked seats2).
  { intros seats2 Hinb [seat [Hin Hin2]] Hfree2.
    unfold all_free in Hfree2. rewrite Forall_forall in Hfree2.
    apply list_elem_of_In in Hin2. specialize (Hfree2 seat Hin2).
    rewrite (seat_index_cols marked event) in Hfree2 by reflexivity.
    unfold marked in Hfree2. simpl in Hfree2.
    rewrite (mark_seats_marked event rid seats seat Hwf Hinb Hin) in Hfree2.
    contradiction. }
  split; intros l1 event1 seats2 s2 l2 event2 H1 Hshared H2.
  - pose proof H1 as [_ Hget1].
    apply (fine_reserves_iff _ _ _ _ _ _ _ Hget) in H1. destruct H1 as [H1 _].
    apply fine_reserve_cases in H1; [|exact Hcnt].
    destruct H1 as [(_ & -> & Hinb & _)|([?|?] & _)]; try discriminate.
    fold rid in Hget1. fold marked in Hget1.
    apply (fine_reserves_iff _ _ _ _ _ _ _ Hget1) in H2. destruct H2 as [H2 ->].
    apply fine_reserve_cases in H2; [|apply Hwf1].
    destruct H2 as [(_ & _ & _ & Hfree2)|([-> | ->] & ->)].
    + exfalso. by apply (Htaken seats2 Hinb Hshared).
    + split; [discriminate|]. by apply store_event_same.
    + split; [discriminate|]. by apply store_event_same.
  - pose proof H1 as [_ Hget1].
    apply (coarse_reserves_iff _ _ _ _ _ _ _ _ Hget) in H1. destruct H1 as [H1 _].
    apply coarse_reserve_cases in H1.
    destruct H1 as [(_ & -> & Hinb & _)|[(? & _)|(? & _)]]; try discriminate.
    fold rid in Hget1. fold marked in Hget1.
    apply (coarse_reserves_iff _ _ _ _ _ _ _ _ Hget1) in H2. destruct H2 as [H2 ->].
    apply coarse_reserve_cases in H2.
    destruct H2 as [(_ & _ & _ & Hfree2)|[(-> & -> & _)|(-> & -> & _)]].
    + exfalso. apply (Htaken seats2 Hinb Hshared). apply Hfree2.
      destruct Hwf1 as (? & ? & ? & _). nia.
    + split; [discriminate|]. by apply store_event_same.
    + split; [discriminate|]. by apply store_event_same.
Qed.

Lemma no_double_booking_witness :
  let event := mkEvent 1 2 2 0 [0; 0; 0; 0] in
  let event1 := mkEvent 1 2 2 1 [1; 0; 0; 1] in
  get_event [event] 1 = Some event /\ wf_event event /\
  reservations event < UINT_MAX /\
  fine_reserves [event] 1 [(1, 1); (2, 2)] Ok [event1] event1 /\
  (exists seat, In seat [(1, 1); (2, 2)] /\ In seat [(1, 2); (2, 2)]) /\
  fine_reserves [event1] 1 [(1, 2); (2, 2)] SeatAlreadyReserved [event1] event1 /\
  SeatAlreadyReserved <> Ok /\ [event1] = [event1].
Proof.
  intros event event1.
  assert (Hwf : wf_event event) by solve_wf.
  assert (Hmax : reservations event < UINT_MAX) by (unfold UINT_MAX; simpl; lia).
  assert (H1 : fine_reserves [event] 1 [(1, 1); (2, 2)] Ok [event1] event1)
    by (split; reflexivity).
  assert (Hsh : exists seat, In seat [(1, 1); (2, 2)] /\ In seat [(1, 2); (2, 2)])
    by (exists (2, 2); simpl; auto).
  assert (H2 : fine_reserves [event1] 1 [(1, 2); (2, 2)] SeatAlreadyReserved
                 [event1] event1) by (split; reflexivity).
  split; [reflexivity|]. split; [exact Hwf|]. split; [exact Hmax|].
  split; [exact H1|]. split; [exact Hsh|]. split; [exact H2|].
  destruct (no_double_booking [event] 1 1 [(1, 1); (2, 2)] event eq_refl Hwf Hmax)
    as [Hfine _].
  exact (Hfine [event1] event1 [(1, 2); (2, 2)] SeatAlreadyReserved [event1] event1
           H1 Hsh H2).
Defined.

(** X9. An [ems_reserve], whatever it returns, leaves the registry in
    shape: the same events in the same order with the same ids and
    dimensions (and, in [Proj2], the same count), and every event other
    than the one addressed exactly as it was. *)
Theorem reserve_frame event_id seats :
  (forall l s st',
      Proj1.ems_reserve (Some l) event_id seats = (s, st') ->
      exists l', st' = Some l' /\
                 map shape l' = map shape l /\
                 forall other, other <> event_id ->
                               get_event l' other = get_event l other)
  /\
  (forall l n s st',
      Proj2.ems_reserve (Proj2.Live (Proj2.mkList l n)) event_id seats = (s, st') ->
      exists l', st' = Proj2.Live (Proj2.mkList l' n) /\
                 map shape l' = map shape l /\
                 forall other, other <> event_id ->
                               get_event l' other = get_event l other).
Proof.
  split.
  - intros l s st' H. unfold Proj1.ems_reserve in H.
    destruct (get_event l event_id) as [event|] eqn:Hget.
    2:{ inversion H; subst. exists l. auto. }
    pose proof (shape_fine_reserve event seats) as Hshape.
    destruct (Proj1.reserve_event event seats) as [s0 event']. simpl in Hshape.
    inversion H; subst. exists (store_event l event_id event').
    split; [reflexivity|]. split; [by eapply map_shape_store|].
    intros other Hne. apply get_store_other; auto.
    pose proof (get_event_id _ _ _ Hget). unfold shape in Hshape. congruence.
  - intros l n s st' H. unfold Proj2.ems_reserve in H. simpl in H.
    destruct (get_event l event_id) as [event|] eqn:Hget.
    2:{ inversion H; subst. exists l. auto. }
    pose proof (shape_coarse_reserve event seats) as Hshape.
    destruct (Proj2.reserve_event event seats) as [s0 event']. simpl in Hshape.
    inversion H; subst. exists (store_event l event_id event').
    split; [reflexivity|]. split; [by eapply map_shape_store|].
    intros other Hne. apply get_store_other; auto.
    pose proof (get_event_id _ _ _ Hget). unfold shape in Hshape. congruence.
Qed.

Lemma reserve_frame_witness :
  let a := mkEvent 1 1 2 0 [0; 0] in
  let b := mkEvent 2 1 1 0 [0] in
  Proj1.ems_reserve (Some [a; b]) 2 [(1, 1)] = (Ok, Some [a; mkEvent 2 1 1 1 [1]]) /\
  exists l', Some [a; mkEvent 2 1 1 1 [1]] = Some l' /\
             map shape l' = map shape [a; b] /\
             forall other, other <> 2 -> get_event l' other = get_event [a; b] other.
Proof.
  intros a b. split; [reflexivity|].
  destruct (reserve_frame 2 [(1, 1)]) as [Hfine _].
  exact (Hfine [a; b] Ok _ eq_refl).
Defined.

(** X10. In [Proj1] too a failed [ems_reserve] leaves the whole state as
    it was, the counter included: the increment made before the loop is
    undone, also when the counter stood at [UINT_MAX]. *)
Theorem fine_failure_frame st event_id seats s st' :
  Proj1.ems_reserve st event_id seats = (s, st') ->
  s <> Ok ->
  (forall l event, st = Some l -> get_event l event_id = Some event ->
                   0 <= reservations event <= UINT_MAX) ->
  st' = st.
Proof.
  intros H Hfail Hcnt. unfold Proj1.ems_reserve in H. destruct st as [l|].
  2:{ by inversion H. }
  destruct (get_event l event_id) as [event|] eqn:Hget.
  2:{ by inversion H. }
  destruct (Proj1.reserve_event event seats) as [s0 event'] eqn:Hres.
  inversion H; subst s0 st'.
  apply fine_reserve_cases in Hres; [|by apply (Hcnt l)].
  destruct Hres as [(-> & _)|(_ & ->)]; [contradiction|].
  by rewrite (store_event_same _ _ _ Hget).
Qed.

Lemma fine_failure_frame_witness :
  let st := Some [mkEvent 1 2 2 4294967295 [7; 0; 0; 0]] in
  Proj1.ems_reserve st 1 [(2, 1); (1, 1)] = (SeatAlreadyReserved, st) /\
  SeatAlreadyReserved <> Ok /\
  st = st.
Proof.
  intros st.
  assert (Hrun : Proj1.ems_reserve st 1 [(2, 1); (1, 1)] = (SeatAlreadyReserved, st))
    by reflexivity.
  assert (Hfail : SeatAlreadyReserved <> Ok) by discriminate.
  split; [exact Hrun|]. split; [exact Hfail|].
  apply (fine_failure_frame st 1 [(2, 1); (1, 1)] SeatAlreadyReserved st Hrun Hfail).
  intros l event Hl Hget. inversion Hl; subst l. simpl in Hget.
  inversion Hget; subst event. unfold UINT_MAX; simpl. lia.
Defined.

(** X11. The first reservation on a new event.  On an event as
    [ems_create] leaves it, a request whose seats are within bounds and
    listed once succeeds in both implementations, with reservation id 1,
    and afterwards a seat within bounds reads 1 if it was requested and 0
    if it was not. *)
Theorem first_reservation l n event_id num_rows num_cols seats :
  let event :=
    mkEvent event_id num_rows num_cols 0
      (replicate (Z.to_nat (wrap_size (num_rows * num_cols))) 0) in
  0 <= num_rows -> 0 <= num_cols -> num_rows * num_cols <= SIZE_MAX ->
  get_event l event_id = Some event ->
  all_in_bounds event seats ->
  NoDup seats ->
  exists event',
    fine_reserves l event_id seats Ok (store_event l event_id event') event' /\
    coarse_reserves l n event_id seats Ok (store_event l event_id event') event' /\
    reservations event' = 1 /\
    forall seat, out_of_bounds event seat = false ->
      grid_read (data event') (seat_index event' (fst seat) (snd seat))
      = if bool_decide (elem_of seat seats) then 1 else 0.
Proof.
  intros event Hr Hc Hsz Hget Hinb Hnd.
  assert (Hwf : wf_event event) by (by apply create_wf).
  assert (Hsz' : 0 <= rows event * cols event <= SIZE_MAX) by (simpl; nia).
  assert (Hfree : all_free event seats).
  { unfold all_free. apply Forall_forall. intros x _. apply grid_read_zeros. }
  set (event' := mkEvent event_id num_rows num_cols 1
                   (Proj2.mark_seats event 1 seats (data event))).
  exists event'. split; [|split; [|split]].
  - apply (fine_reserves_iff _ _ _ _ _ _ _ Hget). split; [|reflexivity].
    by rewrite (fine_reserve_ok event seats Hsz' Hinb Hfree Hnd).
  - apply (coarse_reserves_iff _ _ _ _ _ _ _ _ Hget). split; [|reflexivity].
    by rewrite (coarse_reserve_ok event seats Hinb Hfree).
  - reflexivity.
  - intros seat Hseat.
    rewrite (seat_index_cols event' event) by reflexivity.
    unfold event'. simpl data.
    destruct (bool_decide (elem_of seat seats)) eqn:Hdec.
    + apply bool_decide_eq_true in Hdec. apply list_elem_of_In in Hdec.
      by apply mark_seats_marked.
    + apply bool_decide_eq_false in Hdec. rewrite list_elem_of_In in Hdec.
      rewrite marks_leave_others; auto.
      * apply grid_read_zeros.
      * apply seat_index_nonneg.
      * right. intros seat' Hin' Heq. apply Hdec.
        apply seat_index_inj in Heq; auto.
        -- by subst.
        -- unfold all_in_bounds in Hinb. rewrite Forall_forall in Hinb.
           apply Hinb. by apply list_elem_of_In.
Qed.

Lemma first_reservation_witness :
  let event := mkEvent 4 2 2 0 [0; 0; 0; 0] in
  let seats := [(2, 1); (1, 2)] in
  0 <= 2 /\ 2 * 2 <= SIZE_MAX /\
  get_event [event] 4 = Some event /\
  all_in_bounds event seats /\ NoDup seats /\
  exists event',
    fine_reserves [event] 4 seats Ok (store_event [event] 4 event') event' /\
    coarse_reserves [event] 1 4 seats Ok (store_event [event] 4 event') event' /\
    reservations event' = 1 /\
    forall seat, out_of_bounds event seat = false ->
      grid_read (data event') (seat_index event' (fst seat) (snd seat))
      = if bool_decide (elem_of seat seats) then 1 else 0.
Proof.
  intros event seats.
  assert (H0 : 0 <= 2) by lia.
  assert (Hsz : 2 * 2 <= SIZE_MAX) by (unfold SIZE_MAX; lia).
  assert (Hinb : all_in_bounds event seats) by (repeat constructor).
  assert (Hnd : NoDup seats) by (apply (bool_decide_unpack (NoDup seats)); reflexivity).
  split; [exact H0|]. split; [exact Hsz|]. split; [reflexivity|].
  split; [exact Hinb|]. split; [exact Hnd|].
  exact (first_reservation [event] 1 4 2 2 seats H0 H0 Hsz eq_refl Hinb Hnd).
Defined.

(** ** The dump and the seat array *)

Lemma row_chunk (d : list Z) b c :
  (b + c <= length d)%nat ->
  map (fun k => default 0 (d !! (b + k)%nat)) (seq 0 c) = take c (drop b d).
Proof.
  induction c as [|c IH]; intros Hlen.
  - reflexivity.
  - rewrite seq_S, map_app, IH by lia. simpl.
    destruct (lookup_lt_is_Some_2 d (b + c)%nat ltac:(lia)) as [x Hx].
    rewrite (take_S_r _ _ x) by (by rewrite lookup_drop).
    by rewrite Hx.
Qed.

Lemma cell_at_nat (d : list Z) ncols a k :
  0 <= ncols ->
  cell_at d ncols (Z.of_nat a + 1) (Z.of_nat k + 1)
  = default 0 (d !! (a * Z.to_nat ncols + k)%nat).
Proof.
  intros Hc. unfold cell_at, grid_read. do 2 f_equal.
  replace ((Z.of_nat a + 1 - 1) * ncols + (Z.of_nat k + 1 - 1))
    with (Z.of_nat (a * Z.to_nat ncols + k))
    by (rewrite Nat2Z.inj_add, Nat2Z.inj_mul, Z2Nat.id by lia; lia).
  apply Nat2Z.id.
Qed.

Lemma dump_chunks (d : list Z) ncols a n :
  0 <= ncols ->
  ((a + n) * Z.to_nat ncols <= length d)%nat ->
  concat (map (fun row => map (fun col => cell_at d ncols row col) (upto ncols))
            (map (fun k => Z.of_nat k + 1) (seq a n)))
  = take (n * Z.to_nat ncols) (drop (a * Z.to_nat ncols) d).
Proof.
  intros Hc. revert a. induction n as [|n IH]; intros a Hlen.
  - reflexivity.
  - simpl seq. simpl map. simpl concat. rewrite IH by lia.
    unfold upto. rewrite map_map.
    rewrite (map_ext _ (fun k => default 0 (d !! (a * Z.to_nat ncols + k)%nat)))
      by (intros k; by apply cell_at_nat).
    rewrite row_chunk by lia.
    replace (S a * Z.to_nat ncols)%nat
      with (a * Z.to_nat ncols + Z.to_nat ncols)%nat by lia.
    rewrite <- drop_drop, take_take_drop. f_equal.
Qed.

(** The rows of the dump, end to end, are the seat array. *)
Lemma concat_row_major_dump nrows ncols (d : list Z) :
  0 <= nrows -> 0 <= ncols ->
  Z.of_nat (length d) = nrows * ncols ->
  concat (row_major_dump nrows ncols d) = d.
Proof.
  intros Hr Hc Hlen.
  assert (length d = (Z.to_nat nrows * Z.to_nat ncols)%nat) as Hlen'
    by (rewrite <- Z2Nat.inj_mul by lia; lia).
  unfold row_major_dump. unfold upto at 2.
  rewrite (dump_chunks d ncols 0 (Z.to_nat nrows) Hc) by (simpl; lia).
  simpl. rewrite drop_0. apply take_ge. lia.
Qed.

Lemma length_row_major_dump nrows ncols (d : list Z) :
  length (row_major_dump nrows ncols d) = Z.to_nat nrows /\
  Forall (fun row => length row = Z.to_nat ncols) (row_major_dump nrows ncols d).
Proof.
  unfold row_major_dump, upto. split.
  - by rewrite !length_map, length_seq.
  - apply Forall_forall. intros row Hrow. apply list_elem_of_In in Hrow.
    apply in_map_iff in Hrow as [x [<- _]]. by rewrite !length_map, length_seq.
Qed.

(** X12. [Proj2.ems_show] on an existing event of at least one seat,
    and of no more seats than its [int] counter can reach: when the stack
    holds the response array, of 4 bytes a seat, the call sends the status
    0, the two dimensions and then the seat array itself, cell for cell;
    when it does not, the call does not return. *)
Theorem coarse_show_sends_grid stack_room l event_id event :
  get_event (Proj2.nodes l) event_id = Some event ->
  wf_event event ->
  1 <= rows event * cols event <= INT_MAX ->
  (4 * (rows event * cols event) <= stack_room ->
   Proj2.ems_show stack_room (Proj2.Live l) event_id
   = Some [FInt 0; FSize (rows event); FSize (cols event); FArray (data event)])
  /\
  (stack_room < 4 * (rows event * cols event) ->
   Proj2.ems_show stack_room (Proj2.Live l) event_id = None).
Proof.
  intros Hget (Hr & Hc & Hsz & Hlen & _) Hint.
  unfold Proj2.ems_show. rewrite Hget.
  rewrite (wrap_size_small (rows event * cols event)) by lia.
  split; intros Hroom.
  - destruct (Z.leb_spec (4 * (rows event * cols event)) stack_room); [|lia].
    pose proof (coarse_show_dump event Hr Hc Hsz) as Hdump.
    rewrite (wrap_size_small (rows event * cols event)) in Hdump by lia.
    rewrite Hdump. by rewrite concat_row_major_dump.
  - by destruct (Z.leb_spec (4 * (rows event * cols event)) stack_room); [lia|].
Qed.

Lemma coarse_show_sends_grid_witness :
  let event := mkEvent 3 2 2 2 [1; 0; 2; 2] in
  let l := Proj2.mkList [event] 1 in
  Proj2.ems_show 8388608 (Proj2.Live l) 3
  = Some [FInt 0; FSize 2; FSize 2; FArray [1; 0; 2; 2]]
  /\ Proj2.ems_show 15 (Proj2.Live l) 3 = None.
Proof.
  intros event l.
  assert (Hwf : wf_event event) by solve_wf.
  assert (Hint : 1 <= rows event * cols event <= INT_MAX)
    by (unfold INT_MAX; simpl; lia).
  split.
  - apply (proj1 (coarse_show_sends_grid 8388608 l 3 event eq_refl Hwf Hint)).
    simpl. lia.
  - apply (proj2 (coarse_show_sends_grid 15 l 3 event eq_refl Hwf Hint)).
    simpl. lia.
Defined.

(** The loops of [Proj1.ems_show] stop in one way only. *)
Lemma fine_show_cols_status event i n j out :
  fst (Proj1.show_cols event i n j out) = Ok \/
  fst (Proj1.show_cols event i n j out) = Undefined.
Proof.
  revert j out. induction n as [|n IH]; intros j out.
  - by left.
  - rewrite fine_show_cols_step. destruct (sprintf_fits _ _); [apply IH|by right].
Qed.

Lemma fine_show_rows_status event n i out :
  fst (Proj1.show_rows event n i out) = Ok \/
  fst (Proj1.show_rows event n i out) = Undefined.
Proof.
  revert i out. induction n as [|n IH]; intros i out.
  - by left.
  - cbn [Proj1.show_rows].
    destruct (fine_show_cols_status event i (Z.to_nat (cols event)) 1 out) as [H|H];
      destruct (Proj1.show_cols event i (Z.to_nat (cols event)) 1 out) as [s o];
      simpl in H; subst s; [apply IH|by right].
Qed.

(** Loops that run to their end have met cells of one digit only. *)
Lemma fine_show_cols_ok event i n j out out' :
  Proj1.show_cols event i n j out = (Ok, out') ->
  forall k, (k < n)%nat ->
    grid_read (data event) (seat_index event i (j + Z.of_nat k)) < 10.
Proof.
  revert j out. induction n as [|n IH]; intros j out Hloop k Hk; [lia|].
  rewrite fine_show_cols_step in Hloop.
  destruct (sprintf_fits _ _) eqn:Hfit; [|discriminate].
  destruct k as [|k].
  - rewrite Z.add_0_r. by apply digit_fits.
  - replace (j + Z.of_nat (S k)) with (j + 1 + Z.of_nat k) by lia.
    eapply IH; [exact Hloop|lia].
Qed.

Lemma fine_show_rows_ok event n i out out' :
  Proj1.show_rows event n i out = (Ok, out') ->
  forall kr kc, (kr < n)%nat -> (kc < Z.to_nat (cols event))%nat ->
    grid_read (data event)
      (seat_index event (i + Z.of_nat kr) (1 + Z.of_nat kc)) < 10.
Proof.
  revert i out. induction n as [|n IH]; intros i out Hloop kr kc Hkr Hkc; [lia|].
  cbn [Proj1.show_rows] in Hloop.
  destruct (Proj1.show_cols event i (Z.to_nat (cols event)) 1 out) as [s o] eqn:Hrow.
  destruct s; try discriminate.
  destruct kr as [|kr].
  - rewrite Z.add_0_r. by eapply fine_show_cols_ok.
  - replace (i + Z.of_nat (S kr)) with (i + 1 + Z.of_nat kr) by lia.
    eapply IH; [exact Hloop|lia|lia].
Qed.

(** [Proj1.ems_show] runs to its end only on a seat array of cells of one
    digit. *)
Lemma fine_show_ok_digits event out' :
  wf_event event ->
  Proj1.show_rows event (Z.to_nat (rows event)) 1 [] = (Ok, out') ->
  Forall (fun v => v < 10) (data event).
Proof.
  intros (Hr & Hc & Hsz & Hlen & _) Hloop.
  apply Forall_lookup. intros idx v Hv.
  pose proof (lookup_lt_Some _ _ _ Hv) as Hidx.
  assert (0 < cols event) as Hcols by nia.
  pose proof (Z.div_mod (Z.of_nat idx) (cols event) ltac:(lia)) as Hdm.
  pose proof (Z.mod_pos_bound (Z.of_nat idx) (cols event) Hcols) as Hm.
  assert (0 <= Z.of_nat idx / cols event) as Hq by (apply Z.div_pos; lia).
  assert (Z.of_nat idx / cols event < rows event) as Hq'.
  { apply Z.div_lt_upper_bound; [lia|]. nia. }
  pose proof (fine_show_rows_ok event _ 1 [] out' Hloop
                (Z.to_nat (Z.of_nat idx / cols event))
                (Z.to_nat (Z.of_nat idx mod cols event))
                ltac:(lia) ltac:(lia)) as Hcell.
  rewrite !Z2Nat.id in Hcell by lia.
  unfold seat_index, grid_read in Hcell.
  replace ((1 + Z.of_nat idx / cols event - 1) * cols event
           + (1 + Z.of_nat idx mod cols event) - 1)
    with (Z.of_nat idx) in Hcell by lia.
  rewrite wrap_size_small in Hcell by lia.
  rewrite Nat2Z.id, Hv in Hcell. exact Hcell.
Qed.

(** X13. [Proj1.ems_show] on an existing event.  When every cell has one
    digit the call returns 0 and prints the seat array in [rows] lines of
    [cols] numbers: the lines are those of the row-major dump, whose rows
    end to end are the seat array.  When a cell has reached 10 the call
    runs past the end of the block of 2 bytes in which it formats a cell.
    The dimensions must leave room for the loop counters to pass them. *)
Theorem fine_show_prints_grid l event_id event :
  get_event l event_id = Some event ->
  wf_event event ->
  rows event < SIZE_MAX -> cols event < SIZE_MAX ->
  let dump := row_major_dump (rows event) (cols event) (data event) in
  (Forall (fun v => v < 10) (data event) ->
   Proj1.ems_show (Some l) event_id = (Ok, flat_map line_of dump)) /\
  (Exists (fun v => 10 <= v) (data event) ->
   fst (Proj1.ems_show (Some l) event_id) = Undefined) /\
  concat dump = data event /\
  length dump = Z.to_nat (rows event) /\
  Forall (fun row => length row = Z.to_nat (cols event)) dump.
Proof.
  intros Hget Hwf _ _ dump.
  pose proof Hwf as (Hr & Hc & Hsz & Hlen & _).
  split; [|split; [|split]].
  - intros Hdigits. unfold Proj1.ems_show. rewrite Hget.
    apply fine_show_dump; [exact Hdigits|exact Hc|nia].
  - intros Hbig. unfold Proj1.ems_show. rewrite Hget.
    destruct (fine_show_rows_status event (Z.to_nat (rows event)) 1 [])
      as [Hs|Hs]; [|exact Hs].
    destruct (Proj1.show_rows event (Z.to_nat (rows event)) 1 []) as [s out'] eqn:E.
    simpl in Hs. subst s.
    pose proof (fine_show_ok_digits event out' Hwf E) as Hdigits.
    apply Exists_exists in Hbig as (v & Hv & Hten).
    rewrite Forall_forall in Hdigits. specialize (Hdigits v Hv). lia.
  - by apply concat_row_major_dump.
  - apply length_row_major_dump.
Qed.

Lemma fine_show_prints_grid_witness :
  let event := mkEvent 3 2 2 2 [1; 0; 2; 2] in
  let late := mkEvent 3 2 2 10 [1; 0; 10; 10] in
  Proj1.ems_show (Some [event]) 3
  = (Ok, [TNum 1; TSpace; TNum 0; TNewline; TNum 2; TSpace; TNum 2; TNewline])
  /\ fst (Proj1.ems_show (Some [late]) 3) = Undefined.
Proof.
  intros event late.
  assert (Hwf : wf_event event) by solve_wf.
  assert (Hwf' : wf_event late) by solve_wf.
  assert (H1 : 2 < SIZE_MAX) by (unfold SIZE_MAX; lia).
  split.
  - apply (proj1 (fine_show_prints_grid [event] 3 event eq_refl Hwf H1 H1)).
    simpl. repeat (apply Forall_cons; split; [lia|]). apply Forall_nil_2.
  - apply (proj1 (proj2 (fine_show_prints_grid [late] 3 late eq_refl Hwf' H1 H1))).
    simpl. apply Exists_cons_tl, Exists_cons_tl, Exists_cons_hd. lia.
Defined.

(** ** The dump of the whole state in Proj2 *)

Lemma dump_cols_cells event i n a out :
  Proj2.dump_cols event i n (Z.of_nat a) out
  = out ++ map PCell
             (map (fun k => grid_read (data event)
                              (wrap_size (i * cols event + Z.of_nat k)))
                  (seq a n)).
Proof.
  revert a out. induction n as [|n IH]; intros a out; simpl.
  - by rewrite app_nil_r.
  - replace (Z.of_nat a + 1) with (Z.of_nat (S a)) by lia.
    rewrite IH. by rewrite <- app_assoc.
Qed.

Lemma dump_rows_lines event n a out :
  Proj2.dump_rows event n (Z.of_nat a) out
  = out ++ flat_map
             (fun kr =>
                map PCell
                  (map (fun k => grid_read (data event)
                                   (wrap_size (Z.of_nat kr * cols event + Z.of_nat k)))
                       (seq 0 (Z.to_nat (cols event))))
                ++ [PEndRow])
             (seq a n).
Proof.
  revert a out. induction n as [|n IH]; intros a out; simpl.
  - by rewrite app_nil_r.
  - pose proof (dump_cols_cells event (Z.of_nat a) (Z.to_nat (cols event)) 0 out)
      as Hrow.
    change (Z.of_nat 0) with 0 in Hrow. rewrite Hrow.
    replace (Z.of_nat a + 1) with (Z.of_nat (S a)) by lia.
    rewrite IH. by rewrite <- !app_assoc.
Qed.

(** One event as the loops of [show_EMS] print it. *)
Lemma dump_rows_event event out :
  0 <= rows event -> 0 <= cols event ->
  rows event * cols event <= SIZE_MAX ->
  Proj2.dump_rows event (Z.to_nat (rows event)) 0 (out ++ [PEvent (id event)])
  = out ++ printed_event event.
Proof.
  intros Hr Hc Hsz.
  pose proof (dump_rows_lines event (Z.to_nat (rows event)) 0
                (out ++ [PEvent (id event)])) as H.
  change (Z.of_nat 0) with 0 in H. rewrite H. clear H.
  rewrite <- app_assoc. f_equal. unfold printed_event. simpl. f_equal.
  unfold row_major_dump, upto.
  rewrite !flat_map_concat_map, !map_map. f_equal.
  apply map_ext_in. intros kr Hkr. apply in_seq in Hkr. f_equal. f_equal.
  rewrite map_map. apply map_ext_in. intros kc Hkc. apply in_seq in Hkc.
  unfold cell_at. f_equal.
  replace ((Z.of_nat kr + 1 - 1) * cols event + (Z.of_nat kc + 1 - 1))
    with (Z.of_nat kr * cols event + Z.of_nat kc) by lia.
  apply wrap_size_small. nia.
Qed.

Lemma dump_events_all current out :
  Forall wf_event current ->
  Proj2.dump_events current out = out ++ flat_map printed_event current.
Proof.
  revert out. induction current as [|event next IH]; intros out Hwf; simpl.
  - by rewrite app_nil_r.
  - inversion Hwf as [|? ? (Hr & Hc & Hsz & _) Hrest]; subst.
    rewrite dump_rows_event by assumption.
    rewrite IH by assumption. by rewrite <- app_assoc.
Qed.

(** X15. [show_EMS] of [Proj2] prints "No events" on an empty list, and
    otherwise every event in creation order: its header, then its grid row
    by row, the cell it prints at row [i], column [j] (counted from 0,
    read at [i * cols + j]) being the cell [ems_show] sends for the seat
    (i + 1, j + 1). *)
Theorem show_EMS_prints_all l :
  Forall wf_event (Proj2.nodes l) ->
  Proj2.show_EMS (Proj2.Live l)
  = Some (match Proj2.nodes l with
          | [] => [PNoEvents]
          | _ :: _ => flat_map printed_event (Proj2.nodes l)
          end).
Proof.
  intros Hwf. unfold Proj2.show_EMS.
  destruct (Proj2.nodes l) as [|e rest] eqn:E; [reflexivity|].
  f_equal. by apply (dump_events_all (e :: rest) []).
Qed.

Lemma show_EMS_prints_all_witness :
  let l := Proj2.mkList [mkEvent 3 1 2 1 [0; 1]; mkEvent 5 2 1 0 [0; 0]] 2 in
  Forall wf_event (Proj2.nodes l) /\
  Proj2.show_EMS (Proj2.Live l)
  = Some [PEvent 3; PCell 0; PCell 1; PEndRow;
          PEvent 5; PCell 0; PEndRow; PCell 0; PEndRow].
Proof.
  intros l.
  assert (Hwf : Forall wf_event (Proj2.nodes l))
    by (repeat constructor; solve_wf).
  split; [exact Hwf|].
  exact (show_EMS_prints_all l Hwf).
Defined.

(** ** The registry along a sequence of commands *)

Lemma map_id_shape l l' :
  map shape l' = map shape l -> map id l' = map id l.
Proof.
  intros H.
  assert (forall k : list Event, map id k = map (fun sh => fst (fst sh)) (map shape k))
    as Hid by (intros k; rewrite map_map; reflexivity).
  by rewrite !Hid, H.
Qed.

(** What one command does to the list of events of [Proj1]. *)
Lemma fine_step_registry l op s st' :
  Proj1.step (Some l) op = (s, st') ->
  exists l' added,
    st' = Some l' /\
    map shape l' = map shape l ++ map shape added /\
    match op, s with
    | OpCreate event_id _ _, Ok =>
        get_event l event_id = None /\ map id added = [event_id]
    | _, _ => added = []
    end.
Proof.
  intros H. destruct op as [event_id r c|event_id seats|event_id|]; simpl in H.
  - unfold Proj1.ems_create in H.
    destruct (get_event l event_id) eqn:Hget.
    { inversion H; subst. exists l, []. simpl. rewrite app_nil_r. auto. }
    destruct (_ <? _) in H.
    { inversion H; subst. exists l, []. simpl. rewrite app_nil_r. auto. }
    inversion H; subst. eexists _, [_]. split; [reflexivity|].
    unfold append_to_list. rewrite map_app. auto.
  - unfold Proj1.ems_reserve in H.
    destruct (get_event l event_id) as [event|] eqn:Hget.
    2:{ inversion H; subst. exists l, []. simpl. rewrite app_nil_r. auto. }
    pose proof (shape_fine_reserve event seats) as Hshape.
    destruct (Proj1.reserve_event event seats) as [s0 event']. simpl in Hshape.
    inversion H; subst. exists (store_event l event_id event'), [].
    simpl. rewrite app_nil_r. split; [reflexivity|].
    split; [by eapply map_shape_store|by destruct s].
  - inversion H; subst. exists l, []. simpl. rewrite app_nil_r.
    destruct (fst (Proj1.ems_show (Some l) event_id)); auto.
  - inversion H; subst. exists l, []. simpl. rewrite app_nil_r.
    destruct (fst (Proj1.ems_list_events (Some l))); auto.
Qed.

(** The same for [Proj2], with the count of events. *)
Lemma coarse_step_registry l n op s st' :
  Proj2.step (Proj2.Live (Proj2.mkList l n)) op = (s, st') ->
  exists l' added,
    st' = Proj2.Live (Proj2.mkList l'
            (match added with [] => n | _ :: _ => wrap_size (n + 1) end)) /\
    map shape l' = map shape l ++ map shape added /\
    match op, s with
    | OpCreate event_id _ _, Ok =>
        get_event l event_id = None /\ map id added = [event_id]
    | _, _ => added = []
    end.
Proof.
  intros H. destruct op as [event_id r c|event_id seats|event_id|]; simpl in H.
  - unfold Proj2.ems_create in H. simpl in H.
    destruct (get_event l event_id) eqn:Hget.
    { inversion H; subst. exists l, []. simpl. rewrite app_nil_r. auto. }
    inversion H; subst. eexists _, [_]. split; [reflexivity|].
    unfold append_to_list. rewrite map_app. auto.
  - unfold Proj2.ems_reserve in H. simpl in H.
    destruct (get_event l event_id) as [event|] eqn:Hget.
    2:{ inversion H; subst. exists l, []. simpl. rewrite app_nil_r. auto. }
    pose proof (shape_coarse_reserve event seats) as Hshape.
    destruct (Proj2.reserve_event event seats) as [s0 event']. simpl in Hshape.
    inversion H; subst. exists (store_event l event_id event'), [].
    simpl. rewrite app_nil_r. split; [reflexivity|].
    split; [by eapply map_shape_store|by destruct s].
  - inversion H; subst. exists l, []. simpl. rewrite app_nil_r. auto.
  - inversion H; subst. exists l, []. simpl. rewrite app_nil_r. auto.
Qed.

Lemma map_id_app_shape (l l' added : list Event) :
  map shape l' = map shape l ++ map shape added ->
  map id l' = map id l ++ map id added.
Proof.
  intros H. rewrite <- map_app in H. rewrite <- map_app.
  by apply map_id_shape.
Qed.

Lemma fine_run_registry ops l :
  exists l' added,
    Proj1.run (Some l) ops = Some l' /\
    map shape l' = map shape l ++ map shape added /\
    map id added = created_ids Proj1.step (Some l) ops /\
    (NoDup (map id l) -> NoDup (map id l')).
Proof.
  revert l. induction ops as [|op ops IH]; intros l.
  - exists l, []. simpl. rewrite app_nil_r. auto.
  - unfold Proj1.run in *. simpl.
    destruct (Proj1.step (Some l) op) as [s st1] eqn:Hstep.
    destruct (fine_step_registry l op s st1 Hstep) as (l1 & added1 & -> & Hsh1 & Hop).
    destruct (IH l1) as (l' & added2 & Hrun & Hsh2 & Hids & Hnd).
    exists l', (added1 ++ added2). simpl. split; [exact Hrun|]. split; [|split].
    + rewrite Hsh2, Hsh1, map_app. by rewrite <- app_assoc.
    + rewrite map_app, Hids.
      destruct op as [event_id r c| | |]; try (subst added1; destruct s; reflexivity).
      destruct s; try (subst added1; reflexivity).
      destruct Hop as [_ ->]. reflexivity.
    + intros Hnd0. apply Hnd. rewrite (map_id_app_shape l l1 added1 Hsh1).
      destruct op as [event_id r c| | |];
        try (subst added1; simpl; by rewrite app_nil_r).
      destruct s; try (subst added1; simpl; by rewrite app_nil_r).
      destruct Hop as [Hnone ->]. apply NoDup_app. split; [exact Hnd0|].
      split; [|apply NoDup_singleton].
      intros x Hx Hx'. apply list_elem_of_singleton in Hx'. subst x.
      apply get_event_none in Hnone. apply Hnone. by apply list_elem_of_In.
Qed.

Lemma coarse_run_registry ops l n :
  exists l' added n',
    Proj2.run (Proj2.Live (Proj2.mkList l n)) ops
      = Proj2.Live (Proj2.mkList l' n') /\
    map shape l' = map shape l ++ map shape added /\
    map id added = created_ids Proj2.step (Proj2.Live (Proj2.mkList l n)) ops /\
    (NoDup (map id l) -> NoDup (map id l')) /\
    (0 <= n -> n + Z.of_nat (length ops) <= SIZE_MAX ->
     n' = n + Z.of_nat (length added)).
Proof.
  revert l n. induction ops as [|op ops IH]; intros l n.
  - exists l, [], n. simpl. rewrite app_nil_r. repeat split; auto. lia.
  - unfold Proj2.run in *. simpl.
    destruct (Proj2.step (Proj2.Live (Proj2.mkList l n)) op) as [s st1] eqn:Hstep.
    destruct (coarse_step_registry l n op s st1 Hstep)
      as (l1 & added1 & -> & Hsh1 & Hop).
    set (n1 := match added1 with [] => n | _ :: _ => wrap_size (n + 1) end) in *.
    destruct (IH l1 n1) as (l' & added2 & n' & Hrun & Hsh2 & Hids & Hnd & Hcount).
    assert (length added1 <= 1)%nat as Hlen1.
    { destruct op as [event_id r c| | |]; try (subst added1; simpl; lia).
      destruct s; try (subst added1; simpl; lia).
      destruct Hop as [_ Hone]. apply (f_equal (@length _)) in Hone.
      rewrite length_map in Hone. simpl in Hone. lia. }
    exists l', (added1 ++ added2), n'. split; [exact Hrun|]. split; [|split; [|split]].
    + rewrite Hsh2, Hsh1, map_app. by rewrite <- app_assoc.
    + rewrite map_app, Hids.
      destruct op as [event_id r c| | |]; try (subst added1; destruct s; reflexivity).
      destruct s; try (subst added1; reflexivity).
      destruct Hop as [_ ->]. reflexivity.
    + intros Hnd0. apply Hnd. rewrite (map_id_app_shape l l1 added1 Hsh1).
      destruct op as [event_id r c| | |];
        try (subst added1; simpl; by rewrite app_nil_r).
      destruct s; try (subst added1; simpl; by rewrite app_nil_r).
      destruct Hop as [Hnone ->]. apply NoDup_app. split; [exact Hnd0|].
      split; [|apply NoDup_singleton].
      intros x Hx Hx'. apply list_elem_of_singleton in Hx'. subst x.
      apply get_event_none in Hnone. apply Hnone. by apply list_elem_of_In.
    + intros Hn Hmax. simpl length in Hmax.
      assert (n1 = n + Z.of_nat (length added1)) as Hn1.
      { unfold n1. destruct added1 as [|e1 rest1]; simpl; [lia|].
        simpl in Hlen1. destruct rest1; [|simpl in Hlen1; lia].
        rewrite wrap_size_small by lia. simpl. lia. }
      rewrite Hcount by lia. rewrite length_app. lia.
Qed.

Lemma flat_map_event_ids (l : list Event) :
  flat_map (fun e => [TEventLabel; TNum (id e); TNewline]) l
  = flat_map (fun i => [TEventLabel; TNum i; TNewline]) (map id l).
Proof. induction l as [|e l IH]; simpl; congruence. Qed.

(** X16. On an engine initialised and then driven by any sequence of
    [CREATE] and [RESERVE] commands, the seat arrays fitting a [size_t],
    [ems_list_events] gives exactly the ids of the [CREATE] commands that
    returned 0, in the order of their creation: a [CREATE] that found its
    id taken leaves no trace, and reservations, whether they succeed or
    not, do not disturb the list.  In [Proj1] the ids must be below
    100000000, the most the block of 10 bytes of the listing can take.
    In [Proj2] the stack must hold the array of the ids; they come after
    the status 0 and their count, or the status 1 stands alone when
    nothing was created. *)
Theorem listing_follows_creations ops :
  Forall sized_op ops ->
  (Forall (fun i => i < 100000000) (created_ids Proj1.step (Some []) ops) ->
   Proj1.ems_list_events (Proj1.run (Some []) ops)
   = (Ok, flat_map (fun i => [TEventLabel; TNum i; TNewline])
            (created_ids Proj1.step (Some []) ops)))
  /\
  (forall stack_room,
      Z.of_nat (length ops) <= SIZE_MAX ->
      4 * Z.of_nat (length (created_ids Proj2.step (Proj2.Live Proj2.create_list) ops))
        <= stack_room ->
      Proj2.ems_list_events stack_room (Proj2.run (Proj2.Live Proj2.create_list) ops)
      = Some (match created_ids Proj2.step (Proj2.Live Proj2.create_list) ops with
              | [] => [FInt 1]
              | ids => [FInt 0; FSize (Z.of_nat (length ids)); FArray ids]
              end)).
Proof.
  intros _. split.
  - intros Hsmall.
    destruct (fine_run_registry ops []) as (l' & added & -> & Hsh & Hids & _).
    apply (map_id_app_shape [] l' added) in Hsh. simpl in Hsh.
    rewrite <- Hids, <- Hsh in *. rewrite <- flat_map_event_ids.
    unfold Proj1.ems_list_events.
    assert (Proj1.list_events l' []
            = (Ok, flat_map (fun e => [TEventLabel; TNum (id e); TNewline]) l'))
      as Hloop.
    { rewrite fine_list_events_lines; [reflexivity|].
      apply Forall_forall. intros e He.
      rewrite Forall_forall in Hsmall. apply Hsmall.
      apply list_elem_of_fmap. by exists e. }
    destruct l' as [|e l']; [reflexivity|exact Hloop].
  - intros stack_room Hmax Hroom. unfold Proj2.create_list in *.
    destruct (coarse_run_registry ops [] 0)
      as (l' & added & n' & -> & Hsh & Hids & _ & Hcount).
    apply (map_id_app_shape [] l' added) in Hsh. simpl in Hsh.
    rewrite <- Hids, <- Hsh in *. rewrite Hcount by lia.
    assert (length added = length l') as Hsame
      by (rewrite <- (length_map id added), <- Hsh; by rewrite length_map).
    rewrite Hsame in *. rewrite length_map in Hroom.
    unfold Proj2.ems_list_events. simpl.
    destruct l' as [|e0 l0] eqn:El'; [reflexivity|]. rewrite <- El' in *.
    rewrite Z.add_0_l.
    destruct (Z.leb_spec (4 * Z.of_nat (length l')) stack_room); [|lia].
    rewrite Nat2Z.id.
    pose proof (list_ids_fills l' []) as Hfill. simpl in Hfill.
    change (Z.of_nat 0) with 0 in Hfill. rewrite Hfill.
    rewrite El'. simpl. rewrite length_map. reflexivity.
Qed.

Lemma listing_follows_creations_witness :
  let ops := [OpCreate 2 1 1; OpReserve 2 [(1, 1)]; OpCreate 2 5 5;
              OpReserve 9 [(1, 1)]; OpCreate 1 2 2] in
  Proj1.ems_list_events (Proj1.run (Some []) ops)
  = (Ok, [TEventLabel; TNum 2; TNewline; TEventLabel; TNum 1; TNewline]) /\
  Proj2.ems_list_events 8388608 (Proj2.run (Proj2.Live Proj2.create_list) ops)
  = Some [FInt 0; FSize 2; FArray [2; 1]].
Proof.
  intros ops.
  assert (Hsized : Forall sized_op ops).
  { unfold ops. repeat (apply Forall_cons; split); try apply Forall_nil_2;
      unfold sized_op, sizeof_Data, SIZE_MAX; lia. }
  destruct (listing_follows_creations ops Hsized) as [Hfine Hcoarse].
  split.
  - apply Hfine. simpl. repeat (apply Forall_cons; split; [lia|]). apply Forall_nil_2.
  - apply Hcoarse; unfold SIZE_MAX; simpl; lia.
Defined.

(** X17. Along any sequence of commands the registry only grows: every
    event stays where it is with its id and its dimensions, new events
    come after it, and ids that were pairwise distinct stay pairwise
    distinct. *)
Theorem registry_grows_only ops l :
  NoDup (map id l) ->
  (exists l' added,
      Proj1.run (Some l) ops = Some l' /\
      map shape l' = map shape l ++ map shape added /\
      NoDup (map id l'))
  /\
  (forall n, exists l' added n',
      Proj2.run (Proj2.Live (Proj2.mkList l n)) ops
        = Proj2.Live (Proj2.mkList l' n') /\
      map shape l' = map shape l ++ map shape added /\
      NoDup (map id l')).
Proof.
  intros Hnd. split.
  - destruct (fine_run_registry ops l) as (l' & added & Hrun & Hsh & _ & Hkeep).
    exists l', added. auto.
  - intros n.
    destruct (coarse_run_registry ops l n)
      as (l' & added & n' & Hrun & Hsh & _ & Hkeep & _).
    exists l', added, n'. auto.
Qed.

Lemma registry_grows_only_witness :
  let l := [mkEvent 7 1 1 0 [0]] in
  let ops := [OpCreate 7 2 2; OpCreate 3 1 2; OpReserve 7 [(1, 1)]] in
  NoDup (map id l) /\
  Proj1.run (Some l) ops = Some [mkEvent 7 1 1 1 [1]; mkEvent 3 1 2 0 [0; 0]] /\
  exists l' added,
    Proj1.run (Some l) ops = Some l' /\
    map shape l' = map shape l ++ map shape added /\
    NoDup (map id l').
Proof.
  intros l ops.
  assert (Hnd : NoDup (map id l)) by (apply NoDup_singleton).
  split; [exact Hnd|]. split; [reflexivity|].
  exact (proj1 (registry_grows_only ops l Hnd)).
Defined.

(** ** The counter counts the successful reservations *)

Section ExactCounter.

Context {St : Type}.
Variable step : St -> Op -> Status * St.
Variable counter_of : St -> Z -> option Z.
Variable eid : Z.

(** A successful reservation on [eid] moves the counter by one; nothing
    else moves it. *)
Hypothesis step_exact :
  forall st op s st',
    step st op = (s, st') ->
    0 <= counter_value counter_of eid st < UINT_MAX ->
    if issues eid op s
    then counter_of st' eid = Some (counter_value counter_of eid st + 1)
    else counter_value counter_of eid st' = counter_value counter_of eid st.

Lemma ids_from_S c n : ids_from c (S n) = (c + 1) :: ids_from (c + 1) n.
Proof.
  unfold ids_from. simpl. f_equal; [lia|].
  rewrite <- seq_shift, map_map. apply map_ext. intros k. lia.
Qed.

Lemma ids_handed_out_consecutive ops st :
  0 <= counter_value counter_of eid st ->
  counter_value counter_of eid st + Z.of_nat (length ops) <= UINT_MAX ->
  ids_handed_out step counter_of eid st ops
  = ids_from (counter_value counter_of eid st)
      (length (ids_handed_out step counter_of eid st ops))
  /\
  counter_value counter_of eid (fold_left (fun st' op => snd (step st' op)) ops st)
  = counter_value counter_of eid st
    + Z.of_nat (length (ids_handed_out step counter_of eid st ops)).
Proof.
  revert st. induction ops as [|op ops IH]; intros st Hpos Hmax.
  - simpl. split; [reflexivity|lia].
  - simpl length in Hmax. cbn [ids_handed_out fold_left].
    destruct (step st op) as [s st'] eqn:Hstep. simpl snd.
    pose proof (step_exact st op s st' Hstep ltac:(lia)) as Hex.
    destruct (issues eid op s) eqn:His.
    + assert (counter_value counter_of eid st' = counter_value counter_of eid st + 1)
        as Hst' by (unfold counter_value at 1; by rewrite Hex).
      destruct (IH st' ltac:(lia) ltac:(lia)) as [IHids IHcnt].
      destruct op as [? ? ?|event_id seats|?|]; try discriminate.
      destruct s; try discriminate. simpl in His. rewrite Hex, His.
      simpl length. rewrite ids_from_S. split.
      * f_equal. rewrite Hst' in IHids. exact IHids.
      * rewrite IHcnt, Hst'. lia.
    + destruct (IH st' ltac:(lia) ltac:(lia)) as [IHids IHcnt].
      rewrite Hex in IHids, IHcnt.
      assert (match op, s, counter_of st' eid with
              | OpReserve event_id _, Ok, Some r =>
                  if event_id =? eid
                  then r :: ids_handed_out step counter_of eid st' ops
                  else ids_handed_out step counter_of eid st' ops
              | _, _, _ => ids_handed_out step counter_of eid st' ops
              end = ids_handed_out step counter_of eid st' ops) as ->.
      { destruct op as [? ? ?|event_id seats|?|]; try reflexivity.
        destruct s; try reflexivity. simpl in His. rewrite His.
        by destruct (counter_of st' eid). }
      split; assumption.
Qed.

End ExactCounter.

Lemma fine_step_exact eid st op s st' :
  Proj1.step st op = (s, st') ->
  0 <= counter_value Proj1.counter_of eid st < UINT_MAX ->
  if issues eid op s
  then Proj1.counter_of st' eid = Some (counter_value Proj1.counter_of eid st + 1)
  else counter_value Proj1.counter_of eid st' = counter_value Proj1.counter_of eid st.
Proof.
  unfold counter_value. intros Hstep Hc.
  destruct op as [event_id r c|event_id seats|event_id|]; simpl in Hstep.
  - assert (issues eid (OpCreate event_id r c) s = false) as -> by reflexivity.
    unfold Proj1.ems_create in Hstep.
    destruct st as [l|]; [|by inversion Hstep].
    destruct (get_event l event_id) eqn:Hget; [by inversion Hstep|].
    destruct (_ <? _) in Hstep; [by inversion Hstep|].
    inversion Hstep; subst. simpl.
    destruct (Z.eq_dec event_id eid) as [->|Hne].
    + rewrite get_event_append by auto. by rewrite Hget.
    + by rewrite get_event_append_other.
  - unfold Proj1.ems_reserve in Hstep. destruct st as [l|].
    2:{ inversion Hstep; subst. reflexivity. }
    destruct (get_event l event_id) as [event|] eqn:Hget.
    2:{ inversion Hstep; subst. reflexivity. }
    destruct (Proj1.reserve_event event seats) as [s0 event'] eqn:Hres.
    inversion Hstep; subst s0 st'. simpl in *.
    pose proof (fine_reserve_id event seats) as Hid. rewrite Hres in Hid.
    simpl in Hid. pose proof (get_event_id _ _ _ Hget) as Hid0.
    destruct (Z.eq_dec event_id eid) as [->|Hne].
    + rewrite Hget in *. simpl in Hc.
      rewrite (get_store_event _ _ _ _ Hget) by congruence. simpl.
      apply fine_reserve_cases in Hres; [|lia].
      destruct Hres as [(-> & -> & _)|(Hs & ->)].
      * simpl. rewrite Z.eqb_refl, wrap_uint_small by lia. reflexivity.
      * destruct Hs as [-> | ->]; reflexivity.
    + rewrite get_store_other by congruence.
      assert ((event_id =? eid) = false) as Hneq by (by apply Z.eqb_neq).
      destruct s; simpl; rewrite ?Hneq; reflexivity.
  - inversion Hstep; subst. simpl.
    by destruct (fst (Proj1.ems_show st' event_id)).
  - inversion Hstep; subst. simpl.
    by destruct (fst (Proj1.ems_list_events st')).
Qed.

Lemma coarse_step_exact eid st op s st' :
  Proj2.step st op = (s, st') ->
  0 <= counter_value Proj2.counter_of eid st < UINT_MAX ->
  if issues eid op s
  then Proj2.counter_of st' eid = Some (counter_value Proj2.counter_of eid st + 1)
  else counter_value Proj2.counter_of eid st' = counter_value Proj2.counter_of eid st.
Proof.
  unfold counter_value. intros Hstep Hc.
  destruct op as [event_id r c|event_id seats|event_id|]; simpl in Hstep.
  - assert (issues eid (OpCreate event_id r c) s = false) as -> by reflexivity.
    unfold Proj2.ems_create in Hstep.
    destruct st as [|l|]; try (by inversion Hstep).
    destruct (get_event (Proj2.nodes l) event_id) eqn:Hget; [by inversion Hstep|].
    inversion Hstep; subst. simpl.
    destruct (Z.eq_dec event_id eid) as [->|Hne].
    + rewrite get_event_append by auto. by rewrite Hget.
    + by rewrite get_event_append_other.
  - unfold Proj2.ems_reserve in Hstep.
    destruct st as [|l|]; try (inversion Hstep; subst; reflexivity).
    destruct (get_event (Proj2.nodes l) event_id) as [event|] eqn:Hget.
    2:{ inversion Hstep; subst. reflexivity. }
    destruct (Proj2.reserve_event event seats) as [s0 event'] eqn:Hres.
    inversion Hstep; subst s0 st'. simpl in *.
    pose proof (coarse_reserve_id event seats) as Hid. rewrite Hres in Hid.
    simpl in Hid. pose proof (get_event_id _ _ _ Hget) as Hid0.
    destruct (Z.eq_dec event_id eid) as [->|Hne].
    + rewrite Hget in *. simpl in Hc.
      rewrite (get_store_event _ _ _ _ Hget) by congruence. simpl.
      apply coarse_reserve_cases in Hres.
      destruct Hres as [(-> & -> & _)|[(-> & -> & _)|(-> & -> & _)]].
      * simpl. rewrite Z.eqb_refl, wrap_uint_small by lia. reflexivity.
      * reflexivity.
      * reflexivity.
    + rewrite get_store_other by congruence.
      assert ((event_id =? eid) = false) as Hneq by (by apply Z.eqb_neq).
      destruct s; simpl; rewrite ?Hneq; reflexivity.
  - inversion Hstep; subst. reflexivity.
  - inversion Hstep; subst. reflexivity.
Qed.

(** X18. The ids handed out for an event are consecutive: along any
    sequence of commands that cannot take its counter past [UINT_MAX],
    they are c + 1, c + 2, ... from the counter c the sequence started
    with, and at the end the counter has advanced by their number.  Failed
    reservations leave no gap, in [Proj1] (where they increment and then
    decrement) as in [Proj2]. *)
Theorem issued_ids_consecutive eid ops :
  (forall st,
      0 <= counter_value Proj1.counter_of eid st ->
      counter_value Proj1.counter_of eid st + Z.of_nat (length ops) <= UINT_MAX ->
      Proj1.issued_ids eid st ops
      = ids_from (counter_value Proj1.counter_of eid st)
          (length (Proj1.issued_ids eid st ops)) /\
      counter_value Proj1.counter_of eid (Proj1.run st ops)
      = counter_value Proj1.counter_of eid st
        + Z.of_nat (length (Proj1.issued_ids eid st ops)))
  /\
  (forall st,
      0 <= counter_value Proj2.counter_of eid st ->
      counter_value Proj2.counter_of eid st + Z.of_nat (length ops) <= UINT_MAX ->
      Proj2.issued_ids eid st ops
      = ids_from (counter_value Proj2.counter_of eid st)
          (length (Proj2.issued_ids eid st ops)) /\
      counter_value Proj2.counter_of eid (Proj2.run st ops)
      = counter_value Proj2.counter_of eid st
        + Z.of_nat (length (Proj2.issued_ids eid st ops))).
Proof.
  split; intros st Hpos Hmax.
  - apply (ids_handed_out_consecutive Proj1.step Proj1.counter_of eid); auto.
    intros. by apply fine_step_exact.
  - apply (ids_handed_out_consecutive Proj2.step Proj2.counter_of eid); auto.
    intros. by apply coarse_step_exact.
Qed.

Lemma issued_ids_consecutive_witness :
  let st := Some [mkEvent 1 2 2 5 [5; 0; 0; 0]] in
  let ops := [OpReserve 1 [(1, 2)]; OpReserve 1 [(2, 2); (1, 1)]; OpReserve 1 [(2, 1)]] in
  0 <= counter_value Proj1.counter_of 1 st /\
  counter_value Proj1.counter_of 1 st + Z.of_nat (length ops) <= UINT_MAX /\
  Proj1.issued_ids 1 st ops = [6; 7] /\
  Proj1.issued_ids 1 st ops
  = ids_from (counter_value Proj1.counter_of 1 st)
      (length (Proj1.issued_ids 1 st ops)) /\
  counter_value Proj1.counter_of 1 (Proj1.run st ops)
  = counter_value Proj1.counter_of 1 st
    + Z.of_nat (length (Proj1.issued_ids 1 st ops)).
Proof.
  intros st ops.
  assert (H0 : 0 <= counter_value Proj1.counter_of 1 st)
    by (unfold counter_value; simpl; lia).
  assert (H1 : counter_value Proj1.counter_of 1 st + Z.of_nat (length ops) <= UINT_MAX)
    by (unfold counter_value, UINT_MAX; simpl; lia).
  split; [exact H0|]. split; [exact H1|]. split; [reflexivity|].
  exact (proj1 (issued_ids_consecutive 1 ops) st H0 H1).
Defined.

(** ** Marks and counters *)

Lemma mark_seats_Forall (P : Z -> Prop) event rid seats d :
  Forall P d -> P rid -> Forall P (Proj2.mark_seats event rid seats d).
Proof.
  intros Hd Hrid. unfold Proj2.mark_seats. revert d Hd.
  induction seats as [|s rest IH]; intros d Hd; simpl; [exact Hd|].
  apply IH. unfold grid_write. by apply Forall_insert.
Qed.

(** X19. Every mark in a grid is a reservation id that has been handed
    out: a new event has only zeros, and an [ems_reserve] on an event
    whose cells lie between 0 and its counter, the counter being below
    [UINT_MAX], leaves an event whose cells lie between 0 and its
    counter, in both implementations. *)
Theorem marks_stay_bounded l n event_id seats event :
  get_event l event_id = Some event ->
  wf_event event ->
  marks_bounded event ->
  reservations event < UINT_MAX ->
  (forall s l' event',
      fine_reserves l event_id seats s l' event' -> marks_bounded event')
  /\
  (forall s l' event',
      coarse_reserves l n event_id seats s l' event' -> marks_bounded event')
  /\
  (forall fresh_id num_rows num_cols k,
      marks_bounded (mkEvent fresh_id num_rows num_cols 0 (replicate k 0))).
Proof.
  intros Hget (Hr & Hc & Hsz & Hlen & Hcnt) Hmarks Hmax.
  assert (Hnext : marks_bounded
            (mkEvent (id event) (rows event) (cols event)
               (wrap_uint (reservations event + 1))
               (Proj2.mark_seats event (wrap_uint (reservations event + 1)) seats
                  (data event)))).
  { unfold marks_bounded in *. simpl. rewrite wrap_uint_small by lia.
    apply mark_seats_Forall; [|lia].
    eapply Forall_impl; [exact Hmarks|]. simpl. intros v Hv. lia. }
  split; [|split].
  - intros s l' event' Hres.
    apply (fine_reserves_iff _ _ _ _ _ _ _ Hget) in Hres. destruct Hres as [Hres _].
    apply fine_reserve_cases in Hres; [|exact Hcnt].
    by destruct Hres as [(_ & -> & _)|(_ & ->)].
  - intros s l' event' Hres.
    apply (coarse_reserves_iff _ _ _ _ _ _ _ _ Hget) in Hres.
    destruct Hres as [Hres _]. apply coarse_reserve_cases in Hres.
    by destruct Hres as [(_ & -> & _)|[(_ & -> & _)|(_ & -> & _)]].
  - intros fresh_id num_rows num_cols k. unfold marks_bounded. simpl.
    apply Forall_forall. intros v Hv. apply elem_of_replicate in Hv as [-> _]. lia.
Qed.

Lemma marks_stay_bounded_witness :
  let event := mkEvent 1 2 2 2 [1; 0; 2; 0] in
  let event' := mkEvent 1 2 2 3 [1; 3; 2; 0] in
  get_event [event] 1 = Some event /\ wf_event event /\
  marks_bounded event /\ reservations event < UINT_MAX /\
  fine_reserves [event] 1 [(1, 2)] Ok [event'] event' /\
  marks_bounded event'.
Proof.
  intros event event'.
  assert (Hwf : wf_event event) by solve_wf.
  assert (Hm : marks_bounded event) by (repeat constructor; simpl; lia).
  assert (Hmax : reservations event < UINT_MAX) by (unfold UINT_MAX; simpl; lia).
  assert (Hres : fine_reserves [event] 1 [(1, 2)] Ok [event'] event')
    by (split; reflexivity).
  split; [reflexivity|]. split; [exact Hwf|]. split; [exact Hm|].
  split; [exact Hmax|]. split; [exact Hres|].
  exact (proj1 (marks_stay_bounded [event] 1 1 [(1, 2)] event eq_refl Hwf Hm Hmax)
           Ok [event'] event' Hres).
Defined.

(** ** The two engines side by side *)

Lemma reserve_event_agree event seats :
  wf_event event -> NoDup seats ->
  snd (Proj1.reserve_event event seats) = snd (Proj2.reserve_event event seats).
Proof.
  intros (Hr & Hc & Hsz & Hlen & Hcnt) Hnd.
  assert (Hsz' : 0 <= rows event * cols event <= SIZE_MAX) by nia.
  destruct (Proj2.reserve_event event seats) as [s2 e2] eqn:H2.
  apply coarse_reserve_cases in H2.
  destruct H2 as [(_ & -> & Hinb & Hfree)|[(_ & -> & Hno)|(_ & -> & _ & Hno)]].
  - by rewrite (fine_reserve_ok event seats Hsz' Hinb (Hfree Hsz') Hnd).
  - destruct (Proj1.reserve_event event seats) as [s1 e1] eqn:H1.
    apply fine_reserve_cases in H1; [|exact Hcnt].
    by destruct H1 as [(_ & _ & Hinb & _)|(_ & ->)].
  - destruct (Proj1.reserve_event event seats) as [s1 e1] eqn:H1.
    apply fine_reserve_cases in H1; [|exact Hcnt].
    by destruct H1 as [(_ & _ & _ & Hfree)|(_ & ->)].
Qed.

Lemma store_event_wf l event_id event' :
  Forall wf_event l -> wf_event event' ->
  Forall wf_event (store_event l event_id event').
Proof.
  intros Hl He. induction l as [|e l IH]; simpl; [constructor|].
  inversion Hl; subst. destruct (id e =? event_id); constructor; auto.
Qed.

(** X20. The two engines stay in lock-step.  From the same well-formed
    events, allocations succeeding, any sequence of [CREATE] and [RESERVE]
    commands whose seat arrays fit a [size_t], in the bytes of [Proj1] as
    well, and whose requests list no seat twice leaves [Proj1] and [Proj2]
    with the same events, grids and counters, all of them well formed. *)
Theorem engines_in_lock_step ops l n :
  Forall wf_event l ->
  Forall plain_op ops ->
  exists l' n',
    Proj1.run (Some l) ops = Some l' /\
    Proj2.run (Proj2.Live (Proj2.mkList l n)) ops
      = Proj2.Live (Proj2.mkList l' n') /\
    Forall wf_event l'.
Proof.
  revert l n. induction ops as [|op ops IH]; intros l n Hwf Hplain.
  - exists l, n. auto.
  - apply Forall_cons in Hplain as [Hop Hrest].
    unfold Proj1.run, Proj2.run in *. simpl fold_left.
    assert (exists l1 n1,
               snd (Proj1.step (Some l) op) = Some l1 /\
               snd (Proj2.step (Proj2.Live (Proj2.mkList l n)) op)
                 = Proj2.Live (Proj2.mkList l1 n1) /\
               Forall wf_event l1) as (l1 & n1 & -> & -> & Hwf1);
      [|by apply IH].
    destruct op as [event_id r c|event_id seats|event_id|]; simpl.
    + destruct Hop as [(Hr & Hc & Hfit) _].
      unfold Proj1.ems_create, Proj2.ems_create. simpl.
      destruct (get_event l event_id); [exists l, n; auto|].
      rewrite create_size_fits by assumption.
      eexists _, _. split; [reflexivity|]. split; [reflexivity|].
      unfold append_to_list. apply Forall_app. split; [exact Hwf|].
      constructor; [|constructor]. apply create_wf; [exact Hr|exact Hc|].
      unfold sizeof_Data in Hfit. nia.
    + destruct Hop as [_ Hnd].
      unfold Proj1.ems_reserve, Proj2.ems_reserve. simpl.
      destruct (get_event l event_id) as [event|] eqn:Hget; [|exists l, n; auto].
      assert (wf_event event) as Hev.
      { rewrite Forall_forall in Hwf. apply Hwf.
        unfold get_event in Hget. apply find_some in Hget.
        apply list_elem_of_In. tauto. }
      pose proof (reserve_event_agree event seats Hev Hnd) as Hagree.
      pose proof (reserve_keeps_wf event seats Hev) as [Hk _].
      destruct (Proj1.reserve_event event seats) as [s1 e1].
      destruct (Proj2.reserve_event event seats) as [s2 e2].
      simpl in *. subst e2. eexists _, _.
      split; [reflexivity|]. split; [reflexivity|]. by apply store_event_wf.
    + by destruct Hop.
    + by destruct Hop.
Qed.

Lemma engines_in_lock_step_witness :
  let ops := [OpCreate 1 2 2; OpReserve 1 [(1, 1); (2, 2)]; OpReserve 1 [(2, 2)];
              OpCreate 2 1 3; OpReserve 2 [(1, 4)]; OpReserve 1 [(1, 2)]] in
  let l' := [mkEvent 1 2 2 2 [1; 2; 0; 1]; mkEvent 2 1 3 0 [0; 0; 0]] in
  Forall wf_event [] /\ Forall plain_op ops /\
  Proj1.run (Some []) ops = Some l' /\
  Proj2.run (Proj2.Live (Proj2.mkList [] 0)) ops
    = Proj2.Live (Proj2.mkList l' 2) /\
  exists l'' n',
    Proj1.run (Some []) ops = Some l'' /\
    Proj2.run (Proj2.Live (Proj2.mkList [] 0)) ops
      = Proj2.Live (Proj2.mkList l'' n') /\
    Forall wf_event l''.
Proof.
  intros ops l'.
  assert (Hwf : Forall wf_event []) by constructor.
  assert (Hplain : Forall plain_op ops).
  { unfold ops. repeat (apply Forall_cons; split); try apply Forall_nil_2;
      split; simpl; unfold sizeof_Data, SIZE_MAX; try lia;
      match goal with
      | |- NoDup ?seats => apply (bool_decide_unpack (NoDup seats)); reflexivity
      end. }
  split; [exact Hwf|]. split; [exact Hplain|].
  split; [reflexivity|]. split; [reflexivity|].
  exact (engines_in_lock_step ops [] 0 Hwf Hplain).
Defined.

(** ** An engine that is not running *)

(** X21. An engine that was never initialised, and in [Proj1] one that
    has been terminated, ignores every command: whatever the sequence, the
    state stays uninitialised, nothing is created and no reservation id is
    handed out. *)
Theorem dead_engine_ignores_commands ops :
  (Proj1.run None ops = None /\
   created_ids Proj1.step None ops = [] /\
   forall eid, Proj1.issued_ids eid None ops = [])
  /\
  (Proj2.run Proj2.Null ops = Proj2.Null /\
   created_ids Proj2.step Proj2.Null ops = [] /\
   forall eid, Proj2.issued_ids eid Proj2.Null ops = [])
  /\
  (forall st, fst (Proj1.ems_terminate st) = Ok ->
              Proj1.run (snd (Proj1.ems_terminate st)) ops = None).
Proof.
  assert (Hfine : Proj1.run None ops = None /\
                  created_ids Proj1.step None ops = [] /\
                  forall eid, Proj1.issued_ids eid None ops = []).
  { unfold Proj1.run, Proj1.issued_ids.
    induction ops as [|op ops IH]; [auto|].
    destruct IH as (IH1 & IH2 & IH3). destruct op; simpl; repeat split; auto. }
  assert (Hcoarse : Proj2.run Proj2.Null ops = Proj2.Null /\
                    created_ids Proj2.step Proj2.Null ops = [] /\
                    forall eid, Proj2.issued_ids eid Proj2.Null ops = []).
  { clear Hfine. unfold Proj2.run, Proj2.issued_ids.
    induction ops as [|op ops IH]; [auto|].
    destruct IH as (IH1 & IH2 & IH3). destruct op; simpl; repeat split; auto. }
  split; [exact Hfine|]. split; [exact Hcoarse|].
  intros st Hok. destruct st as [l|]; [|discriminate]. simpl. apply Hfine.
Qed.

Lemma dead_engine_ignores_commands_witness :
  let st := Some [mkEvent 1 1 1 0 [0]] in
  let ops := [OpCreate 2 1 1; OpReserve 1 [(1, 1)]] in
  fst (Proj1.ems_terminate st) = Ok /\
  Proj1.run (snd (Proj1.ems_terminate st)) ops = None.
Proof.
  intros st ops. split; [reflexivity|].
  exact (proj2 (proj2 (dead_engine_ignores_commands ops)) st eq_refl).
Defined.

(** ** One worker and its commands *)

Lemma terminate_clears st : snd (Proj1.ems_terminate st) = None.
Proof. by destruct st. Qed.

(** A round of the worker is a stretch of the serial execution: it ends
    at the end of the commands, or at a [BARRIER] with the rest still to
    do, or with the process in a command that leaves defined
    behaviour. *)
Lemma thread_round_serial get_index_thread t input st out :
  (forall a b, get_index_thread [a] b = 0) ->
  forall lv st' out' rest,
    Proj1.ems_process_thread get_index_thread t st out input = (lv, st', out', rest) ->
    (lv = Exits 0 /\ serial st out (before_EOC input) = (true, st', out')) \/
    (lv = Exits 1 /\ (length rest < length input)%nat /\
     serial st out (before_EOC input) = serial st' out' (before_EOC rest)) \/
    (lv = Killed /\ serial st out (before_EOC input) = (false, st', out')).
Proof.
  intros Hgi. revert st out.
  induction input as [|cmd input IH]; intros st out lv st' out' rest H.
  - simpl in H. rewrite Hgi in H. simpl in H. inversion H; subst. left. auto.
  - cbn [Proj1.ems_process_thread] in H. rewrite !Hgi in H.
    change (0 =? 0) with true in H. cbn [negb] in H. cbv iota in H.
    destruct cmd; cbn [before_EOC serial]; try (next_command IH H).
    + (* CREATE *)
      destruct (Proj1.ems_create NoFault st event_id num_rows num_columns) as [s st1].
      destruct s; try (next_command IH H).
      inversion H; subst. right; right. auto.
    + (* SHOW *)
      destruct (Proj1.ems_show st event_id) as [s text].
      destruct s; try (next_command IH H).
      inversion H; subst. right; right. auto.
    + (* LIST *)
      destruct (Proj1.ems_list_events st) as [s text].
      destruct s; try (next_command IH H).
      inversion H; subst. right; right. auto.
    + (* WAIT *)
      rewrite Hgi in H. change (0 =? 0) with true in H. cbv iota in H.
      destruct ((0 <? delay) && (id_thread =? 0));
        [|destruct ((0 <? delay) && (0 <? id_thread))]; next_command IH H.
    + (* BARRIER *)
      inversion H; subst. right; left. simpl. auto.
    + (* EOC *)
      inversion H; subst. left. auto.
Qed.


